(** * Inverted index and boolean retrieval (HW1_206567067_319001855.py)

    A shallow embedding of the two classes of the program, [InvertedIndex]
    and [BooleanRetrieval], and the properties of their operations.

    Conventions of the embedding.
    - Python integers are [Z]; list positions and loop cursors are [nat].
    - Python strings are [string]: sequences of characters with code points
      below 256.
    - [self.posting_list], a [defaultdict(list)] keyed by terms, is a
      [gmap string (list Z)]; [self.documents] is a [gmap Z Document].
    - A [while] loop is iterated with explicit fuel; each loop comes with
      the proof that the fuel it is given suffices.
    - A method that can raise returns an [outcome]; a method that mutates
      [self] returns the new [self] next to its outcome. *)

From Stdlib Require Import ZArith Ascii String.
From stdpp Require Import gmap strings list fin_maps sorting.

Set Warnings "-clear-no-such-hyp".
Local Open Scope Z_scope.

(** ** Loops *)

Section while_loop.
Context {St : Type} (guard : St → bool) (body : St → St).

(** [while guard: body], run for at most [fuel] iterations; [None] when
    the fuel runs out before the guard turns false. *)
Fixpoint while (fuel : nat) (s : St) : option St :=
  if guard s then
    match fuel with
    | O => None
    | S fuel' => while fuel' (body s)
    end
  else Some s.
End while_loop.

(** ** The three merges of [BooleanRetrieval] *)

(** The local variables of a merge loop: [res], [l1], [l2]. *)
Record cursors := Cursors { res : list Z; l1 : nat; l2 : nat }.

Definition merge_guard (ordered_list1 ordered_list2 : list Z) (c : cursors) : bool :=
  bool_decide (l1 c < length ordered_list1)%nat &&
  bool_decide (l2 c < length ordered_list2)%nat.

(** Python slice [l[i:]]. *)
Definition slice_from (l : list Z) (i : nat) : list Z := drop i l.

Definition and_body (ordered_list1 ordered_list2 : list Z) (c : cursors) : cursors :=
  if bool_decide (ordered_list1 !!! l1 c = ordered_list2 !!! l2 c) then
    Cursors (res c ++ [ordered_list1 !!! l1 c]) (S (l1 c)) (S (l2 c))
  else if bool_decide (ordered_list1 !!! l1 c < ordered_list2 !!! l2 c) then
    Cursors (res c) (S (l1 c)) (l2 c)
  else
    Cursors (res c) (l1 c) (S (l2 c)).

Definition and_loop (ordered_list1 ordered_list2 : list Z) : option cursors :=
  while (merge_guard ordered_list1 ordered_list2)
        (and_body ordered_list1 ordered_list2)
        (length ordered_list1 + length ordered_list2) (Cursors [] 0 0).

(** The loop ends within its fuel ([and_loop_terminates],
    [or_loop_terminates] and [not_loop_terminates] below), so the branch
    [None] of the three merges is never taken. *)
Definition and_query (ordered_list1 ordered_list2 : list Z) : list Z :=
  match and_loop ordered_list1 ordered_list2 with
  | Some c => res c
  | None => []
  end.

Definition or_body (ordered_list1 ordered_list2 : list Z) (c : cursors) : cursors :=
  if bool_decide (ordered_list1 !!! l1 c = ordered_list2 !!! l2 c) then
    Cursors (res c ++ [ordered_list1 !!! l1 c]) (S (l1 c)) (S (l2 c))
  else if bool_decide (ordered_list1 !!! l1 c < ordered_list2 !!! l2 c) then
    Cursors (res c ++ [ordered_list1 !!! l1 c]) (S (l1 c)) (l2 c)
  else
    Cursors (res c ++ [ordered_list2 !!! l2 c]) (l1 c) (S (l2 c)).

Definition or_loop (ordered_list1 ordered_list2 : list Z) : option cursors :=
  while (merge_guard ordered_list1 ordered_list2)
        (or_body ordered_list1 ordered_list2)
        (length ordered_list1 + length ordered_list2) (Cursors [] 0 0).

Definition or_query (ordered_list1 ordered_list2 : list Z) : list Z :=
  match or_loop ordered_list1 ordered_list2 with
  | Some c =>
      res c ++ slice_from ordered_list1 (l1 c) ++ slice_from ordered_list2 (l2 c)
  | None => []
  end.

Definition not_body (all_docs ordered_list2 : list Z) (c : cursors) : cursors :=
  if bool_decide (all_docs !!! l1 c = ordered_list2 !!! l2 c) then
    Cursors (res c) (S (l1 c)) (S (l2 c))
  else if bool_decide (all_docs !!! l1 c < ordered_list2 !!! l2 c) then
    Cursors (res c ++ [all_docs !!! l1 c]) (S (l1 c)) (l2 c)
  else
    Cursors (res c) (l1 c) (S (l2 c)).

Definition not_loop (all_docs ordered_list2 : list Z) : option cursors :=
  while (merge_guard all_docs ordered_list2)
        (not_body all_docs ordered_list2)
        (length all_docs + length ordered_list2) (Cursors [] 0 0).

Definition not_query (all_docs ordered_list2 : list Z) : list Z :=
  match not_loop all_docs ordered_list2 with
  | Some c => res c ++ slice_from all_docs (l1 c)
  | None => []
  end.

(** ** The merges as recursive functions on the unread suffixes

    What a merge loop computes from cursor positions [l1], [l2] depends
    only on the suffixes [ordered_list1[l1:]] and [ordered_list2[l2:]];
    these functions give that value by recursion on the two suffixes. *)

Fixpoint and_merge (A : list Z) : list Z → list Z :=
  fix and_merge_aux (B : list Z) : list Z :=
    match A, B with
    | x :: A', y :: B' =>
        if bool_decide (x = y) then x :: and_merge A' B'
        else if bool_decide (x < y) then and_merge A' B
        else and_merge_aux B'
    | _, _ => []
    end.

Fixpoint or_merge (A : list Z) : list Z → list Z :=
  fix or_merge_aux (B : list Z) : list Z :=
    match A, B with
    | x :: A', y :: B' =>
        if bool_decide (x = y) then x :: or_merge A' B'
        else if bool_decide (x < y) then x :: or_merge A' B
        else y :: or_merge_aux B'
    | [], _ => B
    | _, [] => A
    end.

Fixpoint not_merge (U : list Z) : list Z → list Z :=
  fix not_merge_aux (B : list Z) : list Z :=
    match U, B with
    | x :: U', y :: B' =>
        if bool_decide (x = y) then not_merge U' B'
        else if bool_decide (x < y) then x :: not_merge U' B
        else not_merge_aux B'
    | _, [] => U
    | [], _ => []
    end.

(** ** Strings: the [str] methods the program calls *)

Definition ord (c : ascii) : N := N_of_ascii c.

(** [c.isspace()] for a code point below 256. *)
Definition isspace (c : ascii) : bool :=
  let n := ord c in
  ((9 <=? n) && (n <=? 13) || (28 <=? n) && (n <=? 32) ||
   (n =? 133) || (n =? 160))%N.

(** [c.lower()] for a code point below 256: the letters A-Z and the
    capital letters of Latin-1 (192-222 but for the sign 215) move up by
    32; every other character stays. *)
Definition lower_char (c : ascii) : ascii :=
  let n := ord c in
  if ((65 <=? n) && (n <=? 90) ||
      (192 <=? n) && (n <=? 222) && negb (n =? 215))%N
  then ascii_of_N (n + 32) else c.

(** [s.lower()] *)
Fixpoint lower (s : string) : string :=
  match s with
  | EmptyString => EmptyString
  | String c s' => String (lower_char c) (lower s')
  end.

(** The pieces of [s] between the characters that satisfy [sep]; there is
    always at least one piece, and pieces can be empty. *)
Fixpoint split_at (sep : ascii → bool) (s : string) : list string :=
  match s with
  | EmptyString => [EmptyString]
  | String c s' =>
      if sep c then EmptyString :: split_at sep s'
      else match split_at sep s' with
           | piece :: pieces => String c piece :: pieces
           | [] => [String c EmptyString]
           end
  end.

(** [s.split(' ')] *)
Definition split_space (s : string) : list string :=
  split_at (λ c, bool_decide (c = " "%char)) s.

(** [s.split()]: the maximal runs of characters that are not whitespace. *)
Definition split (s : string) : list string :=
  filter (λ piece, piece ≠ EmptyString) (split_at isspace s).

(** [s.replace('\n', '')] *)
Fixpoint remove_newlines (s : string) : string :=
  match s with
  | EmptyString => EmptyString
  | String c s' =>
      if bool_decide (c = "010"%char) then remove_newlines s'
      else String c (remove_newlines s')
  end.

Fixpoint lstrip (s : string) : string :=
  match s with
  | EmptyString => EmptyString
  | String c s' => if isspace c then lstrip s' else s
  end.

(** [s.strip()] *)
Definition strip (s : string) : string :=
  String.rev (lstrip (String.rev (lstrip s))).

(** ** [sorted] and slices *)

Section sorted.
Context {A K : Type} (lt : K → K → bool) (key : A → K).

(** [x] goes in front of the first element whose key is not below its
    own, so that it stays in front of the elements with an equal key. *)
Fixpoint insert_by_key (x : A) (l : list A) : list A :=
  match l with
  | [] => [x]
  | y :: l' =>
      if lt (key y) (key x) then y :: insert_by_key x l' else x :: y :: l'
  end.

(** A stable ascending sort. *)
Definition sort_by_key (l : list A) : list A := foldr insert_by_key [] l.

(** [sorted(l, key=key, reverse=reverse)]; the sort is stable, also when
    reversed: the list is reversed, sorted, and reversed again. *)
Definition sorted (reverse : bool) (l : list A) : list A :=
  if reverse then List.rev (sort_by_key (List.rev l)) else sort_by_key l.
End sorted.

(** [l[:n]] for a Python integer [n]: a negative [n] counts from the end. *)
Definition slice_to {A} (l : list A) (n : Z) : list A :=
  if bool_decide (n < 0) then take (length l - Z.to_nat (- n)) l
  else take (Z.to_nat n) l.

(** ** Exceptions *)

Inductive exn := IndexError | KeyError.

Inductive outcome (A : Type) :=
  | Return (a : A)
  | Raise (e : exn).
Arguments Return {A} a.
Arguments Raise {A} e.

Global Instance outcome_ret : MRet outcome := λ _ a, Return a.
Global Instance outcome_bind : MBind outcome := λ _ _ f m,
  match m with
  | Return a => f a
  | Raise e => Raise e
  end.

(** ** class InvertedIndex *)

Record Document := { contents : string; internal_id : string }.

Record InvertedIndex := {
  documents : gmap Z Document;
  posting_list : gmap string (list Z)
}.

(** [d[k]] on a [defaultdict(list)]: a missing key is first inserted with
    the value [list()]. Returns the value and the dictionary afterwards. *)
Definition defaultdict_getitem (d : gmap string (list Z)) (k : string)
  : list Z * gmap string (list Z) :=
  match d !! k with
  | Some v => (v, d)
  | None => ([], <[k := []]> d)
  end.

(** [d[k].append(x)] on a [defaultdict(list)]. *)
Definition defaultdict_append (d : gmap string (list Z)) (k : string) (x : Z)
  : gmap string (list Z) :=
  let '(v, d') := defaultdict_getitem d k in <[k := v ++ [x]]> d'.

(** The body of the loop of [update_posting_list]:
    [if term: self.posting_list[term].append(doc_id)]. *)
Definition append_term (doc_id : Z) (self : InvertedIndex) (term : string)
  : InvertedIndex :=
  if bool_decide (term ≠ EmptyString) then
    {| documents := documents self;
       posting_list := defaultdict_append (posting_list self) term doc_id |}
  else self.

Definition update_posting_list (self : InvertedIndex) (document : string)
    (doc_id : Z) : InvertedIndex :=
  let terms := split document in
  foldl (append_term doc_id) self terms.

(** One round of the loop of [__init__]: [document] is the pair
    [(contents, internal_id)] that [extract_text_and_id] returns for the
    next document the iterators yield, [i] the counter. *)
Definition index_document (st : InvertedIndex * Z) (document : string * string)
  : InvertedIndex * Z :=
  let '(self, i) := st in
  let '(contents, internal_id) := document in
  let internal_id := strip internal_id in
  let self :=
    {| documents :=
         <[i := {| contents := contents; internal_id := internal_id |}]>
           (documents self);
       posting_list := posting_list self |} in
  let self := update_posting_list self contents i in
  (self, i + 1).

(** The sort key of [sort_posting_list], [(x, self.documents[x])];
    [None] when [self.documents[x]] raises a [KeyError]. *)
Definition id_key (self : InvertedIndex) (x : Z) : option (Z * Document) :=
  d ← documents self !! x; Some (x, d).

(** The order of two such keys. Tuples are compared at the first position
    where they differ, so keys with different integers are ordered by the
    integers; keys with the same integer carry the same document (both
    read it from [self.documents]), are equal, and neither is below the
    other. The documents themselves are never compared. *)
Definition id_key_lt (k1 k2 : Z * Document) : bool := bool_decide (k1.1 < k2.1).

Section construction.
(** [list(s)] for a set [s]: Python leaves the order in which a set is
    iterated open, [list_of_set] stands for that order. The order of the
    elements of a [gset], [elements], is one such choice. *)
Context (list_of_set : gset Z → list Z).

(** [sorted(list(set(doc_ids)), key=lambda x: (x, self.documents[x]))] *)
Definition sorted_doc_ids (self : InvertedIndex) (doc_ids : list Z)
  : option (list Z) :=
  let ids := list_of_set (list_to_set doc_ids) in
  keys ← mapM (id_key self) ids;
  Some (snd <$> sorted id_key_lt fst false (zip keys ids)).

(** [for term in self.posting_list: self.posting_list[term] = sorted(...)].
    The loop visits every key of the dictionary once and stores a new
    value at that key; [doc_ids] is the value it finds there. *)
Definition sort_posting_list (self : InvertedIndex) : outcome InvertedIndex :=
  map_fold
    (λ term doc_ids (acc : outcome InvertedIndex),
       self ← acc;
       match sorted_doc_ids self doc_ids with
       | Some ids =>
           Return {| documents := documents self;
                     posting_list := <[term := ids]> (posting_list self) |}
       | None => Raise KeyError
       end)
    (Return self) (posting_list self).

(** [InvertedIndex.__init__], from the sequence of the parsed documents
    in the order the collection yields them. *)
Definition InvertedIndex_init (parsed : list (string * string))
  : outcome InvertedIndex :=
  let self := {| documents := ∅; posting_list := ∅ |} in
  let i := 0 in
  let '(self, _) := foldl index_document (self, i) parsed in
  sort_posting_list self.
End construction.

(** [self.posting_list.get(term, [])] *)
Definition get_posting_list (self : InvertedIndex) (term : string) : list Z :=
  default [] (posting_list self !! term).

(** The order of the sort keys [(cardinality, term)] of
    [top_bottom_n_terms]: tuples compare by the first component, then by
    the second; strings compare by code points. *)
Definition freq_key_lt (k1 k2 : Z * string) : bool :=
  bool_decide (k1.1 < k2.1) ||
  bool_decide (k1.1 = k2.1) && String.ltb k1.2 k2.2.

Definition top_bottom_n_terms (self : InvertedIndex) (n : Z) (top : bool)
  : list (string * Z) :=
  let term_frequencies : gmap string Z :=
    (λ doc_ids : list Z, Z.of_nat (length doc_ids)) <$> posting_list self in
  let sorted_terms :=
    slice_to
      (sorted freq_key_lt
              (λ term_and_doc_freq : string * Z,
                 (term_and_doc_freq.2, term_and_doc_freq.1))
              top (map_to_list term_frequencies))
      n in
  sorted_terms.

(** ** class BooleanRetrieval *)

Record BooleanRetrieval := {
  inverted_index : InvertedIndex;
  all_docs : list Z
}.

(** [all_docs = [i for i in range(len(inverted_index.documents))]] *)
Definition BooleanRetrieval_init (inverted_index : InvertedIndex)
  : BooleanRetrieval :=
  {| inverted_index := inverted_index;
     all_docs := seqZ 0 (Z.of_nat (size (documents inverted_index))) |}.

Definition operators : list string := ["AND"; "OR"; "NOT"]%string.

(** The evaluation stack: the head of the list is the top of the stack,
    the last element of the Python list. [stack.append(v)] is [v :: stack]. *)
Definition pop (stack : list (list Z)) : outcome (list Z * list (list Z)) :=
  match stack with
  | [] => Raise IndexError
  | top :: stack' => Return (top, stack')
  end.

(** The body of [for word in query]. The posting lists on the stack are
    only read: every merge builds a new list. The dictionary changes when
    a term is looked up, since it is a [defaultdict]. *)
Definition eval_word (all_docs : list Z) (pl : gmap string (list Z))
    (stack : list (list Z)) (word : string)
  : gmap string (list Z) * outcome (list (list Z)) :=
  if bool_decide (word ∉ operators) then
    let '(v, pl') := defaultdict_getitem pl (lower word) in
    (pl', Return (v :: stack))
  else if bool_decide (word = "AND"%string) then
    (pl, '(list2, stack) ← pop stack;
         '(list1, stack) ← pop stack;
         Return (and_query list1 list2 :: stack))
  else if bool_decide (word = "OR"%string) then
    (pl, '(list2, stack) ← pop stack;
         '(list1, stack) ← pop stack;
         Return (or_query list1 list2 :: stack))
  else if bool_decide (word = "NOT"%string) then
    (pl, '(list1, stack) ← pop stack;
         Return (not_query all_docs list1 :: stack))
  else (pl, Return stack).

Fixpoint eval_words (all_docs : list Z) (pl : gmap string (list Z))
    (stack : list (list Z)) (query : list string)
  : gmap string (list Z) * outcome (list (list Z)) :=
  match query with
  | [] => (pl, Return stack)
  | word :: query' =>
      match eval_word all_docs pl stack word with
      | (pl', Return stack') => eval_words all_docs pl' stack' query'
      | (pl', Raise e) => (pl', Raise e)
      end
  end.

(** The statements after the loop: the implicit AND of two left-over
    values, then [return stack.pop()]. *)
Definition eval_finish (stack : list (list Z)) : outcome (list Z) :=
  stack ← (if bool_decide (length stack = 2%nat) then
             '(list2, stack) ← pop stack;
             '(list1, stack) ← pop stack;
             Return (and_query list1 list2 :: stack)
           else Return stack);
  '(top, _) ← pop stack;
  Return top.

(** The tokens of a query: [query.replace('\n', '').split(' ')]. *)
Definition query_words (query : string) : list string :=
  split_space (remove_newlines query).

(** [eval_boolean_query]: the object afterwards, and the result. The
    index inside the object is the one the caller holds, so what the
    evaluation stores in [posting_list] is what [top_bottom_n_terms] and
    later queries see. *)
Definition eval_boolean_query (self : BooleanRetrieval) (query : string)
  : BooleanRetrieval * outcome (list Z) :=
  let stack := [] in
  let query := query_words query in
  let '(pl, r) :=
    eval_words (all_docs self) (posting_list (inverted_index self)) stack query in
  ({| inverted_index :=
        {| documents := documents (inverted_index self); posting_list := pl |};
      all_docs := all_docs self |},
   stack ← r; eval_finish stack).

(** [run_query]: [self.inverted_index.documents[_id]["internal_id"]] for
    every [_id] of the result; a missing [_id] raises a [KeyError]. *)
Definition run_query (self : BooleanRetrieval) (query : string)
  : BooleanRetrieval * outcome (list string) :=
  let '(self', r) := eval_boolean_query self query in
  (self',
   ids ← r;
   match mapM (λ _id, internal_id <$> documents (inverted_index self') !! _id) ids with
   | Some names => Return names
   | None => Raise KeyError
   end).

(** ** Notions the properties are stated with *)

(** A list of integers is strictly ascending: every element is below the
    next one. *)
Definition strictly_ascending (l : list Z) : Prop := Sorted Z.lt l.

(** The entry of [self.documents] for a parsed document. *)
Definition document_of (d : string * string) : Document :=
  {| contents := d.1; internal_id := strip d.2 |}.

(** The term [term] is one of the tokens of the document that is at
    position [x] of the sequence [parsed], counting from 0. *)
Definition occurs (parsed : list (string * string)) (term : string) (x : Z)
  : Prop :=
  ∃ (j : nat) d, x = Z.of_nat j ∧ parsed !! j = Some d ∧ term ∈ split d.1.

(** The order of the integers, as a boolean. *)
Definition Z_lt (a b : Z) : bool := bool_decide (a < b).

(** In an ascending sort by [key], [a] may stand in front of [b]. *)
Definition not_after {A K} (lt : K → K → bool) (key : A → K) (a b : A) : Prop :=
  lt (key b) (key a) = false.

(** The pairs (term, cardinality) of an index. *)
Definition cardinalities (self : InvertedIndex) : gmap string Z :=
  (λ doc_ids : list Z, Z.of_nat (length doc_ids)) <$> posting_list self.

(** The sort key of a pair (term, cardinality). *)
Definition freq_key (p : string * Z) : Z * string := (p.2, p.1).

(** The pair [p] is ahead of the pair [q] in the ranking: its key
    (cardinality, term) is above that of [q] when [top] is set, and below
    it otherwise. *)
Definition ranked_before (top : bool) (p q : string * Z) : Prop :=
  if top then freq_key_lt (freq_key q) (freq_key p) = true
  else freq_key_lt (freq_key p) (freq_key q) = true.

(** An order in which sets can be iterated: every element of the set,
    once. *)
Definition set_order (list_of_set : gset Z → list Z) : Prop :=
  ∀ s, list_of_set s ≡ₚ elements s.

(** The number of times [z] occurs in [l]. *)
Definition occurrences (z : Z) (l : list Z) : nat := count_occ Z.eq_dec l z.

(** The universe of [N] documents, [0, 1, ..., N-1]. *)
Definition universe (N : nat) : list Z := seqZ 0 (Z.of_nat N).

Fixpoint contains (c : ascii) (s : string) : bool :=
  match s with
  | EmptyString => false
  | String c' s' => bool_decide (c' = c) || contains c s'
  end.

(** A term token of a query: a string without a space or a newline that
    is not one of the three operators. *)
Definition term_token (t : string) : Prop :=
  contains " " t = false ∧ contains "010" t = false ∧ t ∉ operators.

(** The number of operands a token pops; [None] for a term. *)
Definition operands (word : string) : option nat :=
  if bool_decide (word = "AND"%string ∨ word = "OR"%string) then Some 2%nat
  else if bool_decide (word = "NOT"%string) then Some 1%nat
  else None.

(** The size of the stack after the tokens [query], from size [depth];
    [None] when an operator finds fewer values than it pops. *)
Fixpoint stack_depth (query : list string) (depth : nat) : option nat :=
  match query with
  | [] => Some depth
  | word :: query' =>
      match operands word with
      | None => stack_depth query' (S depth)
      | Some k =>
          if bool_decide (k ≤ depth)%nat
          then stack_depth query' (S (depth - k)) else None
      end
  end.

Definition final_stack_size (query : string) : option nat :=
  stack_depth (query_words query) 0.

Definition underflow (query : string) : Prop := final_stack_size query = None.

(** A malformed query in the words of the specification: an underflow, or
    a final stack size other than 1 and 2. *)
Definition malformed_query (query : string) : Prop :=
  underflow query ∨
  ∃ n, final_stack_size query = Some n ∧ n ≠ 1%nat ∧ n ≠ 2%nat.

Definition raises {A} (r : outcome A) : Prop := ∃ e, r = Raise e.

(** The index of the three documents "cat dog", "dog bird", "cat bird". *)
Definition example_parsed : list (string * string) :=
  [("cat dog", "D1"); ("dog bird", "D2"); ("cat bird", "D3")]%string.

Definition example_index : InvertedIndex :=
  {| documents :=
       list_to_map
         [(0, {| contents := "cat dog"; internal_id := "D1" |});
          (1, {| contents := "dog bird"; internal_id := "D2" |});
          (2, {| contents := "cat bird"; internal_id := "D3" |})];
     posting_list :=
       list_to_map
         [("cat", [0; 2]); ("dog", [0; 1]); ("bird", [1; 2])]%string |}.

(** ** Reading the collection: [TrecTextIterator], [extract_text_and_id]
    and [__init__] from the texts of the files *)

(** [pieces[0] = c + pieces[0]] *)
Definition prepend (c : ascii) (pieces : list string) : list string :=
  match pieces with
  | piece :: pieces' => String c piece :: pieces'
  | [] => [String c EmptyString]
  end.

(** [s.split(sep)] for a separator [sep] that is not empty: the pieces of
    [s] between the occurrences of [sep], which are found from the left and
    do not overlap. [skip] is the number of characters of the occurrence
    just found that are still ahead. *)
Fixpoint split_str_from (sep : string) (skip : nat) (s : string) : list string :=
  match s with
  | EmptyString => [EmptyString]
  | String c s' =>
      match skip with
      | S skip' => split_str_from sep skip' s'
      | O =>
          if String.prefix sep s
          then EmptyString :: split_str_from sep (String.length sep - 1) s'
          else prepend c (split_str_from sep 0 s')
      end
  end.

Definition split_str (sep s : string) : list string := split_str_from sep 0 s.

(** [s.replace(old, new)] for an [old] that is not empty: the occurrences
    of [old] are found from the left and do not overlap. *)
Fixpoint replace_from (old new : string) (skip : nat) (s : string) : string :=
  match s with
  | EmptyString => EmptyString
  | String c s' =>
      match skip with
      | S skip' => replace_from old new skip' s'
      | O =>
          if String.prefix old s
          then new +:+ replace_from old new (String.length old - 1) s'
          else String c (replace_from old new 0 s')
      end
  end.

Definition replace (old new s : string) : string := replace_from old new 0 s.

(** [sep.join(pieces)] *)
Definition join (sep : string) (pieces : list string) : string :=
  String.concat sep pieces.

(** The result of a statement that can raise the [ValueError] of an
    unpacking [a, b = values] with another number of values than two. *)
Inductive unpacking (A : Type) :=
  | Unpacked (a : A)
  | ValueError.
Arguments Unpacked {A} a.
Arguments ValueError {A}.

Global Instance unpacking_ret : MRet unpacking := λ _ a, Unpacked a.
Global Instance unpacking_bind : MBind unpacking := λ _ _ f m,
  match m with
  | Unpacked a => f a
  | ValueError => ValueError
  end.

(** [extract_text_and_id]: the pair [(contents, internal_id)]. The
    separator of the first [split] is the string of the one character
    newline. *)
Definition extract_text_and_id (doc : string) : unpacking (string * string) :=
  let doc := join " " (split_str (String "010" EmptyString) doc) in
  match split_str "</DOCNO>" doc with
  | [internal_id; contents] =>
      let contents :=
        replace "</TEXT>" ""
          (replace "<TEXT>" ""
             (replace "</DOC>" "" (replace "<DOC>" "" contents))) in
      Unpacked (contents, internal_id)
  | _ => ValueError
  end.

(** class TrecTextIterator *)
Record TrecTextIterator := {
  trectext : string;
  doc_start : string;
  doc_blocks : list string;
  current_doc : option string
}.

(** [TrecTextIterator.__init__]; [split(...)[1:]] is the tail of the
    pieces, [current_doc = None]. *)
Definition TrecTextIterator_init (trectext : string) : TrecTextIterator :=
  let doc_start := "<DOCNO>"%string in
  {| trectext := trectext;
     doc_start := doc_start;
     doc_blocks := drop 1 (split_str doc_start trectext);
     current_doc := None |}.

(** [TrecTextIterator.__next__]: the document and the iterator afterwards;
    [None] for [StopIteration]. *)
Definition TrecTextIterator_next (self : TrecTextIterator)
  : option (string * TrecTextIterator) :=
  if bool_decide (0 < length (doc_blocks self))%nat then
    match doc_blocks self with
    | doc :: _ =>
        Some (doc,
              {| trectext := trectext self;
                 doc_start := doc_start self;
                 doc_blocks := drop 1 (doc_blocks self);
                 current_doc := Some doc |})
    | [] => None
    end
  else None.

(** The documents that [for document in iterator] goes through: [__next__]
    is called until it raises [StopIteration], here at most [fuel] + 1
    times. The iterator after the calls comes with them. *)
Fixpoint iterate (fuel : nat) (it : TrecTextIterator)
  : list string * TrecTextIterator :=
  match TrecTextIterator_next it with
  | None => ([], it)
  | Some (doc, it') =>
      match fuel with
      | O => ([], it')
      | S fuel' => let '(docs, it'') := iterate fuel' it' in (doc :: docs, it'')
      end
  end.

(** The inner loop of [__init__], [for document in self.TrecTextIterator(text)].
    The iterator holds [len(doc_blocks)] documents, which bounds the number
    of rounds. *)
Definition index_text (st : InvertedIndex * Z) (text : string)
  : unpacking (InvertedIndex * Z) :=
  let it := TrecTextIterator_init text in
  foldl (λ acc document,
           st ← acc;
           d ← extract_text_and_id document;
           Unpacked (index_document st d))
        (Unpacked st) (iterate (length (doc_blocks it)) it).1.

(** [InvertedIndex.__init__] from [Texts = self.parse_text(collection_path)],
    the contents of the files of the collection in the order of
    [os.listdir]. *)
Definition InvertedIndex_from_texts (list_of_set : gset Z → list Z)
    (Texts : list string) : unpacking (outcome InvertedIndex) :=
  let self := {| documents := ∅; posting_list := ∅ |} in
  let i := 0 in
  st ← foldl (λ acc text, st ← acc; index_text st text) (Unpacked (self, i)) Texts;
  Unpacked (sort_posting_list list_of_set st.1).

(** ** Further notions *)

(** A posting list of an index of [N] documents: strictly ascending IDs
    among 0, ..., N-1. *)
Definition valid_ids (N : nat) (ids : list Z) : Prop :=
  strictly_ascending ids ∧ ∀ x, x ∈ ids → 0 ≤ x < Z.of_nat N.

(** A retrieval object over [N] documents whose posting lists are all
    valid, as [BooleanRetrieval_init] makes it from a built index. *)
Definition valid_retrieval (N : nat) (self : BooleanRetrieval) : Prop :=
  all_docs self = universe N ∧
  ∀ term ids, posting_list (inverted_index self) !! term = Some ids →
              valid_ids N ids.

(** The original identifier of the document at position [x] of the
    sequence [parsed]. *)
Definition original_id (parsed : list (string * string)) (x : Z) : string :=
  default EmptyString (internal_id ∘ document_of <$> parsed !! Z.to_nat x).

(** The IDs of the documents of [parsed] that have the token [term], in
    the order of the documents. *)
Definition containing (parsed : list (string * string)) (term : string)
  : list Z :=
  (filter (λ p : Z * (string * string), term ∈ split p.2.1)
          (zip (universe (length parsed)) parsed)).*1.

(** The number of times [term] is a token of [document]. *)
Definition token_count (term document : string) : nat :=
  length (filter (λ t, t = term) (split document)).

(** The index without the terms that [lower] changes: those that have a
    capital letter. *)
Definition lowercase_terms (self : InvertedIndex) : InvertedIndex :=
  {| documents := documents self;
     posting_list :=
       filter (λ kv : string * list Z, lower kv.1 = kv.1) (posting_list self) |}.

(** The set of the documents of a term. *)
Definition posting_set (self : InvertedIndex) (term : string) : gset Z :=
  list_to_set (get_posting_list self term).

(** A postfix query read as an expression on sets of documents, with the
    stack discipline of [eval_boolean_query]: a term is its set of
    documents, AND is the intersection, OR the union, NOT the complement
    in [U]; [None] when an operator lacks an operand. *)
Definition set_word (U : gset Z) (P : string → gset Z)
    (stack : list (gset Z)) (word : string) : option (list (gset Z)) :=
  match operands word, stack with
  | None, _ => Some (P (lower word) :: stack)
  | Some 1%nat, s1 :: stack' => Some (U ∖ s1 :: stack')
  | Some _, s2 :: s1 :: stack' =>
      if bool_decide (word = "AND"%string) then Some (s1 ∩ s2 :: stack')
      else Some (s1 ∪ s2 :: stack')
  | Some _, _ => None
  end.

Fixpoint set_words (U : gset Z) (P : string → gset Z)
    (stack : list (gset Z)) (query : list string) : option (list (gset Z)) :=
  match query with
  | [] => Some stack
  | word :: query' =>
      stack' ← set_word U P stack word; set_words U P stack' query'
  end.

(** The set a query stands for: after the tokens, two sets left on the
    stack are intersected, and otherwise the set on top is the result. *)
Definition set_query (U : gset Z) (P : string → gset Z) (query : string)
  : option (gset Z) :=
  stack ← set_words U P [] (query_words query);
  match stack with
  | [] => None
  | [s2; s1] => Some (s1 ∩ s2)
  | top :: _ => Some top
  end.

(** ** Notions for the collection files *)

(** [a + pieces[0]] in front of the other pieces. *)
Definition prepend_str (a : string) (pieces : list string) : list string :=
  match pieces with
  | piece :: pieces' => (a +:+ piece) :: pieces'
  | [] => [a]
  end.

(** [sep] occurs in [s]. *)
Fixpoint occurs_in (sep s : string) : bool :=
  String.prefix sep s ||
  match s with
  | EmptyString => false
  | String _ s' => occurs_in sep s'
  end.

(** [sep] and [u] differ at a position that both have: whatever follows
    [u], [sep] does not start there. *)
Fixpoint clash (sep u : string) : bool :=
  match sep, u with
  | String a sep', String b u' => if bool_decide (a = b) then clash sep' u' else true
  | _, _ => false
  end.

(** No occurrence of [sep] starts within [s], whatever follows [s]. *)
Fixpoint clear_of (sep s : string) : bool :=
  match s with
  | EmptyString => true
  | String _ s' => clash sep s && clear_of sep s'
  end.

(** [s] with a space for every newline. *)
Fixpoint spaced (s : string) : string :=
  match s with
  | EmptyString => EmptyString
  | String c s' =>
      String (if bool_decide (c = "010"%char) then " "%char else c) (spaced s')
  end.

(** [f] on every element, with the [ValueError] of the first that raises. *)
Fixpoint unpack_all {A B} (f : A → unpacking B) (l : list A) : unpacking (list B) :=
  match l with
  | [] => Unpacked []
  | x :: l' => y ← f x; ys ← unpack_all f l'; Unpacked (y :: ys)
  end.

Definition newline : string := String "010" EmptyString.

(** A document [(contents, identifier)] in the format of the collection
    from its identifier on, followed by [rest]; the whole document; and a
    file of such documents. *)
Definition trec_body (d : string * string) (rest : string) : string :=
  d.2 +:+ "</DOCNO>" +:+ newline +:+ "<TEXT>" +:+ newline +:+
  d.1 +:+ newline +:+ "</TEXT>" +:+ newline +:+ "</DOC>" +:+ newline +:+ rest.

Definition trec_document (d : string * string) (rest : string) : string :=
  "<DOC>" +:+ newline +:+ "<DOCNO>" +:+ trec_body d rest.

Definition trec_text (docs : list (string * string)) : string :=
  foldr trec_document EmptyString docs.

(** What precedes the first marker <DOCNO> in a file of documents. *)
Definition trec_preamble (docs : list (string * string)) : string :=
  if docs is [] then EmptyString else "<DOC>" +:+ newline +:+ EmptyString.

(** The blocks of a file of documents: each document from its identifier
    on, with the opening of the next document, if there is one. *)
Fixpoint trec_blocks (docs : list (string * string)) : list string :=
  match docs with
  | [] => []
  | d :: docs' => trec_body d (trec_preamble docs') :: trec_blocks docs'
  end.

(** A document without the character <, which starts every tag. *)
Definition tag_free (d : string * string) : Prop :=
  contains "<" d.1 = false ∧ contains "<" d.2 = false.

(** * Properties *)

(** ** The program on small inputs *)

Example and_query_example : and_query [1; 3; 5; 7] [2; 3; 4; 7; 9] = [3; 7].
Proof. reflexivity. Qed.

Example or_query_example :
  or_query [1; 3; 5; 7] [2; 3; 4; 7; 9] = [1; 2; 3; 4; 5; 7; 9].
Proof. reflexivity. Qed.

Example not_query_example : not_query [0; 1; 2; 3; 4] [1; 3] = [0; 2; 4].
Proof. reflexivity. Qed.

Example query_words_example :
  query_words "cat  dog AND
" = ["cat"; ""; "dog"; "AND"]%string.
Proof. reflexivity. Qed.

Example split_example : split "  cat   dog
 bird " = ["cat"; "dog"; "bird"]%string.
Proof. reflexivity. Qed.

Example InvertedIndex_init_example :
  InvertedIndex_init elements example_parsed = Return example_index.
Proof. vm_compute. reflexivity. Qed.

Example run_query_and_example :
  (run_query (BooleanRetrieval_init example_index) "cat dog AND").2
    = Return ["D1"%string].
Proof. vm_compute. reflexivity. Qed.

Example run_query_or_example :
  (run_query (BooleanRetrieval_init example_index) "cat bird OR").2
    = Return ["D1"; "D2"; "D3"]%string.
Proof. vm_compute. reflexivity. Qed.

Example run_query_not_example :
  (run_query (BooleanRetrieval_init example_index) "dog NOT").2
    = Return ["D3"%string].
Proof. vm_compute. reflexivity. Qed.

Example run_query_underflow_example :
  (run_query (BooleanRetrieval_init example_index) "cat AND").2
    = Raise IndexError.
Proof. vm_compute. reflexivity. Qed.

(** ** The merge loops terminate, and compute the recursive merges *)

Lemma strictly_ascending_strongly l :
  strictly_ascending l ↔ StronglySorted Z.lt l.
Proof.
  split.
  - apply Sorted_StronglySorted. intros x y z; lia.
  - apply StronglySorted_Sorted.
Qed.

Lemma and_merge_cons x A y B :
  and_merge (x :: A) (y :: B) =
    if bool_decide (x = y) then x :: and_merge A B
    else if bool_decide (x < y) then and_merge A (y :: B)
    else and_merge (x :: A) B.
Proof. reflexivity. Qed.

Lemma or_merge_cons x A y B :
  or_merge (x :: A) (y :: B) =
    if bool_decide (x = y) then x :: or_merge A B
    else if bool_decide (x < y) then x :: or_merge A (y :: B)
    else y :: or_merge (x :: A) B.
Proof. reflexivity. Qed.

Lemma not_merge_cons x U y B :
  not_merge (x :: U) (y :: B) =
    if bool_decide (x = y) then not_merge U B
    else if bool_decide (x < y) then x :: not_merge U (y :: B)
    else not_merge (x :: U) B.
Proof. reflexivity. Qed.

Lemma and_merge_nil_l B : and_merge [] B = [].
Proof. by destruct B. Qed.
Lemma or_merge_nil_l B : or_merge [] B = B.
Proof. by destruct B. Qed.
Lemma not_merge_nil_l B : not_merge [] B = [].
Proof. by destruct B. Qed.
Lemma and_merge_nil_r A : and_merge A [] = [].
Proof. by destruct A. Qed.
Lemma or_merge_nil_r A : or_merge A [] = A.
Proof. by destruct A. Qed.
Lemma not_merge_nil_r U : not_merge U [] = U.
Proof. by destruct U. Qed.

(** Reading position [i] of a list under the loop guard. *)
Lemma drop_at_cursor (l : list Z) i :
  (i < length l)%nat → drop i l = l !!! i :: drop (S i) l.
Proof.
  intros Hi. destruct (lookup_lt_is_Some_2 l i Hi) as [x Hx].
  rewrite (list_lookup_total_correct _ _ _ Hx). by apply drop_S.
Qed.

Lemma merge_guard_true A B c :
  merge_guard A B c = true → (l1 c < length A)%nat ∧ (l2 c < length B)%nat.
Proof.
  unfold merge_guard. rewrite andb_true_iff, !bool_decide_eq_true. tauto.
Qed.

Lemma merge_guard_false A B c :
  merge_guard A B c = false → drop (l1 c) A = [] ∨ drop (l2 c) B = [].
Proof.
  unfold merge_guard. rewrite andb_false_iff, !bool_decide_eq_false.
  intros [H|H]; [left|right]; apply drop_ge; lia.
Qed.

Ltac merge_step A B c :=
  let Hg := fresh "Hg" in
  destruct (merge_guard A B c) eqn:Hg;
  [ apply merge_guard_true in Hg as [? ?];
    rewrite (drop_at_cursor A (l1 c)), (drop_at_cursor B (l2 c)) by done
  | apply merge_guard_false in Hg as [Hg|Hg]; rewrite Hg ].

Lemma and_while A B fuel c :
  (length A - l1 c + (length B - l2 c) ≤ fuel)%nat →
  ∃ c', while (merge_guard A B) (and_body A B) fuel c = Some c' ∧
        res c' = res c ++ and_merge (drop (l1 c) A) (drop (l2 c) B).
Proof.
  revert c. induction fuel as [|fuel IH]; intros c Hfuel; simpl.
  - merge_step A B c; [lia| |]; eexists; (split; [done|]).
    + by rewrite and_merge_nil_l, app_nil_r.
    + by rewrite and_merge_nil_r, app_nil_r.
  - merge_step A B c.
    + rewrite and_merge_cons. unfold and_body.
      repeat case_bool_decide;
        (edestruct IH as (c' & -> & Hres); [simpl; lia|];
         exists c'; split; [done|]; rewrite Hres; cbn [res l1 l2]);
        rewrite <-?(drop_at_cursor A), <-?(drop_at_cursor B) by done;
        by rewrite <-?app_assoc.
    + eexists; split; [done|]. by rewrite and_merge_nil_l, app_nil_r.
    + eexists; split; [done|]. by rewrite and_merge_nil_r, app_nil_r.
Qed.

Lemma or_while A B fuel c :
  (length A - l1 c + (length B - l2 c) ≤ fuel)%nat →
  ∃ c', while (merge_guard A B) (or_body A B) fuel c = Some c' ∧
        res c' ++ drop (l1 c') A ++ drop (l2 c') B =
          res c ++ or_merge (drop (l1 c) A) (drop (l2 c) B).
Proof.
  revert c. induction fuel as [|fuel IH]; intros c Hfuel; simpl.
  - merge_step A B c; [lia| |]; eexists; (split; [done|]).
    + by rewrite Hg, or_merge_nil_l.
    + by rewrite Hg, or_merge_nil_r, app_nil_r.
  - merge_step A B c.
    + rewrite or_merge_cons. unfold or_body.
      repeat case_bool_decide;
        (edestruct IH as (c' & -> & Hres); [simpl; lia|];
         exists c'; split; [done|]; rewrite Hres; cbn [res l1 l2]);
        rewrite <-?(drop_at_cursor A), <-?(drop_at_cursor B) by done;
        by rewrite <-?app_assoc.
    + eexists; split; [done|]. by rewrite Hg, or_merge_nil_l.
    + eexists; split; [done|]. by rewrite Hg, or_merge_nil_r, app_nil_r.
Qed.

Lemma not_while U B fuel c :
  (length U - l1 c + (length B - l2 c) ≤ fuel)%nat →
  ∃ c', while (merge_guard U B) (not_body U B) fuel c = Some c' ∧
        res c' ++ drop (l1 c') U =
          res c ++ not_merge (drop (l1 c) U) (drop (l2 c) B).
Proof.
  revert c. induction fuel as [|fuel IH]; intros c Hfuel; simpl.
  - merge_step U B c; [lia| |]; eexists; (split; [done|]).
    + by rewrite Hg, not_merge_nil_l.
    + by rewrite not_merge_nil_r.
  - merge_step U B c.
    + rewrite not_merge_cons. unfold not_body.
      repeat case_bool_decide;
        (edestruct IH as (c' & -> & Hres); [simpl; lia|];
         exists c'; split; [done|]; rewrite Hres; cbn [res l1 l2]);
        rewrite <-?(drop_at_cursor U), <-?(drop_at_cursor B) by done;
        by rewrite <-?app_assoc.
    + eexists; split; [done|]. by rewrite Hg, not_merge_nil_l.
    + eexists; split; [done|]. by rewrite not_merge_nil_r.
Qed.

(** The loops never run out of fuel. *)
Lemma and_loop_terminates A B : is_Some (and_loop A B).
Proof.
  destruct (and_while A B (length A + length B) (Cursors [] 0 0))
    as (c & Hc & _); [simpl; lia|]. by exists c.
Qed.
Lemma or_loop_terminates A B : is_Some (or_loop A B).
Proof.
  destruct (or_while A B (length A + length B) (Cursors [] 0 0))
    as (c & Hc & _); [simpl; lia|]. by exists c.
Qed.
Lemma not_loop_terminates U B : is_Some (not_loop U B).
Proof.
  destruct (not_while U B (length U + length B) (Cursors [] 0 0))
    as (c & Hc & _); [simpl; lia|]. by exists c.
Qed.

Lemma and_query_merge A B : and_query A B = and_merge A B.
Proof.
  unfold and_query, and_loop.
  destruct (and_while A B (length A + length B) (Cursors [] 0 0))
    as (c & -> & ->); [simpl; lia|]. done.
Qed.
Lemma or_query_merge A B : or_query A B = or_merge A B.
Proof.
  unfold or_query, or_loop, slice_from.
  destruct (or_while A B (length A + length B) (Cursors [] 0 0))
    as (c & -> & ->); [simpl; lia|]. done.
Qed.
Lemma not_query_merge U B : not_query U B = not_merge U B.
Proof.
  unfold not_query, not_loop, slice_from.
  destruct (not_while U B (length U + length B) (Cursors [] 0 0))
    as (c & -> & ->); [simpl; lia|]. done.
Qed.

(** ** Strictly ascending lists *)

Lemma strictly_ascending_cons x l :
  StronglySorted Z.lt (x :: l) ↔ (∀ y, y ∈ l → x < y) ∧ StronglySorted Z.lt l.
Proof. by rewrite StronglySorted_cons, Forall_forall. Qed.

Lemma strictly_ascending_NoDup l : StronglySorted Z.lt l → NoDup l.
Proof.
  induction 1 as [|x l _ IH Hx]; constructor; [|done].
  rewrite Forall_forall in Hx. intros Hin. specialize (Hx _ Hin). lia.
Qed.

Lemma strictly_ascending_sublist l k :
  l `sublist_of` k → StronglySorted Z.lt k → StronglySorted Z.lt l.
Proof.
  induction 1 as [|x l k Hsub IH|x l k Hsub IH];
    rewrite ?strictly_ascending_cons; [done| |]; intros [Hx Hk].
  - split; [|by auto]. intros y Hy. apply Hx. by eapply elem_of_sublist.
  - auto.
Qed.

(** Two strictly ascending lists with the same elements are the same list. *)
Lemma strictly_ascending_ext l k :
  StronglySorted Z.lt l → StronglySorted Z.lt k →
  (∀ x, x ∈ l ↔ x ∈ k) → l = k.
Proof.
  intros Hl Hk Hext.
  apply (StronglySorted_unique_strong Z.lt); [intros; lia|done..|].
  apply NoDup_Permutation; auto using strictly_ascending_NoDup.
Qed.

(** ** The AND merge *)

Lemma and_merge_sublist_l A B : and_merge A B `sublist_of` A.
Proof.
  revert B. induction A as [|x A IHA]; intros B; [by rewrite and_merge_nil_l|].
  induction B as [|y B IHB]; [apply sublist_nil_l|].
  rewrite and_merge_cons. repeat case_bool_decide.
  - by apply sublist_skip.
  - by apply sublist_cons.
  - done.
Qed.

Lemma and_merge_sublist_r A B : and_merge A B `sublist_of` B.
Proof.
  revert B. induction A as [|x A IHA]; intros B;
    [rewrite and_merge_nil_l; apply sublist_nil_l|].
  induction B as [|y B IHB]; [done|].
  rewrite and_merge_cons. repeat case_bool_decide; subst.
  - by apply sublist_skip.
  - done.
  - by apply sublist_cons.
Qed.

Lemma and_merge_diag A : and_merge A A = A.
Proof.
  induction A as [|x A IH]; [done|].
  rewrite and_merge_cons, bool_decide_eq_true_2 by done. by rewrite IH.
Qed.

Lemma and_merge_comm A B : and_merge A B = and_merge B A.
Proof.
  revert B. induction A as [|x A IHA]; intros B;
    [by rewrite and_merge_nil_l, and_merge_nil_r|].
  induction B as [|y B IHB]; [done|].
  rewrite !and_merge_cons.
  repeat case_bool_decide; subst; try lia; try done.
  by rewrite IHA.
Qed.

Lemma elem_of_and_merge A B z :
  StronglySorted Z.lt A → StronglySorted Z.lt B →
  z ∈ and_merge A B ↔ z ∈ A ∧ z ∈ B.
Proof.
  revert B. induction A as [|x A IHA]; intros B HA HB.
  { rewrite and_merge_nil_l. set_solver. }
  induction B as [|y B IHB]; [set_solver|].
  pose proof HA as [HxA HA']%strictly_ascending_cons.
  pose proof HB as [HyB HB']%strictly_ascending_cons.
  rewrite and_merge_cons. repeat case_bool_decide; subst.
  - rewrite !elem_of_cons, IHA by done. naive_solver.
  - rewrite IHA by done. rewrite !elem_of_cons.
    split; [naive_solver|]. intros [[->|?] [->|Hz]]; try lia; auto.
    apply HyB in Hz. lia.
  - rewrite IHB by done. rewrite !elem_of_cons.
    split; [naive_solver|]. intros [[->|Hz] [->|?]]; try lia; auto.
    apply HxA in Hz. lia.
Qed.

(** ** The OR merge *)

Lemma elem_of_or_merge A B z : z ∈ or_merge A B ↔ z ∈ A ∨ z ∈ B.
Proof.
  revert B. induction A as [|x A IHA]; intros B.
  { rewrite or_merge_nil_l. set_solver. }
  induction B as [|y B IHB]; [set_solver|].
  rewrite or_merge_cons. repeat case_bool_decide; subst.
  - rewrite !elem_of_cons, IHA. naive_solver.
  - rewrite !elem_of_cons, IHA, elem_of_cons. naive_solver.
  - rewrite !elem_of_cons, IHB, elem_of_cons. naive_solver.
Qed.

Lemma or_merge_ascending A B :
  StronglySorted Z.lt A → StronglySorted Z.lt B →
  StronglySorted Z.lt (or_merge A B).
Proof.
  revert B. induction A as [|x A IHA]; intros B HA HB;
    [by rewrite or_merge_nil_l|].
  induction B as [|y B IHB]; [done|].
  pose proof HA as [HxA HA']%strictly_ascending_cons.
  pose proof HB as [HyB HB']%strictly_ascending_cons.
  rewrite or_merge_cons. repeat case_bool_decide; subst;
    apply strictly_ascending_cons; (split; [|by auto]);
    intros z; rewrite elem_of_or_merge, ?elem_of_cons.
  - naive_solver.
  - intros [?|[->|Hz]]; [by auto|lia|]. apply HyB in Hz. lia.
  - intros [[->|Hz]|?]; [lia| |by auto]. apply HxA in Hz. lia.
Qed.

Lemma or_merge_length A B :
  (length (or_merge A B) ≤ length A + length B)%nat.
Proof.
  revert B. induction A as [|x A IHA]; intros B;
    [by rewrite or_merge_nil_l|].
  induction B as [|y B IHB]; [simpl; lia|].
  rewrite or_merge_cons. repeat case_bool_decide; simpl in *.
  - specialize (IHA B). lia.
  - specialize (IHA (y :: B)). simpl in IHA. lia.
  - lia.
Qed.

Lemma or_merge_diag A : or_merge A A = A.
Proof.
  induction A as [|x A IH]; [done|].
  rewrite or_merge_cons, bool_decide_eq_true_2 by done. by rewrite IH.
Qed.

(** ** The NOT merge *)

Lemma not_merge_sublist U B : not_merge U B `sublist_of` U.
Proof.
  revert B. induction U as [|x U IHU]; intros B; [by rewrite not_merge_nil_l|].
  induction B as [|y B IHB]; [done|].
  rewrite not_merge_cons. repeat case_bool_decide.
  - by apply sublist_cons.
  - by apply sublist_skip.
  - done.
Qed.

Lemma elem_of_not_merge U B z :
  StronglySorted Z.lt U → StronglySorted Z.lt B →
  z ∈ not_merge U B ↔ z ∈ U ∧ z ∉ B.
Proof.
  revert B. induction U as [|x U IHU]; intros B HU HB.
  { rewrite not_merge_nil_l. set_solver. }
  induction B as [|y B IHB]; [set_solver|].
  pose proof HU as [HxU HU']%strictly_ascending_cons.
  pose proof HB as [HyB HB']%strictly_ascending_cons.
  rewrite not_merge_cons. repeat case_bool_decide; subst.
  - rewrite IHU by done. rewrite !elem_of_cons.
    split; [|naive_solver]. intros [Hz ?]. specialize (HxU _ Hz).
    split; [by right|]. intros [->|?]; [lia|done].
  - rewrite elem_of_cons, IHU by done. rewrite !elem_of_cons.
    split; [|naive_solver]. intros [->|[? ?]]; [|naive_solver].
    split; [by left|]. intros [->|Hz]; [lia|]. apply HyB in Hz. lia.
  - rewrite IHB by done. rewrite !elem_of_cons.
    split; [|naive_solver]. intros [Hz ?]. split; [done|].
    intros [->|?]; [|done]. destruct Hz as [->|Hz]; [lia|].
    apply HxU in Hz. lia.
Qed.

(** ** The universe [0, 1, ..., N-1] *)

Lemma universe_ascending (m : Z) (N : nat) : StronglySorted Z.lt (seqZ m (Z.of_nat N)).
Proof.
  revert m. induction N as [|N IH]; intros m.
  { constructor. }
  rewrite seqZ_cons by lia. apply strictly_ascending_cons. split.
  - intros y. rewrite elem_of_seqZ. lia.
  - replace (Z.pred (Z.of_nat (S N))) with (Z.of_nat N) by lia. apply IH.
Qed.

Ltac ascending := repeat first [constructor | reflexivity].

(** ** The merges on strictly ascending lists *)

(** C3. On strictly ascending lists [and_query] returns the strictly
    ascending list of exactly the values that occur in both: the result is
    a subsequence of both arguments, at most as long as the shorter one,
    [and_query A A] is [A], and the order of the arguments is immaterial. *)
Theorem and_query_intersection (A B : list Z) :
  strictly_ascending A → strictly_ascending B →
  strictly_ascending (and_query A B) ∧
  (∀ z, z ∈ and_query A B ↔ z ∈ A ∧ z ∈ B) ∧
  and_query A B `sublist_of` A ∧
  and_query A B `sublist_of` B ∧
  (length (and_query A B) ≤ length A `min` length B)%nat ∧
  and_query A A = A ∧
  and_query A B = and_query B A.
Proof.
  rewrite !strictly_ascending_strongly, !and_query_merge.
  intros HA HB. split_and!.
  - eapply strictly_ascending_sublist; [apply and_merge_sublist_l|done].
  - intros z. by apply elem_of_and_merge.
  - apply and_merge_sublist_l.
  - apply and_merge_sublist_r.
  - pose proof (sublist_length _ _ (and_merge_sublist_l A B)).
    pose proof (sublist_length _ _ (and_merge_sublist_r A B)). lia.
  - apply and_merge_diag.
  - apply and_merge_comm.
Qed.

Lemma and_query_intersection_witness :
  strictly_ascending [1; 3; 5; 7] ∧ strictly_ascending [2; 3; 4; 7; 9] ∧
  and_query [1; 3; 5; 7] [2; 3; 4; 7; 9] = [3; 7] ∧
  and_query [1; 3; 5; 7] [2; 3; 4; 7; 9] = and_query [2; 3; 4; 7; 9] [1; 3; 5; 7].
Proof.
  assert (strictly_ascending [1; 3; 5; 7]) as HA by (unfold strictly_ascending; ascending).
  assert (strictly_ascending [2; 3; 4; 7; 9]) as HB by (unfold strictly_ascending; ascending).
  split_and!; [done|done|reflexivity|].
  apply (and_query_intersection _ _ HA HB).
Defined.

(** C4. On strictly ascending lists [or_query] returns the strictly
    ascending list of exactly the values that occur in one of them: every
    such value occurs once in the result, which is at most as long as the
    two arguments together, and [or_query A A] is [A]. *)
Theorem or_query_union (A B : list Z) :
  strictly_ascending A → strictly_ascending B →
  strictly_ascending (or_query A B) ∧
  NoDup (or_query A B) ∧
  (∀ z, z ∈ or_query A B ↔ z ∈ A ∨ z ∈ B) ∧
  (∀ z, z ∈ A ∨ z ∈ B → occurrences z (or_query A B) = 1%nat) ∧
  (length (or_query A B) ≤ length A + length B)%nat ∧
  or_query A A = A.
Proof.
  rewrite !strictly_ascending_strongly, !or_query_merge.
  intros HA HB.
  assert (NoDup (or_merge A B)) as Hnodup
    by auto using strictly_ascending_NoDup, or_merge_ascending.
  split_and!.
  - by apply or_merge_ascending.
  - done.
  - apply elem_of_or_merge.
  - intros z Hz. unfold occurrences.
    apply (proj1 (NoDup_count_occ' Z.eq_dec _));
      [by apply NoDup_ListNoDup|].
    by apply list_elem_of_In, elem_of_or_merge.
  - apply or_merge_length.
  - apply or_merge_diag.
Qed.

Lemma or_query_union_witness :
  strictly_ascending [1; 3; 5; 7] ∧ strictly_ascending [2; 3; 4; 7; 9] ∧
  or_query [1; 3; 5; 7] [2; 3; 4; 7; 9] = [1; 2; 3; 4; 5; 7; 9] ∧
  NoDup (or_query [1; 3; 5; 7] [2; 3; 4; 7; 9]).
Proof.
  assert (strictly_ascending [1; 3; 5; 7]) as HA by (unfold strictly_ascending; ascending).
  assert (strictly_ascending [2; 3; 4; 7; 9]) as HB by (unfold strictly_ascending; ascending).
  split_and!; [done|done|reflexivity|].
  apply (or_query_union _ _ HA HB).
Defined.

(** C5. For a strictly ascending [B] within the universe
    [U = [0, 1, ..., N-1]], [not_query U B] is the strictly ascending list
    of the values of [U] that are not in [B]; it has nothing in common with
    [B], and its own complement is [B] again. *)
Theorem not_query_complement (N : nat) (B : list Z) :
  strictly_ascending B → (∀ z, z ∈ B → 0 ≤ z < Z.of_nat N) →
  strictly_ascending (not_query (universe N) B) ∧
  (∀ z, z ∈ not_query (universe N) B ↔ z ∈ universe N ∧ z ∉ B) ∧
  not_query (universe N) B `sublist_of` universe N ∧
  and_query B (not_query (universe N) B) = [] ∧
  not_query (universe N) (not_query (universe N) B) = B.
Proof.
  rewrite !strictly_ascending_strongly, !not_query_merge, !and_query_merge.
  unfold universe. intros HB Hin.
  pose proof (universe_ascending 0 N) as HU.
  pose proof (not_merge_sublist (seqZ 0 (Z.of_nat N)) B) as Hsub.
  assert (StronglySorted Z.lt (not_merge (seqZ 0 (Z.of_nat N)) B)) as HnB
    by by eapply strictly_ascending_sublist.
  split_and!; [done| |done| |].
  - intros z. by apply elem_of_not_merge.
  - apply elem_of_nil_inv. intros z.
    rewrite elem_of_and_merge, elem_of_not_merge by done. tauto.
  - apply strictly_ascending_ext; [|done|].
    + eapply strictly_ascending_sublist; [apply not_merge_sublist|done].
    + intros z. rewrite !elem_of_not_merge by done.
      rewrite elem_of_seqZ. split.
      * intros [Hz Hn]. destruct (decide (z ∈ B)); [done|]. tauto.
      * intros Hz. specialize (Hin _ Hz). split; [lia|]. tauto.
Qed.

Lemma not_query_complement_witness :
  strictly_ascending [1; 3] ∧ (∀ z, z ∈ [1; 3] → 0 ≤ z < Z.of_nat 5) ∧
  not_query (universe 5) [1; 3] = [0; 2; 4] ∧
  not_query (universe 5) (not_query (universe 5) [1; 3]) = [1; 3].
Proof.
  assert (strictly_ascending [1; 3]) as HB by (unfold strictly_ascending; ascending).
  assert (∀ z, z ∈ [1; 3] → 0 ≤ z < Z.of_nat 5) as Hin.
  { intros z. rewrite !elem_of_cons, elem_of_nil. lia. }
  split_and!; [done|done|reflexivity|].
  apply (not_query_complement 5 _ HB Hin).
Defined.

(** ** Concatenation of strings *)

Lemma str_app_cons c (a b : string) : String c a +:+ b = String c (a +:+ b).
Proof. reflexivity. Qed.

Lemma str_app_nil_l (b : string) : "" +:+ b = b.
Proof. reflexivity. Qed.

Lemma str_app_assoc (a b c : string) : (a +:+ b) +:+ c = a +:+ (b +:+ c).
Proof.
  induction a as [|x a IH]; [done|]. by rewrite !str_app_cons, IH.
Qed.

Lemma str_app_nil_r (a : string) : a +:+ "" = a.
Proof. induction a as [|x a IH]; [done|]. by rewrite str_app_cons, IH. Qed.

(** ** Query tokens *)

Lemma split_at_nonempty sep s : split_at sep s ≠ [].
Proof. destruct s as [|c s]; simpl; [done|]. by repeat case_match. Qed.

Lemma split_at_app_sep sep s w t :
  sep w = true →
  split_at sep (s +:+ String w t) = split_at sep s ++ split_at sep t.
Proof.
  intros Hw. induction s as [|c s IH].
  { rewrite str_app_nil_l. cbn [split_at]. by rewrite Hw. }
  rewrite str_app_cons. cbn [split_at]. rewrite IH.
  destruct (sep c); [done|].
  pose proof (split_at_nonempty sep s). by destruct (split_at sep s).
Qed.

Lemma query_words_nonempty query : query_words query ≠ [].
Proof. apply split_at_nonempty. Qed.

Lemma remove_newlines_app s t :
  remove_newlines (s +:+ t) = remove_newlines s +:+ remove_newlines t.
Proof.
  induction s as [|c s IH]; simpl; [done|].
  case_bool_decide; simpl; by rewrite IH.
Qed.

Lemma remove_newlines_id s : contains "010" s = false → remove_newlines s = s.
Proof.
  induction s as [|c s IH]; simpl; [done|].
  intros [Hc Hs]%orb_false_iff. rewrite Hc. by rewrite IH.
Qed.

Lemma split_space_token t : contains " " t = false → split_space t = [t].
Proof.
  unfold split_space. induction t as [|c t IH]; simpl; [done|].
  intros [Hc Ht]%orb_false_iff. rewrite Hc. by rewrite IH.
Qed.

Lemma split_space_app t s :
  contains " " t = false →
  split_space (t +:+ String " " s) = t :: split_space s.
Proof.
  unfold split_space. induction t as [|c t IH]; simpl; [done|].
  intros [Hc Ht]%orb_false_iff. rewrite Hc. by rewrite IH.
Qed.

Lemma query_words_token t :
  contains " " t = false → contains "010" t = false → query_words t = [t].
Proof.
  intros Hs Hn. unfold query_words. rewrite remove_newlines_id by done.
  by apply split_space_token.
Qed.

Lemma query_words_app t query :
  contains " " t = false → contains "010" t = false →
  query_words (t +:+ String " " query) = t :: query_words query.
Proof.
  intros Hs Hn. unfold query_words. rewrite remove_newlines_app. simpl.
  rewrite remove_newlines_id by done. by apply split_space_app.
Qed.

(** ** One token *)

Lemma defaultdict_getitem_value d k :
  (defaultdict_getitem d k).1 = default [] (d !! k).
Proof. unfold defaultdict_getitem. by destruct (d !! k). Qed.

(** A lookup leaves every value of the dictionary as it is; the only
    change is the new key, with the empty list. *)
Lemma defaultdict_getitem_store d k :
  (defaultdict_getitem d k).2 =
    if d !! k is Some _ then d else <[k := []]> d.
Proof. unfold defaultdict_getitem. by destruct (d !! k). Qed.

Lemma defaultdict_getitem_default d k k' :
  default [] ((defaultdict_getitem d k).2 !! k') = default [] (d !! k').
Proof.
  rewrite defaultdict_getitem_store. destruct (d !! k) eqn:Hk; [done|].
  destruct (decide (k = k')) as [->|Hne].
  - by rewrite lookup_insert_eq, Hk.
  - by rewrite lookup_insert_ne.
Qed.

Lemma eval_word_term all_docs pl stack word :
  word ∉ operators →
  eval_word all_docs pl stack word =
    ((defaultdict_getitem pl (lower word)).2,
     Return (default [] (pl !! lower word) :: stack)).
Proof.
  intros Hw. unfold eval_word. rewrite bool_decide_eq_true_2 by done.
  rewrite <-defaultdict_getitem_value.
  by destruct (defaultdict_getitem pl (lower word)).
Qed.

Lemma eval_word_AND all_docs pl stack :
  eval_word all_docs pl stack "AND" =
    (pl, match stack with
         | list2 :: list1 :: stack' => Return (and_query list1 list2 :: stack')
         | _ => Raise IndexError
         end).
Proof. by destruct stack as [|? [|? ?]]. Qed.

Lemma eval_word_OR all_docs pl stack :
  eval_word all_docs pl stack "OR" =
    (pl, match stack with
         | list2 :: list1 :: stack' => Return (or_query list1 list2 :: stack')
         | _ => Raise IndexError
         end).
Proof. by destruct stack as [|? [|? ?]]. Qed.

Lemma eval_word_NOT all_docs pl stack :
  eval_word all_docs pl stack "NOT" =
    (pl, match stack with
         | list1 :: stack' => Return (not_query all_docs list1 :: stack')
         | _ => Raise IndexError
         end).
Proof. by destruct stack as [|? ?]. Qed.

Lemma operands_term word : word ∉ operators ↔ operands word = None.
Proof.
  unfold operands, operators. rewrite !elem_of_cons, elem_of_nil.
  repeat case_bool_decide; naive_solver.
Qed.

Lemma operators_cases word :
  word ∈ operators → word = "AND"%string ∨ word = "OR"%string ∨ word = "NOT"%string.
Proof. unfold operators. rewrite !elem_of_cons, elem_of_nil. tauto. Qed.

(** Every token changes the size of the stack as [stack_depth] says, and
    raises exactly when [stack_depth] has an underflow. *)
Lemma eval_word_depth all_docs pl stack word :
  match (eval_word all_docs pl stack word).2 with
  | Return stack' => stack_depth [word] (length stack) = Some (length stack')
  | Raise _ => stack_depth [word] (length stack) = None
  end.
Proof.
  destruct (decide (word ∈ operators)) as [Hop|Hterm].
  - apply operators_cases in Hop as [->|[->| ->]];
      rewrite ?eval_word_AND, ?eval_word_OR, ?eval_word_NOT;
      destruct stack as [|? [|? ?]]; cbn [snd stack_depth length];
      match goal with
      | |- context [operands ?w] =>
          let k := eval vm_compute in (operands w) in
          change (operands w) with k; cbv iota
      end;
      case_bool_decide; (done || lia || (do 2 f_equal; lia)).
  - rewrite eval_word_term by done. simpl.
    apply operands_term in Hterm. by rewrite Hterm.
Qed.

Lemma stack_depth_cons word query depth :
  stack_depth (word :: query) depth =
    stack_depth [word] depth ≫= stack_depth query.
Proof. simpl. destruct (operands word); [case_bool_decide|]; done. Qed.

Lemma eval_words_depth all_docs query pl stack :
  match (eval_words all_docs pl stack query).2 with
  | Return stack' => stack_depth query (length stack) = Some (length stack')
  | Raise _ => stack_depth query (length stack) = None
  end.
Proof.
  revert pl stack. induction query as [|word query IH]; intros pl stack.
  { done. }
  rewrite stack_depth_cons. cbn [eval_words].
  pose proof (eval_word_depth all_docs pl stack word) as Hw.
  destruct (eval_word all_docs pl stack word) as [pl' [stack'|e]];
    cbn [snd] in Hw; rewrite Hw; [|done].
  apply IH.
Qed.

Lemma stack_depth_positive query depth n :
  query ≠ [] → stack_depth query depth = Some n → (1 ≤ n)%nat.
Proof.
  assert (∀ query depth n, (1 ≤ depth)%nat →
            stack_depth query depth = Some n → (1 ≤ n)%nat) as Hpos.
  { clear. induction query as [|word query IH]; intros depth n Hd; simpl.
    - intros [= <-]. done.
    - destruct (operands word); [case_bool_decide; [|done]|];
        apply IH; lia. }
  destruct query as [|word query]; [done|]. intros _. simpl.
  destruct (operands word); [case_bool_decide; [|done]|];
    apply Hpos; lia.
Qed.

Lemma eval_finish_returns stack :
  eval_finish stack =
    match stack with
    | [] => Raise IndexError
    | [list2; list1] => Return (and_query list1 list2)
    | top :: _ => Return top
    end.
Proof. by destruct stack as [|? [|? [|? ?]]]. Qed.

Lemma eval_boolean_query_result self query :
  (eval_boolean_query self query).2 =
    (eval_words (all_docs self) (posting_list (inverted_index self)) []
       (query_words query)).2 ≫= eval_finish.
Proof.
  unfold eval_boolean_query.
  by destruct (eval_words _ _ _ _) as [pl r].
Qed.

Lemma eval_boolean_query_store self query :
  posting_list (inverted_index (eval_boolean_query self query).1) =
    (eval_words (all_docs self) (posting_list (inverted_index self)) []
       (query_words query)).1.
Proof.
  unfold eval_boolean_query.
  by destruct (eval_words _ _ _ _) as [pl r].
Qed.

(** ** What a query leaves of the posting store *)

Lemma eval_word_store all_docs pl stack word :
  pl ⊆ (eval_word all_docs pl stack word).1 ∧
  ∀ term, default [] ((eval_word all_docs pl stack word).1 !! term) =
          default [] (pl !! term).
Proof.
  destruct (decide (word ∈ operators)) as [Hop|Hterm].
  - apply operators_cases in Hop as [->|[->| ->]];
      by rewrite ?eval_word_AND, ?eval_word_OR, ?eval_word_NOT.
  - rewrite eval_word_term by done. cbn [fst]. split.
    + rewrite defaultdict_getitem_store.
      destruct (pl !! lower word) eqn:Hk; [done|]. by apply insert_subseteq.
    + intros term. apply defaultdict_getitem_default.
Qed.

Lemma eval_words_store all_docs query pl stack :
  pl ⊆ (eval_words all_docs pl stack query).1 ∧
  ∀ term, default [] ((eval_words all_docs pl stack query).1 !! term) =
          default [] (pl !! term).
Proof.
  revert pl stack. induction query as [|word query IH]; intros pl stack.
  { done. }
  cbn [eval_words].
  destruct (eval_word_store all_docs pl stack word) as [Hsub Hget].
  destruct (eval_word all_docs pl stack word) as [pl' [stack'|e]];
    cbn [fst] in *; [|done].
  destruct (IH pl' stack') as [Hsub' Hget']. split.
  - by etrans.
  - intros term. by rewrite Hget', Hget.
Qed.

(** Every entry of the posting store survives a query with its value, and
    [get_posting_list] answers as before for every term; what a query can
    add are new keys. *)
Lemma eval_boolean_query_frame self query :
  posting_list (inverted_index self) ⊆
    posting_list (inverted_index (eval_boolean_query self query).1) ∧
  ∀ term,
    get_posting_list (inverted_index (eval_boolean_query self query).1) term =
    get_posting_list (inverted_index self) term.
Proof.
  unfold get_posting_list. rewrite eval_boolean_query_store.
  apply eval_words_store.
Qed.

Lemma eval_two_terms self t1 t2 pl :
  t1 ∉ operators → t2 ∉ operators →
  (eval_words (all_docs self) pl [] [t1; t2]).2 =
    Return [default [] (pl !! lower t2); default [] (pl !! lower t1)].
Proof.
  intros H1 H2. cbn [eval_words]. rewrite eval_word_term by done.
  rewrite eval_word_term by done. cbn [snd].
  by rewrite defaultdict_getitem_default.
Qed.

(** ** Evaluation of a query *)

(** C1, at a query with a term that is not indexed. The evaluation of
    "zebra" on the example index returns the empty list, and stores the
    term "zebra" with an empty posting list in the index: the store after
    the query is not the store before it, and the term with the fewest
    documents, as [top_bottom_n_terms] reports it, has become "zebra". *)
Theorem eval_boolean_query_stores_unknown_term :
  get_posting_list example_index "zebra" = [] ∧
  posting_list example_index !! "zebra"%string = None ∧
  (eval_boolean_query (BooleanRetrieval_init example_index) "zebra").2 = Return [] ∧
  posting_list
    (inverted_index
       (eval_boolean_query (BooleanRetrieval_init example_index) "zebra").1)
    = <["zebra"%string := []]> (posting_list example_index) ∧
  posting_list
    (inverted_index
       (eval_boolean_query (BooleanRetrieval_init example_index) "zebra").1)
    ≠ posting_list example_index ∧
  top_bottom_n_terms example_index 1 false = [("bird"%string, 2)] ∧
  top_bottom_n_terms
    (inverted_index
       (eval_boolean_query (BooleanRetrieval_init example_index) "zebra").1)
    1 false = [("zebra"%string, 0)].
Proof.
  split_and!; try (vm_compute; reflexivity).
  intros Heq.
  apply (f_equal (λ m : gmap string (list Z), m !! "zebra"%string)) in Heq.
  vm_compute in Heq. discriminate.
Qed.

(** C2, as stated, fails at the query "cat dog bird": three values remain
    on the stack, which makes the query malformed, and the evaluation
    returns the one on top. *)
Lemma eval_boolean_query_three_operands :
  final_stack_size "cat dog bird" = Some 3%nat ∧
  (eval_boolean_query (BooleanRetrieval_init example_index) "cat dog bird").2
    = Return [1; 2] ∧
  ¬ (raises (eval_boolean_query (BooleanRetrieval_init example_index)
               "cat dog bird").2
     ↔ malformed_query "cat dog bird").
Proof.
  assert (final_stack_size "cat dog bird" = Some 3%nat) as Hsize
    by (vm_compute; reflexivity).
  assert ((eval_boolean_query (BooleanRetrieval_init example_index)
             "cat dog bird").2 = Return [1; 2]) as Heval
    by (vm_compute; reflexivity).
  split_and!; [done..|].
  intros [_ Hraise]. destruct Hraise as [e He].
  - right. exists 3%nat. split_and!; [done|lia..].
  - rewrite Heval in He. discriminate.
Qed.

(** C2, amended. [eval_boolean_query] raises exactly when an operator
    finds fewer values on the stack than it pops. Without such an underflow
    the stack is never empty at the end and a result is returned: of two
    values left their AND, and otherwise the value on top, also when more
    than two values are left. *)
Theorem eval_boolean_query_raises_iff_underflow
    (self : BooleanRetrieval) (query : string) :
  (raises (eval_boolean_query self query).2 ↔ underflow query) ∧
  final_stack_size query ≠ Some 0%nat ∧
  (∀ n, final_stack_size query = Some n →
        ∃ v, (eval_boolean_query self query).2 = Return v) ∧
  (∀ pl stack,
     eval_words (all_docs self) (posting_list (inverted_index self)) []
       (query_words query) = (pl, Return stack) →
     final_stack_size query = Some (length stack) ∧
     (eval_boolean_query self query).2 =
       match stack with
       | [list2; list1] => Return (and_query list1 list2)
       | top :: _ => Return top
       | [] => Raise IndexError
       end).
Proof.
  unfold underflow, final_stack_size.
  rewrite eval_boolean_query_result.
  pose proof (eval_words_depth (all_docs self) (query_words query)
                (posting_list (inverted_index self)) []) as Hdepth.
  pose proof (λ n, stack_depth_positive (query_words query) 0 n
                     (query_words_nonempty query)) as Hpos.
  destruct (eval_words _ _ _ _) as [pl' [stack'|e]]; cbn [snd length] in *.
  - specialize (Hpos _ Hdepth). rewrite Hdepth.
    assert (∃ v, Return stack' ≫= eval_finish = Return v) as Hret.
    { change (Return stack' ≫= eval_finish) with (eval_finish stack').
      rewrite eval_finish_returns.
      destruct stack' as [|? [|? [|? ?]]]; simpl in *; [lia|eauto..]. }
    split_and!.
    + split; [|done]. intros [e He]. destruct Hret as [v Hv]. congruence.
    + intros [= ?]. lia.
    + intros _ _. done.
    + intros pl stack [= _ <-]. split; [done|].
      change (Return stack' ≫= eval_finish) with (eval_finish stack').
      rewrite eval_finish_returns. by destruct stack' as [|? [|? [|? ?]]].
  - rewrite Hdepth. split_and!; try done.
    split; [done|]. intros _. by exists e.
Qed.

Lemma eval_boolean_query_raises_iff_underflow_witness :
  final_stack_size "cat dog bird" = Some 3%nat ∧
  ∃ v, (eval_boolean_query (BooleanRetrieval_init example_index)
          "cat dog bird").2 = Return v.
Proof.
  assert (final_stack_size "cat dog bird" = Some 3%nat) as Hsize
    by (vm_compute; reflexivity).
  split; [done|].
  exact (proj1 (proj2 (proj2
    (eval_boolean_query_raises_iff_underflow
       (BooleanRetrieval_init example_index) "cat dog bird"))) _ Hsize).
Defined.

(** C6. A query of two term tokens, "t1 t2", evaluates to what
    "t1 t2 AND" evaluates to, the AND of the posting lists of the two
    terms; and a query whose tokens leave one value on the stack evaluates
    to that value. *)
Theorem eval_boolean_query_implicit_and
    (self : BooleanRetrieval) (t1 t2 : string) :
  term_token t1 → term_token t2 →
  final_stack_size (t1 +:+ " " +:+ t2) = Some 2%nat ∧
  (eval_boolean_query self (t1 +:+ " " +:+ t2)).2 =
    Return (and_query (get_posting_list (inverted_index self) (lower t1))
                      (get_posting_list (inverted_index self) (lower t2))) ∧
  (eval_boolean_query self (t1 +:+ " " +:+ t2 +:+ " AND")).2 =
    (eval_boolean_query self (t1 +:+ " " +:+ t2)).2 ∧
  (∀ query pl v,
     eval_words (all_docs self) (posting_list (inverted_index self)) []
       (query_words query) = (pl, Return [v]) →
     (eval_boolean_query self query).2 = Return v).
Proof.
  intros (Hs1 & Hn1 & Hop1) (Hs2 & Hn2 & Hop2).
  assert (query_words (t1 +:+ " " +:+ t2) = [t1; t2]) as Hw.
  { change (t1 +:+ " " +:+ t2) with (t1 +:+ String " " t2).
    rewrite query_words_app by done. by rewrite query_words_token. }
  assert (query_words (t1 +:+ " " +:+ t2 +:+ " AND") = [t1; t2; "AND"%string])
    as Hw'.
  { change (t1 +:+ " " +:+ t2 +:+ " AND")
      with (t1 +:+ String " " (t2 +:+ String " " "AND")).
    by rewrite !query_words_app. }
  assert ((eval_boolean_query self (t1 +:+ " " +:+ t2)).2 =
    Return (and_query (get_posting_list (inverted_index self) (lower t1))
                      (get_posting_list (inverted_index self) (lower t2))))
    as Htwo.
  { rewrite eval_boolean_query_result, Hw, eval_two_terms by done. done. }
  split_and!.
  - unfold final_stack_size. rewrite Hw. simpl.
    apply operands_term in Hop1, Hop2. by rewrite Hop1, Hop2.
  - done.
  - rewrite Htwo, eval_boolean_query_result, Hw'.
    cbn [eval_words]. rewrite !eval_word_term by done.
    rewrite eval_word_AND. cbn [snd].
    by rewrite defaultdict_getitem_default.
  - intros query pl v Hq. by rewrite eval_boolean_query_result, Hq.
Qed.

Lemma eval_boolean_query_implicit_and_witness :
  term_token "cat" ∧ term_token "Dog" ∧
  (eval_boolean_query (BooleanRetrieval_init example_index) "cat Dog").2
    = Return [0] ∧
  (eval_boolean_query (BooleanRetrieval_init example_index) "cat Dog AND").2
    = Return [0].
Proof.
  assert (term_token "cat") as H1.
  { unfold term_token, operators. rewrite !elem_of_cons, elem_of_nil.
    split_and!; [reflexivity..|]. intros [?|[?|[?|[]]]]; discriminate. }
  assert (term_token "Dog") as H2.
  { unfold term_token, operators. rewrite !elem_of_cons, elem_of_nil.
    split_and!; [reflexivity..|]. intros [?|[?|[?|[]]]]; discriminate. }
  pose proof (eval_boolean_query_implicit_and
                (BooleanRetrieval_init example_index) _ _ H1 H2)
    as (_ & Htwo & Hand & _).
  split_and!; [done|done|exact Htwo|].
  etrans; [exact Hand|exact Htwo].
Defined.

Lemma query_words_append query rest :
  query_words (query +:+ String " " rest) = query_words query ++ query_words rest.
Proof.
  unfold query_words, split_space. rewrite remove_newlines_app. simpl.
  by apply split_at_app_sep.
Qed.

Lemma eval_words_app all_docs query1 query2 pl stack :
  eval_words all_docs pl stack (query1 ++ query2) =
    match eval_words all_docs pl stack query1 with
    | (pl', Return stack') => eval_words all_docs pl' stack' query2
    | (pl', Raise e) => (pl', Raise e)
    end.
Proof.
  revert pl stack. induction query1 as [|word query1 IH]; intros pl stack.
  { done. }
  cbn [app eval_words].
  destruct (eval_word all_docs pl stack word) as [pl' [stack'|e]]; [apply IH|done].
Qed.

(** The tokens of a query that raises nothing leave a value on the stack. *)
Lemma eval_words_top all_docs query pl pl' stack' :
  eval_words all_docs pl [] (query_words query) = (pl', Return stack') →
  ∃ top rest, stack' = top :: rest.
Proof.
  intros Hq.
  pose proof (eval_words_depth all_docs (query_words query) pl []) as Hdepth.
  rewrite Hq in Hdepth. cbn [snd length] in Hdepth.
  apply stack_depth_positive in Hdepth; [|apply query_words_nonempty].
  destruct stack' as [|top rest]; [simpl in Hdepth; lia|by eauto].
Qed.

(** The tokens [u op] after a query, for a term token [u]: the value of
    [u] is pushed on the stack the query leaves, and [op] is evaluated. *)
Lemma eval_query_then_term self query u op :
  term_token u → query_words op = [op] →
  (eval_boolean_query self (query +:+ " " +:+ u +:+ String " " op)).2 =
    match eval_words (all_docs self) (posting_list (inverted_index self)) []
            (query_words query) with
    | (pl', Return stack') =>
        (eval_word (all_docs self) (defaultdict_getitem pl' (lower u)).2
           (get_posting_list (inverted_index self) (lower u) :: stack') op).2
          ≫= eval_finish
    | (_, Raise e) => Raise e
    end.
Proof.
  intros (Hs & Hn & Hop) Hw.
  change (query +:+ " " +:+ u +:+ String " " op)
    with (query +:+ String " " (u +:+ String " " op)).
  rewrite eval_boolean_query_result, query_words_append, query_words_app, Hw
    by done.
  rewrite eval_words_app.
  pose proof (eval_words_store (all_docs self) (query_words query)
                (posting_list (inverted_index self)) []) as [_ Hget].
  destruct (eval_words _ _ [] (query_words query)) as [pl' [stack'|e]];
    cbn [fst] in Hget; [|done].
  cbn [eval_words]. rewrite eval_word_term by done.
  unfold get_posting_list. rewrite Hget.
  by destruct (eval_word _ _ _ op) as [pl'' [stack''|e]].
Qed.

(** C9. A term that is not in the index is not an error. The query of the
    term alone returns the empty list, and [get_posting_list] returns the
    empty list for it. Under AND the term empties the result: after any
    query that returns a result, "... u AND" returns the empty list, as
    does "u t AND". Under OR it adds nothing: "... u OR" has the result
    of the query in front of it, and "u t OR" returns the posting list of
    [t]. Its NOT is the whole universe: "u NOT" returns [all_docs]. The
    token pushes the empty list on any stack, and the merges with the
    empty list are as these results say. *)
Theorem unknown_term_is_empty (self : BooleanRetrieval) (u : string) :
  term_token u →
  posting_list (inverted_index self) !! lower u = None →
  (eval_boolean_query self u).2 = Return [] ∧
  get_posting_list (inverted_index self) (lower u) = [] ∧
  (∀ term, posting_list (inverted_index self) !! term = None →
           get_posting_list (inverted_index self) term = []) ∧
  (∀ query,
     (eval_boolean_query self (query +:+ " " +:+ u +:+ " AND")).2 =
       match (eval_boolean_query self query).2 with
       | Return _ => Return []
       | Raise e => Raise e
       end) ∧
  (∀ query,
     (eval_boolean_query self (query +:+ " " +:+ u +:+ " OR")).2 =
       (eval_boolean_query self query).2) ∧
  (eval_boolean_query self (u +:+ " NOT")).2 = Return (all_docs self) ∧
  (∀ t, term_token t →
     (eval_boolean_query self (u +:+ " " +:+ t +:+ " AND")).2 = Return [] ∧
     (eval_boolean_query self (t +:+ " " +:+ u +:+ " AND")).2 = Return [] ∧
     (eval_boolean_query self (u +:+ " " +:+ t +:+ " OR")).2 =
       Return (get_posting_list (inverted_index self) (lower t)) ∧
     (eval_boolean_query self (t +:+ " " +:+ u +:+ " OR")).2 =
       Return (get_posting_list (inverted_index self) (lower t)) ∧
     (eval_boolean_query self (t +:+ " " +:+ u +:+ " NOT AND")).2 =
       Return (and_query (get_posting_list (inverted_index self) (lower t))
                         (all_docs self))) ∧
  (∀ stack,
     (eval_word (all_docs self) (posting_list (inverted_index self)) stack u).2
       = Return ([] :: stack)) ∧
  (∀ L, and_query [] L = [] ∧ and_query L [] = [] ∧
        or_query [] L = L ∧ or_query L [] = L) ∧
  not_query (all_docs self) [] = all_docs self.
Proof.
  intros Hu Hnone. pose proof Hu as (Hs & Hn & Hop).
  assert (get_posting_list (inverted_index self) (lower u) = []) as Hget
    by (unfold get_posting_list; by rewrite Hnone).
  assert (∀ L, and_query [] L = [] ∧ and_query L [] = [] ∧
               or_query [] L = L ∧ or_query L [] = L) as Hmerge.
  { intros L. rewrite !and_query_merge, !or_query_merge.
    by rewrite and_merge_nil_l, and_merge_nil_r, or_merge_nil_l, or_merge_nil_r. }
  assert (not_query (all_docs self) [] = all_docs self) as Hnot
    by (by rewrite not_query_merge, not_merge_nil_r).
  assert (∀ query,
     (eval_boolean_query self (query +:+ " " +:+ u +:+ " AND")).2 =
       match (eval_boolean_query self query).2 with
       | Return _ => Return []
       | Raise e => Raise e
       end) as Hand.
  { intros query. rewrite (eval_query_then_term self query u "AND") by done.
    rewrite (eval_boolean_query_result self query).
    destruct (eval_words _ _ [] (query_words query))
      as [pl' [stack'|e]] eqn:Hq; [|done].
    destruct (eval_words_top _ _ _ _ _ Hq) as (top & rest & ->).
    cbv beta iota. rewrite Hget, eval_word_AND. cbn [snd].
    change (Return ?s ≫= eval_finish) with (eval_finish s).
    rewrite !eval_finish_returns.
    destruct (Hmerge top) as (_ & -> & _).
    destruct rest as [|v [|v' rest]]; [done| |done].
    by destruct (Hmerge v) as (_ & -> & _). }
  assert (∀ query,
     (eval_boolean_query self (query +:+ " " +:+ u +:+ " OR")).2 =
       (eval_boolean_query self query).2) as Hor.
  { intros query. rewrite (eval_query_then_term self query u "OR") by done.
    rewrite (eval_boolean_query_result self query).
    destruct (eval_words _ _ [] (query_words query))
      as [pl' [stack'|e]] eqn:Hq; [|done].
    destruct (eval_words_top _ _ _ _ _ Hq) as (top & rest & ->).
    cbv beta iota. rewrite Hget, eval_word_OR. cbn [snd].
    by destruct (Hmerge top) as (_ & _ & _ & ->). }
  assert (∀ t, term_token t →
            (eval_boolean_query self t).2 =
              Return (get_posting_list (inverted_index self) (lower t)))
    as Hterm.
  { intros t (Hs' & Hn' & Hop').
    rewrite eval_boolean_query_result, query_words_token by done.
    cbn [eval_words]. by rewrite eval_word_term by done. }
  split_and!; [|done|by intros term Hterm'; unfold get_posting_list; rewrite Hterm'
              |done|done| | | |done|done].
  - by rewrite Hterm, Hget.
  - change (u +:+ " NOT") with (u +:+ String " " "NOT").
    rewrite eval_boolean_query_result, query_words_app by done.
    change (query_words "NOT") with ["NOT"%string].
    cbn [eval_words]. rewrite eval_word_term, eval_word_NOT by done.
    cbn [snd]. rewrite Hnone. cbn [default]. by rewrite Hnot.
  - intros t Ht. pose proof Ht as (Hs' & Hn' & Hop').
    split_and!.
    + change (u +:+ " " +:+ t +:+ " AND")
        with (u +:+ String " " (t +:+ String " " "AND")).
      rewrite eval_boolean_query_result, !query_words_app by done.
      change (query_words "AND") with ["AND"%string].
      cbn [eval_words]. rewrite !eval_word_term, eval_word_AND by done.
      cbn [snd]. rewrite defaultdict_getitem_default, Hnone. cbn [default].
      by destruct (Hmerge (default [] (posting_list (inverted_index self)
                                         !! lower t))) as (-> & _).
    + by rewrite Hand, Hterm.
    + change (u +:+ " " +:+ t +:+ " OR")
        with (u +:+ String " " (t +:+ String " " "OR")).
      rewrite eval_boolean_query_result, !query_words_app by done.
      change (query_words "OR") with ["OR"%string].
      cbn [eval_words]. rewrite !eval_word_term, eval_word_OR by done.
      cbn [snd]. rewrite defaultdict_getitem_default, Hnone. cbn [default].
      by destruct (Hmerge (default [] (posting_list (inverted_index self)
                                         !! lower t))) as (_ & _ & -> & _).
    + by rewrite Hor, Hterm.
    + change (t +:+ " " +:+ u +:+ " NOT AND")
        with (t +:+ String " " (u +:+ String " " "NOT AND")).
      rewrite eval_boolean_query_result, !query_words_app by done.
      change (query_words "NOT AND") with ["NOT"; "AND"]%string.
      cbn [eval_words]. rewrite !eval_word_term by done.
      rewrite eval_word_NOT, eval_word_AND. cbn [snd].
      rewrite defaultdict_getitem_default, Hnone. cbn [default].
      by rewrite Hnot.
  - intros stack. rewrite eval_word_term by done. by rewrite Hnone.
Qed.

Lemma unknown_term_is_empty_witness :
  term_token "Zebra" ∧
  posting_list example_index !! lower "Zebra" = None ∧
  (eval_boolean_query (BooleanRetrieval_init example_index) "Zebra").2
    = Return [] ∧
  (eval_boolean_query (BooleanRetrieval_init example_index)
     "cat dog OR Zebra AND").2 = Return [] ∧
  (eval_boolean_query (BooleanRetrieval_init example_index)
     "cat bird AND Zebra OR").2 = Return [2] ∧
  (eval_boolean_query (BooleanRetrieval_init example_index) "Zebra NOT").2
    = Return [0; 1; 2].
Proof.
  assert (term_token "Zebra") as Hterm.
  { unfold term_token, operators. rewrite !elem_of_cons, elem_of_nil.
    split_and!; [reflexivity..|]. intros [?|[?|[?|[]]]]; discriminate. }
  assert (posting_list example_index !! lower "Zebra" = None) as Hnone
    by (vm_compute; reflexivity).
  pose proof (unknown_term_is_empty (BooleanRetrieval_init example_index)
                "Zebra" Hterm Hnone)
    as (Hone & _ & _ & Hand & Hor & Hnot & _).
  split_and!; [done|done|exact Hone| | |].
  - etrans; [exact (Hand "cat dog OR"%string)|]. vm_compute. reflexivity.
  - etrans; [exact (Hor "cat bird AND"%string)|]. vm_compute. reflexivity.
  - etrans; [exact Hnot|]. vm_compute. reflexivity.
Defined.

(** ** [sorted] *)

Section sorted_facts.
Context {A K : Type} (lt : K → K → bool) (key : A → K).

Lemma insert_by_key_Permutation x l : insert_by_key lt key x l ≡ₚ x :: l.
Proof.
  induction l as [|y l IH]; simpl; [done|].
  case_match; [|done]. by rewrite IH, Permutation_swap.
Qed.

Lemma sort_by_key_Permutation l : sort_by_key lt key l ≡ₚ l.
Proof.
  induction l as [|x l IH]; simpl; [done|].
  by rewrite insert_by_key_Permutation, IH.
Qed.

Lemma sorted_Permutation (reverse : bool) (l : list A) : sorted lt key reverse l ≡ₚ l.
Proof.
  unfold sorted. destruct reverse; [|apply sort_by_key_Permutation].
  by rewrite <-Permutation_rev, sort_by_key_Permutation, <-Permutation_rev.
Qed.

Lemma StronglySorted_rev (R : relation A) l :
  StronglySorted R l → StronglySorted (flip R) (List.rev l).
Proof.
  induction 1 as [|x l _ IH Hx]; simpl; [constructor|].
  apply StronglySorted_app_2; [|done|repeat constructor].
  intros y z Hy ->%list_elem_of_singleton. rewrite Forall_forall in Hx.
  apply Hx. by apply list_elem_of_In, in_rev, list_elem_of_In.
Qed.

Section order.
Hypothesis lt_asym : ∀ k1 k2, lt k1 k2 = true → lt k2 k1 = false.
Hypothesis le_trans : ∀ k1 k2 k3,
  lt k2 k1 = false → lt k3 k2 = false → lt k3 k1 = false.

Lemma insert_by_key_sorted x l :
  StronglySorted (not_after lt key) l →
  StronglySorted (not_after lt key) (insert_by_key lt key x l).
Proof.
  induction 1 as [|y l Hl IH Hy]; simpl; [repeat constructor|].
  destruct (lt (key y) (key x)) eqn:Hyx.
  - constructor; [done|].
    rewrite insert_by_key_Permutation. constructor; [|done].
    by apply lt_asym.
  - constructor; [by constructor|]. constructor; [done|].
    eapply Forall_impl; [done|]. intros z Hz. by eapply le_trans.
Qed.

Lemma sort_by_key_sorted l : StronglySorted (not_after lt key) (sort_by_key lt key l).
Proof.
  induction l as [|x l IH]; simpl; [constructor|].
  by apply insert_by_key_sorted.
Qed.

(** The result of [sorted] is in order: ascending, or descending when
    [reverse] is set. *)
Lemma sorted_sorted (reverse : bool) (l : list A) :
  StronglySorted (if reverse then flip (not_after lt key) else (not_after lt key))
                 (sorted lt key reverse l).
Proof.
  unfold sorted. destruct reverse; [|apply sort_by_key_sorted].
  apply StronglySorted_rev, sort_by_key_sorted.
Qed.

(** When no two elements have keys that are equal under the order,
    the result does not depend on the order of the input. *)
Lemma sorted_unique (reverse : bool) (l l' : list A) :
  (∀ a b, a ∈ l → b ∈ l → (not_after lt key) a b → (not_after lt key) b a → a = b) →
  l ≡ₚ l' → sorted lt key reverse l = sorted lt key reverse l'.
Proof.
  intros Hanti Hperm.
  eapply StronglySorted_unique_strong; [|apply sorted_sorted..|].
  - intros a b Ha Hb. rewrite sorted_Permutation in Ha.
    rewrite sorted_Permutation, <-Hperm in Hb.
    destruct reverse; simpl; auto.
  - by rewrite !sorted_Permutation.
Qed.
End order.
End sorted_facts.

Lemma sort_by_key_cons {A K} (lt : K → K → bool) (key : A → K) x l :
  sort_by_key lt key (x :: l) = insert_by_key lt key x (sort_by_key lt key l).
Proof. reflexivity. Qed.

Lemma insert_by_key_fmap {A B K K'} (lt : K → K → bool) (lt' : K' → K' → bool)
    (key : A → K) (key' : B → K') (f : A → B) x l :
  (∀ b, b ∈ l → lt (key b) (key x) = lt' (key' (f b)) (key' (f x))) →
  f <$> insert_by_key lt key x l = insert_by_key lt' key' (f x) (f <$> l).
Proof.
  induction l as [|y l IH]; intros Hlt; [done|].
  rewrite fmap_cons. cbn [insert_by_key].
  rewrite <-Hlt by left. case_match; [|done].
  rewrite fmap_cons, IH; [done|]. intros b Hb. apply Hlt. by right.
Qed.

Lemma sort_by_key_fmap {A B K K'} (lt : K → K → bool) (lt' : K' → K' → bool)
    (key : A → K) (key' : B → K') (f : A → B) l :
  (∀ a b, a ∈ l → b ∈ l → lt (key a) (key b) = lt' (key' (f a)) (key' (f b))) →
  f <$> sort_by_key lt key l = sort_by_key lt' key' (f <$> l).
Proof.
  induction l as [|x l IH]; intros Hlt; [done|].
  rewrite fmap_cons, !sort_by_key_cons, <-IH.
  - apply insert_by_key_fmap. intros b Hb.
    rewrite sort_by_key_Permutation in Hb. apply Hlt; [by right|by left].
  - intros a b Ha Hb. apply Hlt; by right.
Qed.

(** ** Finalization of the posting lists *)

Lemma ascending_of_le_NoDup l :
  StronglySorted (not_after Z_lt id) l → NoDup l → StronglySorted Z.lt l.
Proof.
  induction 1 as [|x l _ IH Hx]; [constructor|].
  intros [Hnin Hnodup]%NoDup_cons. constructor; [by auto|].
  rewrite Forall_forall in Hx |- *. intros y Hy. specialize (Hx _ Hy).
  unfold not_after, Z_lt in Hx. apply bool_decide_eq_false in Hx. simpl in Hx.
  assert (x ≠ y) by (by intros ->). lia.
Qed.

Lemma sort_by_key_Z_ascending l :
  NoDup l → StronglySorted Z.lt (sort_by_key Z_lt id l).
Proof.
  intros Hl. apply ascending_of_le_NoDup.
  - apply sort_by_key_sorted; unfold Z_lt; intros *;
      rewrite ?bool_decide_eq_true, ?bool_decide_eq_false; lia.
  - by rewrite sort_by_key_Permutation.
Qed.

Lemma id_key_fst self ids keys :
  Forall2 (λ x k, id_key self x = Some k) ids keys →
  ∀ k x, (k, x) ∈ zip keys ids → k.1 = x.
Proof.
  intros Hkeys k x. induction Hkeys as [|x' k' ids keys Hk _ IH];
    simpl; [by rewrite elem_of_nil|].
  rewrite elem_of_cons. intros [[= -> ->]|?]; [|by auto].
  unfold id_key in Hk. by destruct (documents self !! x'); simplify_eq/=.
Qed.

Section finalization.
Context (list_of_set : gset Z → list Z).
Hypothesis list_of_set_elements : set_order list_of_set.

Lemma elem_of_list_of_set (doc_ids : list Z) x :
  x ∈ list_of_set (list_to_set doc_ids) ↔ x ∈ doc_ids.
Proof.
  by rewrite (list_of_set_elements _), elem_of_elements, elem_of_list_to_set.
Qed.

Lemma NoDup_list_of_set (s : gset Z) : NoDup (list_of_set s).
Proof. rewrite (list_of_set_elements _). apply NoDup_elements. Qed.

(** With a document for every ID, the sort returns the IDs in ascending
    order, each once. *)
Lemma sorted_doc_ids_ascending self doc_ids :
  (∀ x, x ∈ doc_ids → is_Some (documents self !! x)) →
  sorted_doc_ids list_of_set self doc_ids =
    Some (sort_by_key Z_lt id (list_of_set (list_to_set doc_ids))).
Proof.
  intros Hdocs. unfold sorted_doc_ids.
  set (ids := list_of_set (list_to_set doc_ids)).
  destruct (mapM (id_key self) ids) as [keys|] eqn:Hkeys; simpl.
  - apply mapM_Some in Hkeys. f_equal. unfold sorted.
    rewrite (sort_by_key_fmap _ Z_lt _ id).
    + by rewrite snd_zip by (by rewrite (Forall2_length _ _ _ Hkeys)).
    + intros [k1 x1] [k2 x2] H1 H2. simpl.
      pose proof (id_key_fst _ _ _ Hkeys) as Hfst.
      unfold id_key_lt, Z_lt. by rewrite (Hfst _ _ H1), (Hfst _ _ H2).
  - apply eq_None_not_Some in Hkeys. destruct Hkeys.
    apply mapM_is_Some, Forall_forall. intros x Hx.
    apply (proj1 (elem_of_list_of_set _ _)) in Hx.
    destruct (Hdocs _ Hx) as [d Hd]. unfold id_key. simpl. by rewrite Hd.
Qed.

Lemma sorted_doc_ids_spec self doc_ids :
  (∀ x, x ∈ doc_ids → is_Some (documents self !! x)) →
  ∃ ids, sorted_doc_ids list_of_set self doc_ids = Some ids ∧
         StronglySorted Z.lt ids ∧ ∀ x, x ∈ ids ↔ x ∈ doc_ids.
Proof.
  intros Hdocs. eexists. split; [by apply sorted_doc_ids_ascending|]. split.
  - apply sort_by_key_Z_ascending, NoDup_list_of_set.
  - intros x. by rewrite sort_by_key_Permutation, elem_of_list_of_set.
Qed.

(** [sort_posting_list] returns, with every posting list replaced by its
    sorted form, when all IDs in the posting lists have a document. *)
Lemma sort_posting_list_spec self :
  (∀ term doc_ids x, posting_list self !! term = Some doc_ids →
                     x ∈ doc_ids → is_Some (documents self !! x)) →
  sort_posting_list list_of_set self =
    Return {| documents := documents self;
              posting_list :=
                (λ doc_ids, sort_by_key Z_lt id (list_of_set (list_to_set doc_ids)))
                  <$> posting_list self |}.
Proof.
  destruct self as [docs pl0]. cbn [documents posting_list].
  set (g := λ doc_ids : list Z,
              sort_by_key Z_lt id (list_of_set (list_to_set doc_ids))).
  unfold sort_posting_list. cbn [posting_list].
  intros Hdocs.
  cut (∀ m, m ⊆ pl0 →
         map_fold
           (λ term doc_ids (acc : outcome InvertedIndex),
              self ← acc;
              match sorted_doc_ids list_of_set self doc_ids with
              | Some ids =>
                  Return {| documents := documents self;
                            posting_list := <[term := ids]> (posting_list self) |}
              | None => Raise KeyError
              end)
           (Return {| documents := docs; posting_list := pl0 |}) m =
         Return {| documents := docs; posting_list := (g <$> m) ∪ pl0 |}).
  { intros Hcut. rewrite Hcut by done. do 2 f_equal.
    apply map_eq. intros term. rewrite lookup_union, !lookup_fmap.
    by destruct (pl0 !! term). }
  intros m.
  apply (map_fold_weak_ind
           (λ r m, m ⊆ pl0 →
                   r = Return {| documents := docs;
                                 posting_list := (g <$> m) ∪ pl0 |})).
  - intros _. by rewrite fmap_empty, (left_id_L ∅ (∪)).
  - intros term doc_ids m' r Hnone IH Hsub.
    rewrite IH by (etrans; [by apply insert_subseteq|done]).
    simpl. rewrite sorted_doc_ids_ascending.
    + by rewrite fmap_insert, insert_union_l.
    + intros x Hx. apply (Hdocs term doc_ids); [|done].
      eapply lookup_weaken; [|done]. apply lookup_insert_eq.
Qed.
End finalization.

(** ** The loop of [__init__] *)

Lemma defaultdict_append_lookup d k x k' :
  defaultdict_append d k x !! k' =
    if decide (k = k') then Some (default [] (d !! k) ++ [x]) else d !! k'.
Proof.
  unfold defaultdict_append, defaultdict_getitem.
  destruct (d !! k) eqn:Hk; case_decide; subst;
    rewrite ?lookup_insert_eq, ?lookup_insert_ne by done; done.
Qed.

Lemma append_term_documents doc_id self term :
  documents (append_term doc_id self term) = documents self.
Proof. unfold append_term. by case_bool_decide. Qed.

Lemma append_term_lookup doc_id self term term' :
  posting_list (append_term doc_id self term) !! term' =
    if decide (term = term' ∧ term ≠ EmptyString)
    then Some (default [] (posting_list self !! term) ++ [doc_id])
    else posting_list self !! term'.
Proof.
  unfold append_term. case_bool_decide; cbn [posting_list].
  - rewrite defaultdict_append_lookup. repeat case_decide; naive_solver.
  - case_decide; naive_solver.
Qed.

Lemma foldl_append_term doc_id terms self :
  documents (foldl (append_term doc_id) self terms) = documents self ∧
  ∀ term,
    (∀ x, x ∈ default [] (posting_list (foldl (append_term doc_id) self terms) !! term)
          ↔ x ∈ default [] (posting_list self !! term) ∨
            (x = doc_id ∧ term ∈ terms ∧ term ≠ EmptyString)) ∧
    (is_Some (posting_list (foldl (append_term doc_id) self terms) !! term)
     ↔ is_Some (posting_list self !! term) ∨
       (term ∈ terms ∧ term ≠ EmptyString)).
Proof.
  revert self. induction terms as [|t terms IH]; intros self; simpl.
  { split; [done|]. intros term. setoid_rewrite elem_of_nil. naive_solver. }
  destruct (IH (append_term doc_id self t)) as [Hdocs Hpl].
  split; [by rewrite Hdocs, append_term_documents|].
  intros term. destruct (Hpl term) as [Hin Hkey]. split.
  - intros x. rewrite Hin, append_term_lookup, elem_of_cons.
    case_decide as Ht; simpl.
    + destruct Ht as [-> ?]. rewrite elem_of_app, list_elem_of_singleton.
      naive_solver.
    + naive_solver.
  - rewrite Hkey, append_term_lookup, elem_of_cons.
    case_decide as Ht; [|naive_solver].
    destruct Ht as [-> ?]. split; [|by eauto]. intros _. right. auto.
Qed.

Lemma elem_of_split term document :
  term ∈ split document → term ≠ EmptyString.
Proof. unfold split. by intros [? _]%list_elem_of_filter. Qed.

Lemma update_posting_list_spec self document doc_id :
  documents (update_posting_list self document doc_id) = documents self ∧
  ∀ term,
    (∀ x, x ∈ default [] (posting_list (update_posting_list self document doc_id) !! term)
          ↔ x ∈ default [] (posting_list self !! term) ∨
            (x = doc_id ∧ term ∈ split document)) ∧
    (is_Some (posting_list (update_posting_list self document doc_id) !! term)
     ↔ is_Some (posting_list self !! term) ∨ term ∈ split document).
Proof.
  unfold update_posting_list.
  destruct (foldl_append_term doc_id (split document) self) as [Hdocs Hpl].
  split; [done|]. intros term. destruct (Hpl term) as [Hin Hkey]. split.
  - intros x. rewrite Hin. pose proof (elem_of_split term document). tauto.
  - rewrite Hkey. pose proof (elem_of_split term document). tauto.
Qed.

Lemma occurs_snoc parsed d term x :
  occurs (parsed ++ [d]) term x ↔
    occurs parsed term x ∨ (x = Z.of_nat (length parsed) ∧ term ∈ split d.1).
Proof.
  unfold occurs. split.
  - intros (j & d' & -> & Hj & Hterm).
    apply lookup_app_Some in Hj as [Hj|[Hlen Hj]]; [left; eauto|].
    apply list_lookup_singleton_Some in Hj as [Hj ->].
    right. split; [f_equal; lia|done].
  - intros [(j & d' & -> & Hj & Hterm)|[-> Hterm]].
    + exists j, d'. split_and!; [done| |done]. by apply lookup_app_l_Some.
    + exists (length parsed), d. split_and!; [done| |done].
      by rewrite list_lookup_middle.
Qed.

(** The state of the builder after the documents [parsed]: the counter is
    their number, the document at position [j] is stored under the ID [j],
    and the posting list of a term holds the IDs of the documents the term
    occurs in. *)
Lemma index_documents_spec parsed :
  let st := foldl index_document ({| documents := ∅; posting_list := ∅ |}, 0) parsed in
  st.2 = Z.of_nat (length parsed) ∧
  size (documents st.1) = length parsed ∧
  (∀ j : nat, documents st.1 !! Z.of_nat j = document_of <$> parsed !! j) ∧
  (∀ x, is_Some (documents st.1 !! x) ↔ 0 ≤ x < Z.of_nat (length parsed)) ∧
  (∀ term x, x ∈ default [] (posting_list st.1 !! term) ↔ occurs parsed term x) ∧
  (∀ term, is_Some (posting_list st.1 !! term) ↔ ∃ x, occurs parsed term x).
Proof.
  induction parsed as [|[contents id] parsed IH] using rev_ind; simpl.
  { split_and!; try done.
    - intros x. rewrite lookup_empty, is_Some_alt. lia.
    - intros term x. rewrite lookup_empty. simpl. rewrite elem_of_nil.
      split; [done|]. by intros (j & d & _ & ? & _).
    - intros term. rewrite lookup_empty, is_Some_alt.
      split; [done|]. by intros (x & j & d & _ & ? & _). }
  rewrite foldl_app. cbn [foldl].
  destruct (foldl index_document _ parsed) as [self i].
  cbn [fst snd] in IH. destruct IH as (-> & Hsize & Hdoc & Hdom & Hpl & Hkey).
  cbn [index_document fst snd].
  match goal with
  | |- context [update_posting_list ?s ?c ?n] =>
      destruct (update_posting_list_spec s c n) as [Hdocs' Hpl']
  end.
  cbn [documents posting_list] in Hdocs', Hpl'.
  rewrite Hdocs', length_app. cbn [length].
  assert (documents self !! Z.of_nat (length parsed) = None) as Hfresh.
  { apply eq_None_not_Some. rewrite Hdom. lia. }
  split_and!.
  - lia.
  - rewrite map_size_insert_None by done. lia.
  - intros j. destruct (decide (j = length parsed)) as [->|Hj].
    + by rewrite lookup_insert_eq, list_lookup_middle.
    + rewrite lookup_insert_ne by lia. rewrite Hdoc.
      destruct (decide (j < length parsed)%nat).
      * by rewrite lookup_app_l.
      * rewrite !lookup_ge_None_2; [done| |lia]. rewrite length_app. simpl. lia.
  - intros x. rewrite lookup_insert_is_Some, Hdom. lia.
  - intros term x. destruct (Hpl' term) as [-> _].
    rewrite Hpl, occurs_snoc. done.
  - intros term. destruct (Hpl' term) as [_ ->]. rewrite Hkey.
    setoid_rewrite occurs_snoc. naive_solver.
Qed.

(** ** The index that [__init__] builds *)

Lemma occurs_range parsed term x :
  occurs parsed term x → 0 ≤ x < Z.of_nat (length parsed).
Proof.
  intros (j & d & -> & Hj%lookup_lt_Some & _). lia.
Qed.

Section init.
Context (list_of_set : gset Z → list Z).
Hypothesis list_of_set_elements : set_order list_of_set.

(** [__init__] returns: no lookup of a document in the sort key fails. *)
Lemma InvertedIndex_init_returns parsed :
  InvertedIndex_init list_of_set parsed =
    Return
      {| documents :=
           documents (foldl index_document
                        ({| documents := ∅; posting_list := ∅ |}, 0) parsed).1;
         posting_list :=
           (λ doc_ids, sort_by_key Z_lt id (list_of_set (list_to_set doc_ids)))
             <$> posting_list
                   (foldl index_document
                      ({| documents := ∅; posting_list := ∅ |}, 0) parsed).1 |}.
Proof.
  unfold InvertedIndex_init.
  pose proof (index_documents_spec parsed) as (_ & _ & _ & Hdom & Hpl & _).
  destruct (foldl index_document _ parsed) as [self i]. cbn [fst snd] in *.
  apply sort_posting_list_spec; [done|].
  intros term doc_ids x Hterm Hx. apply Hdom.
  apply (occurs_range parsed term), Hpl. by rewrite Hterm.
Qed.

Lemma InvertedIndex_init_spec parsed :
  ∃ self,
    InvertedIndex_init list_of_set parsed = Return self ∧
    size (documents self) = length parsed ∧
    (∀ j : nat, documents self !! Z.of_nat j = document_of <$> parsed !! j) ∧
    (∀ x, is_Some (documents self !! x) ↔ 0 ≤ x < Z.of_nat (length parsed)) ∧
    (∀ term ids, posting_list self !! term = Some ids →
                 StronglySorted Z.lt ids ∧ ∀ x, x ∈ ids ↔ occurs parsed term x) ∧
    (∀ term, is_Some (posting_list self !! term) ↔ ∃ x, occurs parsed term x).
Proof.
  eexists. split; [apply InvertedIndex_init_returns|].
  pose proof (index_documents_spec parsed)
    as (_ & Hsize & Hdoc & Hdom & Hpl & Hkey).
  destruct (foldl index_document _ parsed) as [self i].
  cbn [fst snd documents posting_list] in *.
  split_and!; try done.
  - intros term ids. rewrite lookup_fmap.
    destruct (posting_list self !! term) as [doc_ids|] eqn:Hterm; [|done].
    intros [= <-]. split.
    + by apply sort_by_key_Z_ascending, NoDup_list_of_set.
    + intros x. rewrite sort_by_key_Permutation, elem_of_list_of_set by done.
      by rewrite <-Hpl, Hterm.
  - intros term. by rewrite lookup_fmap, fmap_is_Some.
Qed.
End init.

(** C7. When [__init__] has returned, every posting list of the index is
    strictly ascending, without a repeated value, and each of its IDs is
    the ID of a document: it lies in 0, ..., N-1 for the number N of
    documents indexed. *)
Theorem posting_lists_ascending_and_valid
    (list_of_set : gset Z → list Z) (parsed : list (string * string)) :
  set_order list_of_set →
  ∃ self,
    InvertedIndex_init list_of_set parsed = Return self ∧
    size (documents self) = length parsed ∧
    ∀ term ids,
      posting_list self !! term = Some ids →
      strictly_ascending ids ∧ NoDup ids ∧
      ∀ x, x ∈ ids →
           0 ≤ x < Z.of_nat (size (documents self)) ∧
           is_Some (documents self !! x).
Proof.
  intros Horder.
  destruct (InvertedIndex_init_spec _ Horder parsed)
    as (self & Hinit & Hsize & _ & Hdom & Hpl & _).
  exists self. split_and!; [done..|].
  intros term ids [Hasc Hin]%Hpl. split_and!.
  - by apply strictly_ascending_strongly.
  - by apply strictly_ascending_NoDup.
  - intros x Hx%Hin%occurs_range. rewrite Hsize, Hdom. done.
Qed.

Lemma elements_set_order : set_order elements.
Proof. by intros s. Qed.

Lemma posting_lists_ascending_and_valid_witness :
  set_order elements ∧
  InvertedIndex_init elements example_parsed = Return example_index ∧
  strictly_ascending [0; 2].
Proof.
  destruct (posting_lists_ascending_and_valid elements example_parsed
              elements_set_order) as (self & Hinit & _ & Hpl).
  split_and!; [exact elements_set_order|vm_compute; reflexivity|].
  assert (self = example_index) as ->.
  { assert (InvertedIndex_init elements example_parsed = Return example_index)
      as Heq by (vm_compute; reflexivity).
    rewrite Heq in Hinit. by injection Hinit. }
  apply (Hpl "cat"%string [0; 2]). vm_compute. reflexivity.
Defined.

(** C10. The index that [__init__] builds is a function of the sequence
    of parsed documents: two runs on one sequence, whatever the order in
    which each of them iterates its sets, return the same index. In it the
    document at position [i] of the sequence, counting from 0, has the ID
    [i], and the posting list of a term is the strictly ascending list of
    the IDs of the documents the term occurs in. *)
Theorem index_construction_deterministic
    (order1 order2 : gset Z → list Z) (parsed : list (string * string)) :
  set_order order1 → set_order order2 →
  ∃ self,
    InvertedIndex_init order1 parsed = Return self ∧
    InvertedIndex_init order2 parsed = Return self ∧
    (∀ i : nat, documents self !! Z.of_nat i = document_of <$> parsed !! i) ∧
    (∀ x, is_Some (documents self !! x) ↔ 0 ≤ x < Z.of_nat (length parsed)) ∧
    (∀ term ids, posting_list self !! term = Some ids →
                 strictly_ascending ids ∧ ∀ x, x ∈ ids ↔ occurs parsed term x) ∧
    (∀ term, is_Some (posting_list self !! term) ↔ ∃ x, occurs parsed term x).
Proof.
  intros Horder1 Horder2.
  destruct (InvertedIndex_init_spec _ Horder1 parsed)
    as (self & Hinit & _ & Hdoc & Hdom & Hpl & Hkey).
  exists self. split_and!; try done.
  - rewrite InvertedIndex_init_returns in Hinit |- * by done.
    injection Hinit as <-. do 2 f_equal. cbn [posting_list] in *.
    apply map_fmap_ext. intros term doc_ids Hterm.
    apply strictly_ascending_ext.
    + by apply sort_by_key_Z_ascending, NoDup_list_of_set.
    + by apply sort_by_key_Z_ascending, NoDup_list_of_set.
    + intros x. by rewrite !sort_by_key_Permutation, !elem_of_list_of_set.
  - intros term ids [Hasc Hin]%Hpl. split; [|done].
    by apply strictly_ascending_strongly.
Qed.

Lemma reverse_elements_set_order : set_order (reverse ∘ elements).
Proof. intros s. simpl. apply reverse_Permutation. Qed.

Lemma index_construction_deterministic_witness :
  set_order elements ∧ set_order (reverse ∘ elements) ∧
  InvertedIndex_init elements example_parsed =
    InvertedIndex_init (reverse ∘ elements) example_parsed.
Proof.
  destruct (index_construction_deterministic elements (reverse ∘ elements)
              example_parsed elements_set_order reverse_elements_set_order)
    as (self & Hinit1 & Hinit2 & _).
  split_and!; [exact elements_set_order|exact reverse_elements_set_order|].
  etrans; [exact Hinit1|symmetry; exact Hinit2].
Defined.

(** ** The order of the keys [(cardinality, term)] *)

Lemma string_ltb_false (s t : string) : String.ltb t s = false ↔ String.le s t.
Proof.
  unfold String.le, String.ltb, String.leb.
  rewrite (String.compare_antisym s t).
  destruct (String.compare t s); simpl; naive_solver.
Qed.

Lemma freq_key_lt_false k1 k2 :
  freq_key_lt k1 k2 = false ↔
    k2.1 < k1.1 ∨ (k2.1 = k1.1 ∧ String.le k2.2 k1.2).
Proof.
  unfold freq_key_lt.
  rewrite orb_false_iff, andb_false_iff, !bool_decide_eq_false, string_ltb_false.
  split.
  - intros [? [?|?]]; [left; lia|].
    destruct (decide (k1.1 = k2.1)); [right; by split|left; lia].
  - intros [?|[? ?]]; (split; [lia|]); [left; lia|by right].
Qed.

Lemma freq_key_lt_asym k1 k2 :
  freq_key_lt k1 k2 = true → freq_key_lt k2 k1 = false.
Proof.
  rewrite freq_key_lt_false. unfold freq_key_lt.
  rewrite orb_true_iff, andb_true_iff, !bool_decide_eq_true.
  intros [?|[? Hlt]]; [by left|right]. split; [done|].
  destruct (total String.le k1.2 k2.2) as [?|Hle]; [done|].
  apply string_ltb_false in Hle. congruence.
Qed.

Lemma freq_key_le_trans k1 k2 k3 :
  freq_key_lt k2 k1 = false → freq_key_lt k3 k2 = false →
  freq_key_lt k3 k1 = false.
Proof.
  rewrite !freq_key_lt_false.
  intros [?|[? ?]] [?|[? ?]]; try (left; lia).
  right. split; [lia|]. by etrans.
Qed.

Lemma freq_key_lt_total k1 k2 :
  freq_key_lt k1 k2 = false → freq_key_lt k2 k1 = false → k1 = k2.
Proof.
  rewrite !freq_key_lt_false. destruct k1 as [c1 t1], k2 as [c2 t2]. simpl.
  intros [?|[? ?]] [?|[? ?]]; try lia.
  f_equal; [done|]. by apply (anti_symm String.le).
Qed.

(** ** [top_bottom_n_terms] *)

Lemma slice_to_take {A} (l : list A) n :
  0 ≤ n → slice_to l n = take (Z.to_nat n) l.
Proof. intros Hn. unfold slice_to. by rewrite bool_decide_eq_false_2 by lia. Qed.

Lemma StronglySorted_strict {A} (R : relation A) l :
  StronglySorted R l → NoDup l → StronglySorted (λ a b, R a b ∧ a ≠ b) l.
Proof.
  induction 1 as [|x l _ IH Hx]; [constructor|].
  intros [Hnin Hnodup]%NoDup_cons. constructor; [by auto|].
  rewrite Forall_forall in Hx |- *. intros y Hy. split; [by auto|].
  by intros ->.
Qed.

Lemma StronglySorted_weaken {A} (R R' : relation A) l :
  (∀ a b, R a b → R' a b) → StronglySorted R l → StronglySorted R' l.
Proof.
  intros HR. induction 1 as [|x l _ IH Hx]; constructor; [done|].
  eapply Forall_impl; [done|]. auto.
Qed.

Lemma ranked_sorted top (l : list (string * Z)) :
  NoDup l →
  StronglySorted (ranked_before top)
    (sorted freq_key_lt (λ p : string * Z, (p.2, p.1)) top l).
Proof.
  intros Hl.
  pose proof (sorted_sorted freq_key_lt (λ p : string * Z, (p.2, p.1))
                freq_key_lt_asym freq_key_le_trans top l) as Hsorted.
  apply StronglySorted_strict in Hsorted;
    [|by rewrite sorted_Permutation].
  eapply StronglySorted_weaken; [|done]. clear. intros [t1 c1] [t2 c2].
  unfold ranked_before, freq_key, not_after.
  destruct top; simpl; intros [Hle Hne];
    match goal with
    | |- ?lt = true => destruct lt eqn:Hlt; [done|]
    end;
    pose proof (freq_key_lt_total _ _ Hlt Hle); simplify_eq.
Qed.

Lemma ranked_unique top (l l' : list (string * Z)) :
  l ≡ₚ l' →
  sorted freq_key_lt (λ p : string * Z, (p.2, p.1)) top l =
  sorted freq_key_lt (λ p : string * Z, (p.2, p.1)) top l'.
Proof.
  intros Hperm.
  apply sorted_unique; [apply freq_key_lt_asym|apply freq_key_le_trans| |done].
  intros [t1 c1] [t2 c2] _ _ H1 H2.
  pose proof (freq_key_lt_total _ _ H2 H1). by simplify_eq/=.
Qed.

(** C8. For a count [n], [top_bottom_n_terms] returns the first [n]
    entries of the pairs (term, cardinality) in the order of the key
    (cardinality, term), descending when [top] is set and ascending
    otherwise, and all the entries when there are fewer than [n]. For
    three terms a, b, c with 5, 3 and 5 documents, the top two are c and
    a, the bottom two b and a. *)
Theorem top_bottom_n_terms_ranked
    (self : InvertedIndex) (n : Z) (top : bool) :
  0 ≤ n →
  (∃ rest,
     top_bottom_n_terms self n top ++ rest ≡ₚ map_to_list (cardinalities self) ∧
     StronglySorted (ranked_before top) (top_bottom_n_terms self n top ++ rest) ∧
     length (top_bottom_n_terms self n top) =
       (Z.to_nat n `min` size (posting_list self))%nat ∧
     (Z.of_nat (size (posting_list self)) ≤ n → rest = [])) ∧
  (∀ (docs : gmap Z Document) (la lb lc : list Z),
     length la = 5%nat → length lb = 3%nat → length lc = 5%nat →
     top_bottom_n_terms
       {| documents := docs;
          posting_list :=
            <["a"%string := la]> (<["b"%string := lb]> (<["c"%string := lc]> ∅)) |}
       2 true = [("c"%string, 5); ("a"%string, 5)] ∧
     top_bottom_n_terms
       {| documents := docs;
          posting_list :=
            <["a"%string := la]> (<["b"%string := lb]> (<["c"%string := lc]> ∅)) |}
       2 false = [("b"%string, 3); ("a"%string, 5)]).
Proof.
  intros Hn. split.
  - unfold top_bottom_n_terms. fold (cardinalities self).
    rewrite slice_to_take by done.
    set (ranked := sorted freq_key_lt _ top (map_to_list (cardinalities self))).
    assert (ranked ≡ₚ map_to_list (cardinalities self)) as Hperm
      by apply sorted_Permutation.
    assert (length ranked = size (posting_list self)) as Hlen.
    { rewrite Hperm, length_map_to_list. unfold cardinalities.
      by rewrite map_size_fmap. }
    exists (drop (Z.to_nat n) ranked). rewrite take_drop. split_and!.
    + done.
    + apply ranked_sorted, NoDup_map_to_list.
    + rewrite length_take. lia.
    + intros Hsize. apply drop_ge. lia.
  - intros docs la lb lc Ha Hb Hc.
    assert (∀ top,
      top_bottom_n_terms
        {| documents := docs;
           posting_list :=
             <["a"%string := la]> (<["b"%string := lb]> (<["c"%string := lc]> ∅)) |}
        2 top =
      slice_to (sorted freq_key_lt (λ p : string * Z, (p.2, p.1)) top
                  [("a"%string, 5); ("b"%string, 3); ("c"%string, 5)]) 2) as Heq.
    { intros top'. unfold top_bottom_n_terms. cbn [posting_list]. f_equal.
      apply ranked_unique.
      rewrite !fmap_insert, fmap_empty, Ha, Hb, Hc.
      rewrite !map_to_list_insert, map_to_list_empty; [done|..];
        by simplify_map_eq. }
    rewrite !Heq. split; vm_compute; reflexivity.
Qed.

Lemma top_bottom_n_terms_ranked_witness :
  0 ≤ 2 ∧
  top_bottom_n_terms
    {| documents := ∅;
       posting_list :=
         <["a"%string := [0; 1; 2; 3; 4]]>
           (<["b"%string := [0; 2; 4]]> (<["c"%string := [1; 2; 3; 4; 5]]> ∅)) |}
    2 true = [("c"%string, 5); ("a"%string, 5)] ∧
  top_bottom_n_terms
    {| documents := ∅;
       posting_list :=
         <["a"%string := [0; 1; 2; 3; 4]]>
           (<["b"%string := [0; 2; 4]]> (<["c"%string := [1; 2; 3; 4; 5]]> ∅)) |}
    2 false = [("b"%string, 3); ("a"%string, 5)].
Proof.
  assert (0 ≤ 2) as Hn by lia.
  split; [exact Hn|].
  apply (proj2 (top_bottom_n_terms_ranked example_index 2 true Hn));
    reflexivity.
Defined.

(** * Further properties *)

(** ** Queries do not influence one another *)

Lemma eval_word_agree all_docs pl1 pl2 stack word :
  (∀ w, default [] (pl1 !! lower w) = default [] (pl2 !! lower w)) →
  (eval_word all_docs pl1 stack word).2 = (eval_word all_docs pl2 stack word).2.
Proof.
  intros Hagree. destruct (decide (word ∈ operators)) as [Hop|Hterm].
  - apply operators_cases in Hop as [->|[->| ->]];
      by rewrite ?eval_word_AND, ?eval_word_OR, ?eval_word_NOT.
  - rewrite !eval_word_term by done. cbn [snd]. by rewrite Hagree.
Qed.

Lemma eval_words_agree all_docs query pl1 pl2 stack :
  (∀ w, default [] (pl1 !! lower w) = default [] (pl2 !! lower w)) →
  (eval_words all_docs pl1 stack query).2 = (eval_words all_docs pl2 stack query).2.
Proof.
  revert pl1 pl2 stack. induction query as [|word query IH];
    intros pl1 pl2 stack Hagree; [done|].
  cbn [eval_words].
  pose proof (eval_word_agree all_docs pl1 pl2 stack word Hagree) as Hword.
  destruct (eval_word_store all_docs pl1 stack word) as [_ H1].
  destruct (eval_word_store all_docs pl2 stack word) as [_ H2].
  destruct (eval_word all_docs pl1 stack word) as [pl1' r1].
  destruct (eval_word all_docs pl2 stack word) as [pl2' r2].
  cbn [fst snd] in *. subst r2. destruct r1 as [stack'|e]; [|done].
  apply IH. intros w. by rewrite H1, H2.
Qed.

Lemma eval_boolean_query_all_docs self query :
  all_docs (eval_boolean_query self query).1 = all_docs self.
Proof. unfold eval_boolean_query. by destruct (eval_words _ _ _ _). Qed.

Lemma eval_boolean_query_documents self query :
  documents (inverted_index (eval_boolean_query self query).1) =
    documents (inverted_index self).
Proof. unfold eval_boolean_query. by destruct (eval_words _ _ _ _). Qed.

(** X1. The result of a query does not depend on the queries evaluated
    before it on the same object: the keys those queries may have stored
    in the index do not change any result, and [all_docs] and the
    documents stay as they are. *)
Theorem eval_boolean_query_independent
    (self : BooleanRetrieval) (query1 query2 : string) :
  (eval_boolean_query (eval_boolean_query self query1).1 query2).2 =
    (eval_boolean_query self query2).2 ∧
  all_docs (eval_boolean_query self query1).1 = all_docs self ∧
  documents (inverted_index (eval_boolean_query self query1).1) =
    documents (inverted_index self).
Proof.
  split_and!.
  - rewrite !eval_boolean_query_result, eval_boolean_query_store. f_equal.
    rewrite eval_boolean_query_all_docs.
    apply eval_words_agree. intros w. apply eval_words_store.
  - apply eval_boolean_query_all_docs.
  - apply eval_boolean_query_documents.
Qed.

(** ** Results are valid posting lists *)

Lemma valid_ids_nil N : valid_ids N [].
Proof. split; [constructor|]. intros x. by rewrite elem_of_nil. Qed.

Lemma valid_ids_universe N : valid_ids N (universe N).
Proof.
  split.
  - apply strictly_ascending_strongly, universe_ascending.
  - intros x. unfold universe. rewrite elem_of_seqZ. lia.
Qed.

Lemma valid_ids_sublist N ids ids' :
  ids' `sublist_of` ids → valid_ids N ids → valid_ids N ids'.
Proof.
  intros Hsub [Hasc Hin]. split.
  - apply strictly_ascending_strongly.
    eapply strictly_ascending_sublist; [done|].
    by apply strictly_ascending_strongly.
  - intros x Hx. apply Hin. by eapply elem_of_sublist.
Qed.

Lemma valid_ids_and N A B : valid_ids N A → valid_ids N (and_query A B).
Proof.
  rewrite and_query_merge. apply valid_ids_sublist, and_merge_sublist_l.
Qed.

Lemma valid_ids_or N A B :
  valid_ids N A → valid_ids N B → valid_ids N (or_query A B).
Proof.
  rewrite or_query_merge. intros [HA HinA] [HB HinB]. split.
  - apply strictly_ascending_strongly, or_merge_ascending;
      by apply strictly_ascending_strongly.
  - intros x [?|?]%elem_of_or_merge; auto.
Qed.

Lemma valid_ids_not N B : valid_ids N (not_query (universe N) B).
Proof.
  rewrite not_query_merge.
  eapply valid_ids_sublist; [apply not_merge_sublist|apply valid_ids_universe].
Qed.

Lemma eval_word_valid N pl stack word :
  (∀ term ids, pl !! term = Some ids → valid_ids N ids) →
  Forall (valid_ids N) stack →
  (∀ term ids, (eval_word (universe N) pl stack word).1 !! term = Some ids →
               valid_ids N ids) ∧
  ∀ stack', (eval_word (universe N) pl stack word).2 = Return stack' →
            Forall (valid_ids N) stack'.
Proof.
  intros Hpl Hstack. destruct (decide (word ∈ operators)) as [Hop|Hterm].
  - apply operators_cases in Hop as [->|[->| ->]];
      rewrite ?eval_word_AND, ?eval_word_OR, ?eval_word_NOT;
      (split; [done|]); intros stack';
      destruct Hstack as [|list2 ? H2 [|list1 ? H1 Hstack]]; try done;
      intros [= <-]; constructor;
      auto using valid_ids_and, valid_ids_or, valid_ids_not.
  - rewrite eval_word_term by done. cbn [fst snd]. split.
    + intros term ids. rewrite defaultdict_getitem_store.
      destruct (pl !! lower word) eqn:Hw; [by apply Hpl|].
      destruct (decide (lower word = term)) as [<-|Hne].
      * rewrite lookup_insert_eq. intros [= <-]. apply valid_ids_nil.
      * rewrite lookup_insert_ne by done. apply Hpl.
    + intros stack' [= <-]. constructor; [|done].
      destruct (pl !! lower word) eqn:Hw; simpl; [by eapply Hpl|].
      apply valid_ids_nil.
Qed.

Lemma eval_words_valid N query pl stack :
  (∀ term ids, pl !! term = Some ids → valid_ids N ids) →
  Forall (valid_ids N) stack →
  (∀ term ids, (eval_words (universe N) pl stack query).1 !! term = Some ids →
               valid_ids N ids) ∧
  ∀ stack', (eval_words (universe N) pl stack query).2 = Return stack' →
            Forall (valid_ids N) stack'.
Proof.
  revert pl stack. induction query as [|word query IH]; intros pl stack Hpl Hstack.
  { split; [done|]. by intros stack' [= <-]. }
  cbn [eval_words].
  destruct (eval_word_valid N pl stack word Hpl Hstack) as [Hpl' Hstack'].
  destruct (eval_word (universe N) pl stack word) as [pl' [stack1|e]];
    cbn [fst snd] in *; [|by split].
  apply IH; auto.
Qed.

Lemma eval_finish_valid N stack ids :
  Forall (valid_ids N) stack → eval_finish stack = Return ids → valid_ids N ids.
Proof.
  rewrite eval_finish_returns.
  destruct 1 as [|list2 ? H2 [|list1 ? H1 [|? ? ? ?]]]; try done;
    intros [= <-]; auto using valid_ids_and.
Qed.

Lemma eval_boolean_query_result_valid N self query ids :
  valid_retrieval N self →
  (eval_boolean_query self query).2 = Return ids → valid_ids N ids.
Proof.
  intros [Hall Hpl]. rewrite eval_boolean_query_result, Hall.
  destruct (eval_words_valid N (query_words query)
              (posting_list (inverted_index self)) [] Hpl) as [_ Hstack'];
    [constructor|].
  destruct (eval_words _ _ _ _) as [pl' [stack'|e]]; cbn [fst snd] in *; [|done].
  apply eval_finish_valid. by apply Hstack'.
Qed.

(** X2. On an object over [N] documents with valid posting lists, every
    result of a query is strictly ascending with IDs among 0, ..., N-1,
    and the object is left with valid posting lists: what a query stores
    in the index keeps later results valid. *)
Theorem eval_boolean_query_valid
    (N : nat) (self : BooleanRetrieval) (query : string) :
  valid_retrieval N self →
  valid_retrieval N (eval_boolean_query self query).1 ∧
  ∀ ids, (eval_boolean_query self query).2 = Return ids → valid_ids N ids.
Proof.
  intros Hvalid. split.
  - destruct Hvalid as [Hall Hpl]. unfold valid_retrieval.
    rewrite eval_boolean_query_store, eval_boolean_query_all_docs.
    split; [done|]. rewrite Hall.
    by apply (eval_words_valid N (query_words query)
                (posting_list (inverted_index self)) []).
  - intros ids. by apply eval_boolean_query_result_valid.
Qed.

Lemma example_retrieval_valid :
  valid_retrieval 3 (BooleanRetrieval_init example_index).
Proof.
  split; [reflexivity|].
  intros term ids Hterm.
  apply (elem_of_map_to_list (posting_list example_index)) in Hterm.
  assert (map_to_list (posting_list example_index) =
            [("cat", [0; 2]); ("bird", [1; 2]); ("dog", [0; 1])]%string) as Heq
    by (vm_compute; reflexivity).
  rewrite Heq in Hterm. clear Heq.
  rewrite !elem_of_cons, elem_of_nil in Hterm.
  destruct Hterm as [Heq|[Heq|[Heq|[]]]]; injection Heq as -> ->;
    (split; [unfold strictly_ascending; ascending
            |intros x; rewrite !elem_of_cons, elem_of_nil; lia]).
Qed.

Lemma eval_boolean_query_valid_witness :
  valid_retrieval 3 (BooleanRetrieval_init example_index) ∧
  valid_ids 3 [0; 1; 2].
Proof.
  split; [exact example_retrieval_valid|].
  apply (proj2 (eval_boolean_query_valid 3 _ "cat bird OR" example_retrieval_valid)).
  vm_compute. reflexivity.
Defined.

(** ** [run_query] on a built index *)

Lemma mapM_fmap_lookup {A B} (f : A → option B) (g : A → B) l :
  (∀ x, x ∈ l → f x = Some (g x)) → mapM f l = Some (g <$> l).
Proof.
  intros Hf. apply mapM_Some_2.
  induction l as [|x l IH]; csimpl; constructor.
  - apply Hf. by left.
  - apply IH. intros y Hy. apply Hf. by right.
Qed.

Lemma built_index_valid list_of_set parsed idx :
  set_order list_of_set →
  InvertedIndex_init list_of_set parsed = Return idx →
  valid_retrieval (length parsed) (BooleanRetrieval_init idx) ∧
  ∀ x, 0 ≤ x < Z.of_nat (length parsed) →
       internal_id <$> documents idx !! x = Some (original_id parsed x).
Proof.
  intros Horder Hinit.
  destruct (InvertedIndex_init_spec _ Horder parsed)
    as (idx' & Hinit' & Hsize & Hdoc & Hdom & Hpl & _).
  rewrite Hinit in Hinit'. injection Hinit' as <-. split.
  - split.
    + unfold BooleanRetrieval_init, universe. simpl. by rewrite Hsize.
    + intros term ids [Hasc Hin]%Hpl. split.
      * by apply strictly_ascending_strongly.
      * intros x Hx%Hin. by eapply occurs_range.
  - intros x Hx. unfold original_id.
    replace x with (Z.of_nat (Z.to_nat x)) at 1 by lia. rewrite Hdoc.
    destruct (lookup_lt_is_Some_2 parsed (Z.to_nat x)) as [d ->]; [lia|done].
Qed.

Lemma eval_words_IndexError all_docs query pl stack e :
  (eval_words all_docs pl stack query).2 = Raise e → e = IndexError.
Proof.
  revert pl stack. induction query as [|word query IH]; intros pl stack.
  { done. }
  cbn [eval_words].
  destruct (eval_word all_docs pl stack word) as [pl' [stack'|e']] eqn:Hword;
    [apply IH|].
  cbn [snd]. intros [= <-].
  apply (f_equal snd) in Hword. cbn [snd] in Hword.
  destruct (decide (word ∈ operators)) as [Hop|Hterm].
  - apply operators_cases in Hop as [->|[->| ->]];
      rewrite ?eval_word_AND, ?eval_word_OR, ?eval_word_NOT in Hword;
      destruct stack as [|? [|? ?]]; cbn [snd] in Hword; congruence.
  - rewrite eval_word_term in Hword by done. done.
Qed.

(** X3. On an index that [__init__] has built, [run_query] raises only
    when [eval_boolean_query] does (an [IndexError] of a stack underflow,
    never a [KeyError]); otherwise it returns, in the order of the result,
    the stripped original identifier of the document at the position each
    ID names. *)
Theorem run_query_original_ids
    (list_of_set : gset Z → list Z) (parsed : list (string * string))
    (idx : InvertedIndex) (query : string) :
  set_order list_of_set →
  InvertedIndex_init list_of_set parsed = Return idx →
  (run_query (BooleanRetrieval_init idx) query).2 =
    match (eval_boolean_query (BooleanRetrieval_init idx) query).2 with
    | Return ids => Return (original_id parsed <$> ids)
    | Raise e => Raise e
    end ∧
  (raises (run_query (BooleanRetrieval_init idx) query).2 ↔ underflow query) ∧
  (∀ e, (run_query (BooleanRetrieval_init idx) query).2 = Raise e →
        e = IndexError).
Proof.
  intros Horder Hinit.
  destruct (built_index_valid _ _ _ Horder Hinit) as [Hvalid Hid].
  pose proof (eval_boolean_query_documents (BooleanRetrieval_init idx) query)
    as Hdocs.
  pose proof (λ ids, eval_boolean_query_result_valid (length parsed)
                       (BooleanRetrieval_init idx) query ids Hvalid) as Hids.
  assert ((run_query (BooleanRetrieval_init idx) query).2 =
    match (eval_boolean_query (BooleanRetrieval_init idx) query).2 with
    | Return ids => Return (original_id parsed <$> ids)
    | Raise e => Raise e
    end) as Hrun.
  { unfold run_query.
    destruct (eval_boolean_query (BooleanRetrieval_init idx) query) as [self' r].
    cbn [fst snd] in *. destruct r as [ids|e]; [|done]. simpl.
    rewrite (mapM_fmap_lookup _ (original_id parsed)); [done|].
    intros x Hx. rewrite Hdocs. apply Hid. by apply (Hids ids). }
  split; [done|]. rewrite Hrun.
  pose proof (eval_words_depth (all_docs (BooleanRetrieval_init idx))
                (query_words query) (posting_list idx) []) as Hdepth.
  pose proof (λ n, stack_depth_positive (query_words query) 0 n
                     (query_words_nonempty query)) as Hpos.
  pose proof (λ e, eval_words_IndexError
                     (all_docs (BooleanRetrieval_init idx)) (query_words query)
                     (posting_list idx) [] e) as Hindex.
  unfold underflow, final_stack_size. rewrite eval_boolean_query_result.
  change (inverted_index (BooleanRetrieval_init idx)) with idx.
  destruct (eval_words _ _ _ _) as [pl' [stack'|e]]; cbn [snd length] in *.
  - rewrite Hdepth. specialize (Hpos _ Hdepth).
    change (Return stack' ≫= eval_finish) with (eval_finish stack').
    rewrite eval_finish_returns.
    split; [split; [|done]; intros [e He]|intros e He];
      destruct stack' as [|? [|? [|? ?]]]; simpl in *; (lia || discriminate).
  - rewrite Hdepth. split; [split; [done|]; intros _; by exists e|].
    intros e' [= <-]. by apply Hindex.
Qed.

Lemma run_query_original_ids_witness :
  set_order elements ∧
  InvertedIndex_init elements example_parsed = Return example_index ∧
  (run_query (BooleanRetrieval_init example_index) "bird dog OR NOT NOT").2
    = Return (original_id example_parsed <$> [0; 1; 2]).
Proof.
  assert (InvertedIndex_init elements example_parsed = Return example_index)
    as Hinit by (vm_compute; reflexivity).
  split_and!; [exact elements_set_order|exact Hinit|].
  etrans;
    [exact (proj1 (run_query_original_ids elements example_parsed example_index
                     "bird dog OR NOT NOT" elements_set_order Hinit))|].
  vm_compute. reflexivity.
Defined.

(** ** A query as an expression on sets *)

Lemma list_to_set_and_query (A B : list Z) :
  StronglySorted Z.lt A → StronglySorted Z.lt B →
  (list_to_set (and_query A B) : gset Z) = list_to_set A ∩ list_to_set B.
Proof.
  intros HA HB. apply set_eq. intros x.
  by rewrite elem_of_intersection, !elem_of_list_to_set, and_query_merge,
    elem_of_and_merge.
Qed.

Lemma list_to_set_or_query (A B : list Z) :
  (list_to_set (or_query A B) : gset Z) = list_to_set A ∪ list_to_set B.
Proof.
  apply set_eq. intros x.
  by rewrite elem_of_union, !elem_of_list_to_set, or_query_merge,
    elem_of_or_merge.
Qed.

Lemma list_to_set_not_query (U B : list Z) :
  StronglySorted Z.lt U → StronglySorted Z.lt B →
  (list_to_set (not_query U B) : gset Z) = list_to_set U ∖ list_to_set B.
Proof.
  intros HU HB. apply set_eq. intros x.
  by rewrite elem_of_difference, !elem_of_list_to_set, not_query_merge,
    elem_of_not_merge.
Qed.

Lemma valid_ids_ascending N ids : valid_ids N ids → StronglySorted Z.lt ids.
Proof. intros [Hasc _]. by apply strictly_ascending_strongly. Qed.

Lemma eval_word_sets N pl stack word (P : string → gset Z) :
  (∀ w, P (lower w) = list_to_set (default [] (pl !! lower w))) →
  Forall (valid_ids N) stack →
  match (eval_word (universe N) pl stack word).2 with
  | Return stack' =>
      set_word (list_to_set (universe N)) P (list_to_set <$> stack) word
        = Some (list_to_set <$> stack')
  | Raise _ =>
      set_word (list_to_set (universe N)) P (list_to_set <$> stack) word = None
  end.
Proof.
  intros HP Hstack. unfold set_word.
  destruct (decide (word ∈ operators)) as [Hop|Hterm].
  - apply operators_cases in Hop as [->|[->| ->]];
      rewrite ?eval_word_AND, ?eval_word_OR, ?eval_word_NOT;
      match goal with
      | |- context [operands ?w] =>
          let k := eval vm_compute in (operands w) in
          change (operands w) with k; cbv iota
      end;
      destruct Hstack as [|list2 ? H2%valid_ids_ascending
                            [|list1 ? H1%valid_ids_ascending Hstack]];
      try done; cbn [snd fmap list_fmap];
      rewrite ?bool_decide_eq_true_2, ?bool_decide_eq_false_2 by done;
      rewrite ?fmap_cons;
      rewrite ?list_to_set_and_query, ?list_to_set_or_query,
        ?list_to_set_not_query by (done || apply universe_ascending); done.
  - rewrite eval_word_term by done. cbn [snd].
    apply operands_term in Hterm. by rewrite Hterm, fmap_cons, HP.
Qed.

Lemma eval_words_sets N query pl stack (P : string → gset Z) :
  (∀ term ids, pl !! term = Some ids → valid_ids N ids) →
  (∀ w, P (lower w) = list_to_set (default [] (pl !! lower w))) →
  Forall (valid_ids N) stack →
  match (eval_words (universe N) pl stack query).2 with
  | Return stack' =>
      set_words (list_to_set (universe N)) P (list_to_set <$> stack) query
        = Some (list_to_set <$> stack')
  | Raise _ =>
      set_words (list_to_set (universe N)) P (list_to_set <$> stack) query = None
  end.
Proof.
  revert pl stack. induction query as [|word query IH];
    intros pl stack Hpl HP Hstack; [done|].
  cbn [eval_words set_words].
  pose proof (eval_word_sets N pl stack word P HP Hstack) as Hword.
  destruct (eval_word_valid N pl stack word Hpl Hstack) as [Hpl' Hstack'].
  destruct (eval_word_store (universe N) pl stack word) as [_ Hget].
  destruct (eval_word (universe N) pl stack word) as [pl' [stack1|e]];
    cbn [fst snd] in *; rewrite Hword; [|done]. simpl.
  apply IH; [done| |by apply Hstack'].
  intros w. by rewrite Hget.
Qed.

(** X4. On an object over [N] documents with valid posting lists, a query
    evaluates to the set expression it spells: when the evaluation returns
    a list, its elements are the set that the query stands for, with AND
    as intersection, OR as union and NOT as complement in 0, ..., N-1; and
    it raises exactly when the set expression lacks an operand. *)
Theorem eval_boolean_query_set_semantics
    (N : nat) (self : BooleanRetrieval) (query : string) :
  valid_retrieval N self →
  match (eval_boolean_query self query).2 with
  | Return ids =>
      set_query (list_to_set (universe N)) (posting_set (inverted_index self))
        query = Some (list_to_set ids)
  | Raise _ =>
      set_query (list_to_set (universe N)) (posting_set (inverted_index self))
        query = None
  end.
Proof.
  intros [Hall Hpl]. rewrite eval_boolean_query_result, Hall. unfold set_query.
  pose proof (eval_words_sets N (query_words query)
                (posting_list (inverted_index self)) []
                (posting_set (inverted_index self)) Hpl
                (λ w, eq_refl) (Forall_nil_2 _)) as Hsets.
  rewrite fmap_nil in Hsets.
  destruct (eval_words_valid N (query_words query)
              (posting_list (inverted_index self)) [] Hpl) as [_ Hstack];
    [constructor|].
  destruct (eval_words _ _ _ _) as [pl' [stack'|e]]; cbn [fst snd] in *;
    rewrite Hsets; [|done].
  specialize (Hstack _ eq_refl).
  change (Return stack' ≫= eval_finish) with (eval_finish stack').
  rewrite eval_finish_returns. simpl.
  destruct Hstack as [|list2 ? H2%valid_ids_ascending
                        [|list1 ? H1%valid_ids_ascending [|? ? ? ?]]];
    try done.
  simpl. by rewrite list_to_set_and_query.
Qed.

Lemma eval_boolean_query_set_semantics_witness :
  valid_retrieval 3 (BooleanRetrieval_init example_index) ∧
  set_query (list_to_set (universe 3)) (posting_set example_index)
    "cat dog AND NOT" = Some (list_to_set [1; 2]).
Proof.
  split; [exact example_retrieval_valid|].
  exact (eval_boolean_query_set_semantics 3 (BooleanRetrieval_init example_index)
           "cat dog AND NOT" example_retrieval_valid).
Defined.

(** ** Terms with capital letters *)

Lemma lower_char_idempotent c : lower_char (lower_char c) = lower_char c.
Proof. by destruct c as [[] [] [] [] [] [] [] []]. Qed.

Lemma lower_idempotent s : lower (lower s) = lower s.
Proof.
  induction s as [|c s IH]; simpl; [done|].
  by rewrite lower_char_idempotent, IH.
Qed.

(** X5. The evaluation looks terms up in lower case only, while the index
    keeps the case of the documents: a term with a capital letter, one
    that [lower] changes, is never the key a query token reads, and every
    query has the result it has on the index without those terms. *)
Theorem eval_boolean_query_lowercase_only
    (self : BooleanRetrieval) (query : string) :
  (∀ word term, lower term ≠ term → lower word ≠ term) ∧
  (eval_boolean_query
     {| inverted_index := lowercase_terms (inverted_index self);
        all_docs := all_docs self |} query).2 =
    (eval_boolean_query self query).2.
Proof.
  split.
  - intros word term Hterm <-. by rewrite lower_idempotent in Hterm.
  - rewrite !eval_boolean_query_result. f_equal. cbn [all_docs inverted_index].
    apply eval_words_agree. intros w. unfold lowercase_terms. cbn [posting_list].
    rewrite map_lookup_filter.
    destruct (posting_list (inverted_index self) !! lower w) as [ids|]; [|done].
    simpl. rewrite option_guard_True; [done|]. simpl. apply lower_idempotent.
Qed.

Lemma eval_boolean_query_lowercase_only_witness :
  lower "Cat" ≠ "Cat"%string ∧ lower "CAT" ≠ "Cat"%string.
Proof.
  assert (lower "Cat" ≠ "Cat"%string) as Hcapital
    by (intros Heq; vm_compute in Heq; discriminate Heq).
  split; [exact Hcapital|].
  exact (proj1 (eval_boolean_query_lowercase_only
                  (BooleanRetrieval_init example_index) "cat")
           "CAT"%string "Cat"%string Hcapital).
Defined.

(** ** Queries with empty tokens *)

Lemma built_index_no_empty_term list_of_set parsed idx :
  set_order list_of_set →
  InvertedIndex_init list_of_set parsed = Return idx →
  posting_list idx !! EmptyString = None.
Proof.
  intros Horder Hinit.
  destruct (InvertedIndex_init_spec _ Horder parsed)
    as (idx' & Hinit' & _ & _ & _ & _ & Hkey).
  rewrite Hinit in Hinit'. injection Hinit' as <-.
  apply eq_None_not_Some. intros (x & j & d & _ & _ & Hin)%Hkey.
  by apply elem_of_split in Hin.
Qed.

Lemma empty_not_operator : EmptyString ∉ operators.
Proof.
  unfold operators. rewrite !elem_of_cons, elem_of_nil.
  intros [?|[?|[?|[]]]]; discriminate.
Qed.

(** X21. The empty string is not a term of a built index, and a query
    reads it as a term wherever a space has nothing next to it. On a
    built index the empty query therefore returns the empty list and
    raises nothing, and so does a query of one term with a space in front
    of it or after it: the empty posting list of the empty token is on
    the stack with that of the term, and the two are intersected. *)
Theorem eval_boolean_query_empty_token
    (list_of_set : gset Z → list Z) (parsed : list (string * string))
    (idx : InvertedIndex) (t : string) :
  set_order list_of_set →
  InvertedIndex_init list_of_set parsed = Return idx →
  term_token t →
  posting_list idx !! EmptyString = None ∧
  (eval_boolean_query (BooleanRetrieval_init idx) "").2 = Return [] ∧
  (eval_boolean_query (BooleanRetrieval_init idx) (t +:+ " ")).2 = Return [] ∧
  (eval_boolean_query (BooleanRetrieval_init idx) (" " +:+ t)).2 = Return [].
Proof.
  intros Horder Hinit (Hs & Hn & Hop).
  pose proof (built_index_no_empty_term _ _ _ Horder Hinit) as Hempty.
  pose proof empty_not_operator as Hnop.
  split_and!; [done|..]; rewrite eval_boolean_query_result.
  - change (query_words "") with [""%string]. cbn [eval_words].
    rewrite eval_word_term by done. cbn [snd lower].
    change (inverted_index (BooleanRetrieval_init idx)) with idx.
    by rewrite Hempty.
  - change (t +:+ " ") with (t +:+ String " " "").
    rewrite query_words_app by done. change (query_words "") with [""%string].
    rewrite eval_two_terms by done. cbn [lower].
    change (inverted_index (BooleanRetrieval_init idx)) with idx.
    rewrite Hempty. simpl.
    change (Return ?s ≫= eval_finish) with (eval_finish s).
    rewrite eval_finish_returns. by rewrite and_query_merge, and_merge_nil_r.
  - change (" " +:+ t) with ("" +:+ String " " t).
    rewrite query_words_app by done. rewrite query_words_token by done.
    rewrite eval_two_terms by done. cbn [lower].
    change (inverted_index (BooleanRetrieval_init idx)) with idx.
    rewrite Hempty. simpl.
    change (Return ?s ≫= eval_finish) with (eval_finish s).
    rewrite eval_finish_returns. by rewrite and_query_merge, and_merge_nil_l.
Qed.

Lemma eval_boolean_query_empty_token_witness :
  set_order elements ∧
  InvertedIndex_init elements example_parsed = Return example_index ∧
  term_token "cat" ∧
  (eval_boolean_query (BooleanRetrieval_init example_index) "cat").2
    = Return [0; 2] ∧
  (eval_boolean_query (BooleanRetrieval_init example_index) "cat ").2
    = Return [].
Proof.
  assert (InvertedIndex_init elements example_parsed = Return example_index)
    as Hinit by (vm_compute; reflexivity).
  assert (term_token "cat") as Hcat.
  { unfold term_token, operators. rewrite !elem_of_cons, elem_of_nil.
    split_and!; [reflexivity..|]. intros [?|[?|[?|[]]]]; discriminate. }
  split_and!; [exact elements_set_order|exact Hinit|exact Hcat
              |vm_compute; reflexivity|].
  exact (proj1 (proj2 (proj2
    (eval_boolean_query_empty_token elements example_parsed example_index "cat"
       elements_set_order Hinit Hcat)))).
Defined.

(** ** The merges on lists in any order *)

Lemma or_merge_comm A B : or_merge A B = or_merge B A.
Proof.
  revert B. induction A as [|x A IHA]; intros B;
    [by rewrite or_merge_nil_l, or_merge_nil_r|].
  induction B as [|y B IHB]; [done|].
  rewrite !or_merge_cons.
  repeat case_bool_decide; subst; try lia; try done.
  - by rewrite IHA.
  - by rewrite IHA.
  - by rewrite IHB.
Qed.

Lemma or_merge_length_l A B : (length A ≤ length (or_merge A B))%nat.
Proof.
  revert B. induction A as [|x A IHA]; intros B; [simpl; lia|].
  induction B as [|y B IHB]; [done|].
  rewrite or_merge_cons. repeat case_bool_decide; simpl in *.
  - specialize (IHA B). lia.
  - specialize (IHA (y :: B)). lia.
  - lia.
Qed.

(** X6. Whatever the order of the lists they are given, also with
    repeated values: [and_query] returns a subsequence of both lists and
    [not_query] one of [all_docs], so neither returns a value it was not
    given; [or_query] returns exactly the values of the two lists, is at
    least as long as the longer and at most as long as both together; and
    for AND and OR the order of the two arguments is immaterial. *)
Theorem merges_on_any_lists (A B : list Z) :
  and_query A B `sublist_of` A ∧
  and_query A B `sublist_of` B ∧
  not_query A B `sublist_of` A ∧
  (∀ x, x ∈ or_query A B ↔ x ∈ A ∨ x ∈ B) ∧
  (length A `max` length B ≤ length (or_query A B) ≤ length A + length B)%nat ∧
  and_query A B = and_query B A ∧
  or_query A B = or_query B A.
Proof.
  rewrite !and_query_merge, !or_query_merge, !not_query_merge. split_and!.
  - apply and_merge_sublist_l.
  - apply and_merge_sublist_r.
  - apply not_merge_sublist.
  - intros x. apply elem_of_or_merge.
  - pose proof (or_merge_length_l A B).
    pose proof (or_merge_length_l B A) as Hr. rewrite or_merge_comm in Hr. lia.
  - apply or_merge_length.
  - apply and_merge_comm.
  - apply or_merge_comm.
Qed.

(** ** The algebra of the merges on strictly ascending lists *)

Lemma and_merge_ascending A B :
  StronglySorted Z.lt A → StronglySorted Z.lt (and_merge A B).
Proof. apply strictly_ascending_sublist, and_merge_sublist_l. Qed.

Lemma not_merge_ascending U B :
  StronglySorted Z.lt U → StronglySorted Z.lt (not_merge U B).
Proof. apply strictly_ascending_sublist, not_merge_sublist. Qed.

Ltac merge_ext :=
  apply strictly_ascending_ext;
  [ auto using and_merge_ascending, or_merge_ascending, not_merge_ascending ..
  | intros ?;
    repeat first
      [ rewrite elem_of_and_merge
          by auto using and_merge_ascending, or_merge_ascending, not_merge_ascending
      | rewrite elem_of_or_merge
      | rewrite elem_of_not_merge
          by auto using and_merge_ascending, or_merge_ascending, not_merge_ascending ] ].

(** X7. On strictly ascending lists AND and OR are associative, each
    distributes over the other and each absorbs the other: a query may
    group its operands freely. *)
Theorem merges_lattice_laws (A B C : list Z) :
  strictly_ascending A → strictly_ascending B → strictly_ascending C →
  and_query (and_query A B) C = and_query A (and_query B C) ∧
  or_query (or_query A B) C = or_query A (or_query B C) ∧
  and_query A (or_query B C) = or_query (and_query A B) (and_query A C) ∧
  or_query A (and_query B C) = and_query (or_query A B) (or_query A C) ∧
  and_query A (or_query A B) = A ∧
  or_query A (and_query A B) = A.
Proof.
  rewrite !strictly_ascending_strongly, !and_query_merge, !or_query_merge.
  intros HA HB HC. split_and!; merge_ext; tauto.
Qed.

Lemma merges_lattice_laws_witness :
  strictly_ascending [0; 2] ∧ strictly_ascending [0; 1] ∧
  strictly_ascending [1; 2] ∧
  and_query [0; 2] (or_query [0; 1] [1; 2]) =
    or_query (and_query [0; 2] [0; 1]) (and_query [0; 2] [1; 2]).
Proof.
  assert (strictly_ascending [0; 2]) as HA by (unfold strictly_ascending; ascending).
  assert (strictly_ascending [0; 1]) as HB by (unfold strictly_ascending; ascending).
  assert (strictly_ascending [1; 2]) as HC by (unfold strictly_ascending; ascending).
  split_and!; [done..|].
  apply (merges_lattice_laws _ _ _ HA HB HC).
Defined.

(** X8. De Morgan's laws for the merges: on strictly ascending lists the
    complement of an AND is the OR of the complements, and the complement
    of an OR is the AND of the complements. *)
Theorem merges_de_morgan (U A B : list Z) :
  strictly_ascending U → strictly_ascending A → strictly_ascending B →
  not_query U (and_query A B) = or_query (not_query U A) (not_query U B) ∧
  not_query U (or_query A B) = and_query (not_query U A) (not_query U B).
Proof.
  rewrite !strictly_ascending_strongly, !and_query_merge, !or_query_merge,
    !not_query_merge.
  intros HU HA HB. split; merge_ext.
  - destruct (decide (x ∈ A)), (decide (x ∈ B)); tauto.
  - tauto.
Qed.

Lemma merges_de_morgan_witness :
  strictly_ascending [0; 1; 2; 3] ∧ strictly_ascending [0; 2] ∧
  strictly_ascending [2; 3] ∧
  not_query [0; 1; 2; 3] (and_query [0; 2] [2; 3]) = [0; 1; 3] ∧
  not_query [0; 1; 2; 3] (and_query [0; 2] [2; 3]) =
    or_query (not_query [0; 1; 2; 3] [0; 2]) (not_query [0; 1; 2; 3] [2; 3]).
Proof.
  assert (strictly_ascending [0; 1; 2; 3]) as HU by (unfold strictly_ascending; ascending).
  assert (strictly_ascending [0; 2]) as HA by (unfold strictly_ascending; ascending).
  assert (strictly_ascending [2; 3]) as HB by (unfold strictly_ascending; ascending).
  split_and!; [done..|reflexivity|].
  apply (merges_de_morgan _ _ _ HU HA HB).
Defined.

(** ** More on [top_bottom_n_terms] *)

Lemma top_bottom_n_terms_unfold self n top :
  top_bottom_n_terms self n top =
    slice_to (sorted freq_key_lt (λ p : string * Z, (p.2, p.1)) top
                (map_to_list (cardinalities self))) n.
Proof. reflexivity. Qed.

Lemma ranking_length self top :
  length (sorted freq_key_lt (λ p : string * Z, (p.2, p.1)) top
            (map_to_list (cardinalities self))) = size (posting_list self).
Proof.
  rewrite sorted_Permutation, length_map_to_list. unfold cardinalities.
  by rewrite map_size_fmap.
Qed.

Lemma top_bottom_n_terms_all self top :
  top_bottom_n_terms self (Z.of_nat (size (posting_list self))) top =
    sorted freq_key_lt (λ p : string * Z, (p.2, p.1)) top
      (map_to_list (cardinalities self)).
Proof.
  rewrite top_bottom_n_terms_unfold, slice_to_take by lia.
  apply take_ge. rewrite ranking_length. lia.
Qed.

(** X9. For a negative [n], [top_bottom_n_terms] returns the whole
    ranking without its last [-n] entries (nothing when there are no more
    entries than that), and for [n = 0] it returns nothing. *)
Theorem top_bottom_n_terms_negative
    (self : InvertedIndex) (n : Z) (top : bool) :
  n < 0 →
  top_bottom_n_terms self n top =
    take (size (posting_list self) - Z.to_nat (- n))
         (top_bottom_n_terms self (Z.of_nat (size (posting_list self))) top) ∧
  length (top_bottom_n_terms self n top) =
    (size (posting_list self) - Z.to_nat (- n))%nat ∧
  top_bottom_n_terms self 0 top = [].
Proof.
  intros Hn. rewrite top_bottom_n_terms_all, !top_bottom_n_terms_unfold.
  unfold slice_to. rewrite ranking_length.
  rewrite (bool_decide_eq_false_2 (0 < 0)) by lia.
  rewrite bool_decide_eq_true_2 by done.
  split_and!; [done| |done]. rewrite length_take, ranking_length. lia.
Qed.

Lemma top_bottom_n_terms_negative_witness :
  -1 < 0 ∧
  top_bottom_n_terms example_index (-1) true =
    [("dog"%string, 2); ("cat"%string, 2)].
Proof.
  assert (-1 < 0) as Hn by lia.
  split; [exact Hn|].
  etrans; [exact (proj1 (top_bottom_n_terms_negative example_index (-1) true Hn))|].
  vm_compute. reflexivity.
Defined.

Lemma ranking_reverse (l : list (string * Z)) :
  sorted freq_key_lt (λ p : string * Z, (p.2, p.1)) true l =
    List.rev (sorted freq_key_lt (λ p : string * Z, (p.2, p.1)) false l).
Proof.
  assert (sorted freq_key_lt (λ p : string * Z, (p.2, p.1)) false (List.rev l) =
          sorted freq_key_lt (λ p : string * Z, (p.2, p.1)) false l) as Hrev.
  { apply ranked_unique. symmetry. apply Permutation_rev. }
  unfold sorted in *. by rewrite Hrev.
Qed.

(** X10. The ranking from the top is the ranking from the bottom read
    backwards: for a count [n], [top_bottom_n_terms(n, top=True)] is the
    first [n] entries of the reversed full bottom ranking. *)
Theorem top_is_reversed_bottom (self : InvertedIndex) (n : Z) :
  0 ≤ n →
  top_bottom_n_terms self n true =
    take (Z.to_nat n)
      (List.rev
         (top_bottom_n_terms self (Z.of_nat (size (posting_list self))) false)).
Proof.
  intros Hn. rewrite top_bottom_n_terms_all, top_bottom_n_terms_unfold.
  by rewrite slice_to_take, ranking_reverse.
Qed.

Lemma top_is_reversed_bottom_witness :
  0 ≤ 2 ∧
  top_bottom_n_terms example_index 2 true =
    [("dog"%string, 2); ("cat"%string, 2)] ∧
  top_bottom_n_terms example_index 3 false =
    [("bird"%string, 2); ("cat"%string, 2); ("dog"%string, 2)].
Proof.
  assert (0 ≤ 2) as Hn by lia.
  split_and!; [exact Hn| |vm_compute; reflexivity].
  etrans; [exact (top_is_reversed_bottom example_index 2 Hn)|].
  vm_compute. reflexivity.
Defined.

Lemma slice_to_sublist {A} (l : list A) n : slice_to l n `sublist_of` l.
Proof. unfold slice_to. case_bool_decide; apply sublist_take. Qed.

(** X11. Whatever [n] and [top], [top_bottom_n_terms] reports no term
    twice, and every pair it reports is a term of the index with the
    length of its posting list. *)
Theorem top_bottom_n_terms_entries
    (self : InvertedIndex) (n : Z) (top : bool) :
  NoDup (top_bottom_n_terms self n top).*1 ∧
  ∀ term c, (term, c) ∈ top_bottom_n_terms self n top →
    ∃ ids, posting_list self !! term = Some ids ∧ c = Z.of_nat (length ids).
Proof.
  pose proof (slice_to_sublist
                (sorted freq_key_lt (λ p : string * Z, (p.2, p.1)) top
                   (map_to_list (cardinalities self))) n) as Hsub.
  rewrite top_bottom_n_terms_unfold. split.
  - apply (fmap_sublist fst) in Hsub.
    eapply sublist_NoDup; [|exact Hsub].
    rewrite sorted_Permutation. apply NoDup_fst_map_to_list.
  - intros term c Hin. eapply elem_of_sublist in Hin; [|done].
    rewrite sorted_Permutation, elem_of_map_to_list in Hin.
    unfold cardinalities in Hin. rewrite lookup_fmap in Hin.
    destruct (posting_list self !! term) as [ids|]; [|done].
    exists ids. by injection Hin as <-.
Qed.

Lemma top_bottom_n_terms_entries_witness :
  ("dog"%string, 2) ∈ top_bottom_n_terms example_index 1 true ∧
  ∃ ids, posting_list example_index !! "dog"%string = Some ids ∧
         2 = Z.of_nat (length ids).
Proof.
  assert (("dog"%string, 2) ∈ top_bottom_n_terms example_index 1 true) as Hin.
  { replace (top_bottom_n_terms example_index 1 true)
      with [("dog"%string, 2)] by (vm_compute; reflexivity).
    by left. }
  split; [exact Hin|].
  exact (proj2 (top_bottom_n_terms_entries example_index 1 true)
           "dog"%string 2 Hin).
Defined.

(** ** The posting lists before they are sorted *)

Lemma foldl_append_term_default doc_id terms self term :
  Forall (λ t, t ≠ EmptyString) terms →
  default [] (posting_list (foldl (append_term doc_id) self terms) !! term) =
    default [] (posting_list self !! term) ++
    replicate (length (filter (λ t, t = term) terms)) doc_id.
Proof.
  intros Hterms. revert self.
  induction Hterms as [|t terms Ht _ IH]; intros self.
  { simpl. by rewrite app_nil_r. }
  cbn [foldl]. rewrite IH, append_term_lookup.
  destruct (decide (t = term)) as [->|Hne].
  - rewrite filter_cons_True, decide_True by done.
    simpl. by rewrite <-app_assoc.
  - rewrite filter_cons_False by done. by rewrite decide_False by tauto.
Qed.

(** X19. [update_posting_list] leaves the documents as they are and
    appends the ID to the posting list of every token of the document,
    once for each time the token occurs, so that before the lists are
    sorted an ID is repeated as often as the term is in the document; a
    term becomes a key of the index exactly when it is a token. *)
Theorem update_posting_list_appends
    (self : InvertedIndex) (document : string) (doc_id : Z) (term : string) :
  documents (update_posting_list self document doc_id) = documents self ∧
  default [] (posting_list (update_posting_list self document doc_id) !! term) =
    default [] (posting_list self !! term) ++
    replicate (token_count term document) doc_id ∧
  (is_Some (posting_list (update_posting_list self document doc_id) !! term)
   ↔ is_Some (posting_list self !! term) ∨ term ∈ split document).
Proof.
  destruct (update_posting_list_spec self document doc_id) as [Hdocs Hpl].
  split_and!; [done| |apply Hpl].
  unfold update_posting_list, token_count.
  apply foldl_append_term_default, Forall_forall.
  intros t. apply elem_of_split.
Qed.

(** ** [sort_posting_list] *)

Section sort_posting_list.
Context (list_of_set : gset Z → list Z).
Hypothesis list_of_set_elements : set_order list_of_set.

Lemma sorted_doc_ids_KeyError self doc_ids x :
  x ∈ doc_ids → documents self !! x = None →
  sorted_doc_ids list_of_set self doc_ids = None.
Proof.
  intros Hx Hnone. unfold sorted_doc_ids.
  destruct (mapM (id_key self) (list_of_set (list_to_set doc_ids))) as [keys|]
    eqn:Hkeys; [|done].
  assert (is_Some (mapM (id_key self) (list_of_set (list_to_set doc_ids))))
    as Hsome by by rewrite Hkeys.
  apply mapM_is_Some_1 in Hsome. rewrite Forall_forall in Hsome.
  destruct (Hsome x) as [k Hk]; [by apply elem_of_list_of_set|].
  unfold id_key in Hk. simpl in Hk. by rewrite Hnone in Hk.
Qed.

Lemma sort_posting_list_cases self :
  (sort_posting_list list_of_set self = Raise KeyError ∧
   ∃ term doc_ids x, posting_list self !! term = Some doc_ids ∧
                     x ∈ doc_ids ∧ documents self !! x = None) ∨
  (sort_posting_list list_of_set self =
     Return {| documents := documents self;
               posting_list :=
                 (λ doc_ids, sort_by_key Z_lt id (list_of_set (list_to_set doc_ids)))
                   <$> posting_list self |} ∧
   ∀ term doc_ids x, posting_list self !! term = Some doc_ids →
                     x ∈ doc_ids → is_Some (documents self !! x)).
Proof.
  destruct (decide (map_Forall
                      (λ _ doc_ids, Forall (λ x, is_Some (documents self !! x)) doc_ids)
                      (posting_list self))) as [Hgood|Hbad].
  - right. assert (∀ term doc_ids x, posting_list self !! term = Some doc_ids →
                     x ∈ doc_ids → is_Some (documents self !! x)) as Hdocs.
    { intros term doc_ids x Hterm Hx. specialize (Hgood _ _ Hterm).
      rewrite Forall_forall in Hgood. by apply Hgood. }
    split; [|done]. by apply sort_posting_list_spec.
  - left. apply map_not_Forall in Hbad as (term & doc_ids & Hterm & Hbad);
      [|apply _].
    apply not_Forall_Exists in Hbad; [|apply _].
    apply Exists_exists in Hbad as (x & Hx & Hnone).
    apply eq_None_not_Some in Hnone.
    split; [|by exists term, doc_ids, x].
    destruct self as [docs pl0]. cbn [documents posting_list] in *.
    unfold sort_posting_list. cbn [posting_list].
    cut (∀ m,
           let r := map_fold
             (λ term doc_ids (acc : outcome InvertedIndex),
                self ← acc;
                match sorted_doc_ids list_of_set self doc_ids with
                | Some ids =>
                    Return {| documents := documents self;
                              posting_list := <[term := ids]> (posting_list self) |}
                | None => Raise KeyError
                end)
             (Return {| documents := docs; posting_list := pl0 |}) m in
           (∀ acc, r = Return acc → documents acc = docs) ∧
           (∀ e, r = Raise e → e = KeyError) ∧
           (m !! term = Some doc_ids → r = Raise KeyError)).
    { intros Hcut. by apply (Hcut pl0). }
    intros m.
    apply (map_fold_weak_ind
             (λ r m, (∀ acc, r = Return acc → documents acc = docs) ∧
                     (∀ e, r = Raise e → e = KeyError) ∧
                     (m !! term = Some doc_ids → r = Raise KeyError))).
    + split_and!; [by intros acc [= <-]|done|by rewrite lookup_empty].
    + intros term' doc_ids' m' r Hfresh (Hacc & Hexn & IH).
      destruct r as [acc|e]; simpl.
      * specialize (Hacc _ eq_refl).
        destruct (sorted_doc_ids list_of_set acc doc_ids') as [ids|] eqn:Hsort.
        -- split_and!; [by intros ? [= <-]|done|].
           destruct (decide (term' = term)) as [->|Hne].
           ++ rewrite lookup_insert_eq. intros [= ->].
              rewrite (sorted_doc_ids_KeyError acc doc_ids x) in Hsort; [done..|].
              by rewrite Hacc.
           ++ rewrite lookup_insert_ne by done. intros Hm. by specialize (IH Hm).
        -- split_and!; [done|by intros ? [= <-]|done].
      * rewrite (Hexn e eq_refl). split_and!; [done|by intros ? [= <-]|done].
Qed.

End sort_posting_list.

(** X20. For an order of the sets, [sort_posting_list] raises a
    [KeyError] exactly when some posting list holds an ID without a
    document, and it raises no other exception. Otherwise it returns the
    index with the same documents and with every posting list strictly
    ascending, with the values it had; and sorting an index that was
    sorted returns that index. *)
Theorem sort_posting_list_outcome
    (list_of_set : gset Z → list Z) (self : InvertedIndex) :
  set_order list_of_set →
  (sort_posting_list list_of_set self = Raise KeyError ↔
   ∃ term doc_ids x, posting_list self !! term = Some doc_ids ∧
                     x ∈ doc_ids ∧ documents self !! x = None) ∧
  (∀ self',
     sort_posting_list list_of_set self = Return self' →
     documents self' = documents self ∧
     (∀ term, is_Some (posting_list self' !! term) ↔
              is_Some (posting_list self !! term)) ∧
     (∀ term ids, posting_list self' !! term = Some ids →
        strictly_ascending ids ∧
        ∀ x, x ∈ ids ↔ x ∈ default [] (posting_list self !! term)) ∧
     sort_posting_list list_of_set self' = Return self') ∧
  (∀ e, sort_posting_list list_of_set self = Raise e → e = KeyError).
Proof.
  intros list_of_set_elements.
  destruct (sort_posting_list_cases _ list_of_set_elements self)
    as [[Hraise Hbad]|[Hreturn Hgood]].
  - rewrite Hraise. split_and!; [done|done|]. by intros e [= <-].
  - split; [|split; [|by rewrite Hreturn]].
    + rewrite Hreturn. split; [done|].
      intros (term & doc_ids & x & Hterm & Hx & Hnone).
      destruct (Hgood _ _ _ Hterm Hx) as [? ?]. congruence.
    + intros self'. rewrite Hreturn. intros [= <-].
      cbn [documents posting_list]. split_and!.
      * done.
      * intros term. by rewrite lookup_fmap, fmap_is_Some.
      * intros term ids. rewrite lookup_fmap.
        destruct (posting_list self !! term) as [doc_ids|]; [|done].
        intros [= <-]. split.
        -- apply strictly_ascending_strongly, sort_by_key_Z_ascending.
           by apply NoDup_list_of_set.
        -- intros x. by rewrite sort_by_key_Permutation, elem_of_list_of_set.
      * rewrite sort_posting_list_spec; [|done|].
        -- cbn [documents posting_list]. do 2 f_equal.
           rewrite <-map_fmap_compose. apply map_fmap_ext.
           intros term doc_ids _. unfold compose. apply strictly_ascending_ext.
           ++ apply sort_by_key_Z_ascending. by apply NoDup_list_of_set.
           ++ apply sort_by_key_Z_ascending. by apply NoDup_list_of_set.
           ++ intros x.
              repeat first [ rewrite sort_by_key_Permutation
                           | rewrite elem_of_list_of_set by done ].
              done.
        -- cbn [documents posting_list]. intros term ids x.
           rewrite lookup_fmap.
           destruct (posting_list self !! term) as [doc_ids|] eqn:Hterm; [|done].
           intros [= <-].
           rewrite sort_by_key_Permutation, elem_of_list_of_set by done.
           by apply (Hgood term).
Qed.

Lemma sort_posting_list_outcome_witness :
  set_order elements ∧
  sort_posting_list elements
    {| documents := ∅; posting_list := {["cat"%string := [0]]} |}
    = Raise KeyError.
Proof.
  split; [exact elements_set_order|].
  apply (proj1 (sort_posting_list_outcome elements
                  {| documents := ∅; posting_list := {["cat"%string := [0]]} |}
                  elements_set_order)).
  exists "cat"%string, [0], 0. split_and!; [reflexivity|by left|reflexivity].
Defined.

(** ** The posting lists of a built index, explicitly *)

Lemma elem_of_containing parsed term x :
  x ∈ containing parsed term ↔ occurs parsed term x.
Proof.
  unfold containing, occurs, universe. rewrite list_elem_of_fmap. split.
  - intros ([x' d] & -> & [Hterm Hin]%list_elem_of_filter).
    apply elem_of_lookup_zip_with in Hin as (j & y & d' & [= -> ->] & Hy & Hd).
    apply lookup_seqZ in Hy as [-> _]. exists j, d'. split_and!; [simpl; lia|done..].
  - intros (j & d & -> & Hj & Hterm). exists (Z.of_nat j, d). split; [done|].
    apply list_elem_of_filter. split; [done|].
    apply (elem_of_lookup_zip_with_2 _ _ _ _ _ (Z.of_nat j, d) j); [|done].
    apply lookup_seqZ. apply lookup_lt_Some in Hj. lia.
Qed.

Lemma containing_ascending parsed term :
  StronglySorted Z.lt (containing parsed term).
Proof.
  unfold containing.
  eapply strictly_ascending_sublist;
    [apply fmap_sublist, sublist_filter|].
  rewrite fst_zip; [apply universe_ascending|].
  unfold universe. rewrite length_seqZ. lia.
Qed.

Lemma length_filter_zip_term (U : list Z) (parsed : list (string * string)) term :
  length U = length parsed →
  length (filter (λ p : Z * (string * string), term ∈ split p.2.1) (zip U parsed))
    = length (filter (λ d : string * string, term ∈ split d.1) parsed).
Proof.
  revert U. induction parsed as [|d parsed IH]; intros [|x U] Hlen; try done.
  simpl in *. rewrite !filter_cons. simpl.
  destruct (decide (term ∈ split d.1)); simpl; rewrite IH by lia; done.
Qed.

Lemma containing_length parsed term :
  length (containing parsed term) =
    length (filter (λ d : string * string, term ∈ split d.1) parsed).
Proof.
  unfold containing. rewrite length_fmap.
  apply length_filter_zip_term.
  unfold universe. rewrite length_seqZ. lia.
Qed.

Lemma built_posting_list_lookup list_of_set parsed idx term :
  set_order list_of_set →
  InvertedIndex_init list_of_set parsed = Return idx →
  posting_list idx !! term =
    if decide (containing parsed term = []) then None
    else Some (containing parsed term).
Proof.
  intros Horder Hinit.
  destruct (InvertedIndex_init_spec _ Horder parsed)
    as (idx' & Hinit' & _ & _ & _ & Hpl & Hkey).
  rewrite Hinit in Hinit'. injection Hinit' as <-.
  destruct (posting_list idx !! term) as [ids|] eqn:Hterm.
  - destruct (Hpl _ _ Hterm) as [Hasc Hin].
    assert (ids = containing parsed term) as <-.
    { apply strictly_ascending_ext; [done|apply containing_ascending|].
      intros x. by rewrite Hin, elem_of_containing. }
    case_decide as Hnil; [|done]. subst ids.
    assert (is_Some (posting_list idx !! term)) as [x Hx]%Hkey by by rewrite Hterm.
    apply Hin in Hx. by apply elem_of_nil in Hx.
  - case_decide as Hnil; [done|].
    destruct (containing parsed term) as [|x ids] eqn:Hc; [done|].
    assert (x ∈ containing parsed term) as Hx by (rewrite Hc; left).
    apply elem_of_containing in Hx.
    assert (is_Some (posting_list idx !! term)) as [? ?] by (apply Hkey; eauto).
    congruence.
Qed.

(** X12. In the index that [__init__] builds, the posting list of a term
    is the list of the positions of the documents that have the term as a
    token, in the order of the documents; its length is the number of
    those documents, however often the term occurs in each; and no term
    of the index has an empty posting list. *)
Theorem posting_list_document_frequency
    (list_of_set : gset Z → list Z) (parsed : list (string * string))
    (idx : InvertedIndex) (term : string) :
  set_order list_of_set →
  InvertedIndex_init list_of_set parsed = Return idx →
  get_posting_list idx term = containing parsed term ∧
  length (get_posting_list idx term) =
    length (filter (λ d : string * string, term ∈ split d.1) parsed) ∧
  posting_list idx !! term ≠ Some [].
Proof.
  intros Horder Hinit. unfold get_posting_list.
  rewrite (built_posting_list_lookup _ _ _ term Horder Hinit).
  rewrite <-containing_length.
  case_decide as Hnil; simpl; [by rewrite Hnil|].
  split_and!; [done..|]. by intros [= ?].
Qed.

Lemma posting_list_document_frequency_witness :
  set_order elements ∧
  InvertedIndex_init elements [("dog cat dog", "A"); ("bird", "B"); ("dog", "C")]%string
    = Return
        {| documents :=
             list_to_map
               [(0, {| contents := "dog cat dog"; internal_id := "A" |});
                (1, {| contents := "bird"; internal_id := "B" |});
                (2, {| contents := "dog"; internal_id := "C" |})];
           posting_list :=
             list_to_map
               [("dog", [0; 2]); ("cat", [0]); ("bird", [1])]%string |} ∧
  containing [("dog cat dog", "A"); ("bird", "B"); ("dog", "C")]%string "dog" = [0; 2].
Proof.
  assert (InvertedIndex_init elements
            [("dog cat dog", "A"); ("bird", "B"); ("dog", "C")]%string
    = Return
        {| documents :=
             list_to_map
               [(0, {| contents := "dog cat dog"; internal_id := "A" |});
                (1, {| contents := "bird"; internal_id := "B" |});
                (2, {| contents := "dog"; internal_id := "C" |})];
           posting_list :=
             list_to_map
               [("dog", [0; 2]); ("cat", [0]); ("bird", [1])]%string |}) as Hinit
    by (vm_compute; reflexivity).
  split_and!; [exact elements_set_order|exact Hinit|].
  etrans;
    [symmetry;
     exact (proj1 (posting_list_document_frequency elements _ _ "dog"
                     elements_set_order Hinit))|].
  vm_compute. reflexivity.
Defined.

Lemma containing_same_tokens parsed parsed' term :
  Forall2 (λ d d' : string * string, split d.1 = split d'.1) parsed parsed' →
  containing parsed term = containing parsed' term.
Proof.
  intros Htokens.
  apply strictly_ascending_ext; [apply containing_ascending..|].
  intros x. rewrite !elem_of_containing. unfold occurs. split.
  - intros (j & d & -> & Hj & Hterm).
    destruct (Forall2_lookup_l _ _ _ _ _ Htokens Hj) as (d' & Hj' & Heq).
    exists j, d'. by rewrite <-Heq.
  - intros (j & d' & -> & Hj' & Hterm).
    destruct (Forall2_lookup_r _ _ _ _ _ Htokens Hj') as (d & Hj & Heq).
    exists j, d. by rewrite Heq.
Qed.

(** X13. The posting lists depend on the documents through their tokens
    only: two sequences of documents that agree, position by position, on
    the tokens of the contents give the same posting lists, whatever their
    white space and their identifiers. *)
Theorem posting_lists_from_tokens
    (list_of_set : gset Z → list Z) (parsed parsed' : list (string * string))
    (idx idx' : InvertedIndex) :
  set_order list_of_set →
  Forall2 (λ d d' : string * string, split d.1 = split d'.1) parsed parsed' →
  InvertedIndex_init list_of_set parsed = Return idx →
  InvertedIndex_init list_of_set parsed' = Return idx' →
  posting_list idx = posting_list idx'.
Proof.
  intros Horder Htokens Hinit Hinit'. apply map_eq. intros term.
  rewrite (built_posting_list_lookup _ _ _ term Horder Hinit).
  rewrite (built_posting_list_lookup _ _ _ term Horder Hinit').
  by rewrite (containing_same_tokens _ _ _ Htokens).
Qed.

Lemma posting_lists_from_tokens_witness :
  set_order elements ∧
  Forall2 (λ d d' : string * string, split d.1 = split d'.1)
    example_parsed
    [("  cat
dog ", "a"); ("dog   bird", "b"); (" cat bird", "c")]%string ∧
  (∀ idx', InvertedIndex_init elements
             [("  cat
dog ", "a"); ("dog   bird", "b"); (" cat bird", "c")]%string = Return idx' →
           posting_list example_index = posting_list idx').
Proof.
  assert (Forall2 (λ d d' : string * string, split d.1 = split d'.1)
    example_parsed
    [("  cat
dog ", "a"); ("dog   bird", "b"); (" cat bird", "c")]%string) as Htokens
    by (repeat constructor).
  assert (InvertedIndex_init elements example_parsed = Return example_index)
    as Hinit by (vm_compute; reflexivity).
  split_and!; [exact elements_set_order|exact Htokens|].
  intros idx' Hinit'.
  exact (posting_lists_from_tokens elements _ _ _ _ elements_set_order
           Htokens Hinit Hinit').
Defined.

(** ** [split], [join] and [replace] on strings *)

Lemma prefix_app sep t : String.prefix sep (sep +:+ t) = true.
Proof.
  induction sep as [|c sep IH]; [by destruct t|].
  rewrite str_app_cons. simpl. by destruct (ascii_dec c c).
Qed.

Lemma prefix_inv sep s : String.prefix sep s = true → ∃ t, s = sep +:+ t.
Proof.
  revert s. induction sep as [|c sep IH]; intros s; [by exists s|].
  destruct s as [|c' s]; simpl; [done|].
  destruct (ascii_dec c c') as [<-|]; [|done].
  intros [t ->]%IH. by exists t.
Qed.

Lemma split_str_from_nonempty sep skip s : split_str_from sep skip s ≠ [].
Proof.
  revert skip. induction s as [|c s IH]; intros skip; simpl; [done|].
  destruct skip; [|apply IH]. case_match; [done|].
  unfold prepend. by destruct (split_str_from sep 0 s).
Qed.

Lemma split_str_nonempty sep s : split_str sep s ≠ [].
Proof. apply split_str_from_nonempty. Qed.

Lemma split_str_from_skip sep a t :
  split_str_from sep (String.length a) (a +:+ t) = split_str_from sep 0 t.
Proof.
  induction a as [|c a IH]; [by destruct t|]. rewrite str_app_cons. done.
Qed.

Lemma replace_from_skip old new a t :
  replace_from old new (String.length a) (a +:+ t) = replace_from old new 0 t.
Proof.
  induction a as [|c a IH]; [by destruct t|]. rewrite str_app_cons. done.
Qed.

(** A separator found at the head of the string. *)
Lemma split_str_hit c sep t :
  split_str (String c sep) (String c sep +:+ t)
    = EmptyString :: split_str (String c sep) t.
Proof.
  unfold split_str. rewrite str_app_cons at 1. cbn [split_str_from].
  rewrite <-str_app_cons, prefix_app.
  replace (String.length (String c sep) - 1)%nat with (String.length sep)
    by (simpl; lia).
  by rewrite split_str_from_skip.
Qed.

Lemma split_str_miss sep c s :
  String.prefix sep (String c s) = false →
  split_str sep (String c s) = prepend c (split_str sep s).
Proof. unfold split_str. cbn [split_str_from]. by intros ->. Qed.

Lemma replace_hit c old new t :
  replace (String c old) new (String c old +:+ t)
    = new +:+ replace (String c old) new t.
Proof.
  unfold replace. rewrite str_app_cons at 1. cbn [replace_from].
  rewrite <-str_app_cons, prefix_app.
  replace (String.length (String c old) - 1)%nat with (String.length old)
    by (simpl; lia).
  by rewrite replace_from_skip.
Qed.

Lemma replace_miss old new c s :
  String.prefix old (String c s) = false →
  replace old new (String c s) = String c (replace old new s).
Proof. unfold replace. cbn [replace_from]. by intros ->. Qed.

Lemma join_cons sep piece pieces :
  pieces ≠ [] → join sep (piece :: pieces) = piece +:+ sep +:+ join sep pieces.
Proof. by destruct pieces. Qed.

Lemma join_prepend sep c pieces :
  pieces ≠ [] → join sep (prepend c pieces) = String c (join sep pieces).
Proof. by destruct pieces as [|piece [|piece' pieces]]. Qed.

Lemma string_length_ind (P : string → Prop) :
  (∀ s, (∀ t, (String.length t < String.length s)%nat → P t) → P s) →
  ∀ s, P s.
Proof.
  intros Hind s. remember (String.length s) as n eqn:Hn.
  revert s Hn. induction (lt_wf n) as [n _ IH]. intros s ->.
  apply Hind. intros t Ht. by apply (IH _ Ht).
Qed.

Lemma str_length_app (a b : string) :
  String.length (a +:+ b) = (String.length a + String.length b)%nat.
Proof.
  induction a as [|x a IH]; [done|]. rewrite str_app_cons. simpl. by rewrite IH.
Qed.

(** Joining the pieces with the separator gives the string back. *)
Lemma join_split_str c sep s :
  join (String c sep) (split_str (String c sep) s) = s.
Proof.
  induction s as [s IH] using string_length_ind.
  destruct s as [|c' s]; [done|].
  destruct (String.prefix (String c sep) (String c' s)) eqn:Hprefix.
  - apply prefix_inv in Hprefix as [t Ht]. rewrite Ht, split_str_hit.
    rewrite join_cons by apply split_str_nonempty.
    rewrite IH; [done|]. rewrite Ht, str_length_app. simpl. lia.
  - rewrite split_str_miss by done.
    rewrite join_prepend by apply split_str_nonempty.
    rewrite IH; [done|]. simpl. lia.
Qed.

(** [replace] is [split] and [join]. *)
Lemma replace_join c old new s :
  replace (String c old) new s = join new (split_str (String c old) s).
Proof.
  induction s as [s IH] using string_length_ind.
  destruct s as [|c' s]; [done|].
  destruct (String.prefix (String c old) (String c' s)) eqn:Hprefix.
  - apply prefix_inv in Hprefix as [t Ht]. rewrite Ht, split_str_hit, replace_hit.
    rewrite join_cons by apply split_str_nonempty.
    rewrite IH; [done|]. rewrite Ht, str_length_app. simpl. lia.
  - rewrite split_str_miss, replace_miss by done.
    rewrite join_prepend by apply split_str_nonempty.
    rewrite IH; [done|]. simpl. lia.
Qed.

(** ** Stretches of text without the separator *)

Lemma prefix_cons a sep b s :
  String.prefix (String a sep) (String b s) =
    if ascii_dec a b then String.prefix sep s else false.
Proof. reflexivity. Qed.

Lemma clash_prefix sep u t : clash sep u = true → String.prefix sep (u +:+ t) = false.
Proof.
  revert u. induction sep as [|a sep IH]; intros [|b u]; simpl; try done.
  case_bool_decide as Hab; destruct (ascii_dec a b); try done. apply IH.
Qed.

Lemma clash_app sep u v : clash sep u = true → clash sep (u +:+ v) = true.
Proof.
  revert u. induction sep as [|a sep IH]; intros [|b u]; simpl; try done.
  case_bool_decide; [apply IH|done].
Qed.

Lemma clear_of_app sep a b :
  clear_of sep a = true → clear_of sep b = true → clear_of sep (a +:+ b) = true.
Proof.
  intros Ha Hb. induction a as [|c a IH]; [done|].
  rewrite str_app_cons. cbn [clear_of] in *.
  apply andb_true_iff in Ha as [Hc Ha]. apply andb_true_iff. split; [|by apply IH].
  rewrite <-str_app_cons. by apply clash_app.
Qed.

(** A string without the first character of the separator. *)
Lemma clear_of_free c sep a :
  contains c a = false → clear_of (String c sep) a = true.
Proof.
  induction a as [|b a IH]; [done|]. cbn [contains clear_of clash].
  intros [Hb Ha]%orb_false_iff. apply bool_decide_eq_false in Hb.
  rewrite bool_decide_eq_false_2 by done. by rewrite IH.
Qed.

Lemma prepend_prepend_str c a pieces :
  pieces ≠ [] → prepend c (prepend_str a pieces) = prepend_str (String c a) pieces.
Proof. by destruct pieces. Qed.

Lemma split_str_clear sep a t :
  clear_of sep a = true →
  split_str sep (a +:+ t) = prepend_str a (split_str sep t).
Proof.
  induction a as [|c a IH]; intros Ha.
  { rewrite str_app_nil_l. pose proof (split_str_nonempty sep t).
    by destruct (split_str sep t). }
  cbn [clear_of] in Ha. apply andb_true_iff in Ha as [Hc Ha].
  rewrite str_app_cons, split_str_miss
    by (rewrite <-str_app_cons; by apply clash_prefix).
  rewrite IH by done. apply prepend_prepend_str, split_str_nonempty.
Qed.

Lemma split_str_clear_all sep a : clear_of sep a = true → split_str sep a = [a].
Proof.
  intros Ha. rewrite <-(str_app_nil_r a) at 1.
  rewrite split_str_clear by done. simpl. by rewrite str_app_nil_r.
Qed.

Lemma replace_clear c old new a t :
  clear_of (String c old) a = true →
  replace (String c old) new (a +:+ t) = a +:+ replace (String c old) new t.
Proof.
  intros Ha. rewrite !replace_join, split_str_clear by done.
  pose proof (split_str_nonempty (String c old) t) as Hne.
  destruct (split_str (String c old) t) as [|p [|p' ps]]; [done|done|].
  simpl. by rewrite str_app_assoc.
Qed.

Lemma replace_empty old new : replace old new "" = "".
Proof. reflexivity. Qed.

(** ** Without any occurrence of the separator *)

Lemma split_str_absent sep s : occurs_in sep s = false → split_str sep s = [s].
Proof.
  induction s as [|c s IH]; [done|]. cbn [occurs_in].
  intros [Hprefix Hs]%orb_false_iff.
  by rewrite split_str_miss, IH.
Qed.

(** ** Newlines to spaces *)

Lemma join_split_newline s :
  join " " (split_str (String "010" EmptyString) s) = spaced s.
Proof.
  induction s as [|c s IH]; [done|]. cbn [spaced]. case_bool_decide as Hc.
  - subst c. change (String "010" s) with (String "010" "" +:+ s).
    rewrite split_str_hit, join_cons by apply split_str_nonempty.
    by rewrite IH.
  - rewrite split_str_miss.
    + by rewrite join_prepend, IH by apply split_str_nonempty.
    + rewrite prefix_cons. destruct (ascii_dec "010" c); [congruence|done].
Qed.

Lemma spaced_app a b : spaced (a +:+ b) = spaced a +:+ spaced b.
Proof.
  induction a as [|c a IH]; [done|].
  rewrite str_app_cons. cbn [spaced]. by rewrite IH, str_app_cons.
Qed.

Lemma contains_spaced c s :
  c ≠ "010"%char → c ≠ " "%char → contains c (spaced s) = contains c s.
Proof.
  intros Hn Hs. induction s as [|b s IH]; [done|]. cbn [spaced contains].
  rewrite IH. f_equal. destruct (decide (b = "010"%char)) as [->|Hb].
  - rewrite (bool_decide_eq_true_2 ("010"%char = "010"%char)) by done.
    by rewrite !bool_decide_eq_false_2 by congruence.
  - by rewrite (bool_decide_eq_false_2 (b = "010"%char)).
Qed.

Lemma spaced_no_newline s : contains "010" (spaced s) = false.
Proof.
  induction s as [|b s IH]; [done|]. cbn [spaced contains]. rewrite IH.
  destruct (decide (b = "010"%char)) as [->|Hb].
  - by rewrite (bool_decide_eq_true_2 ("010"%char = "010"%char)).
  - by rewrite (bool_decide_eq_false_2 (b = "010"%char)), bool_decide_eq_false_2.
Qed.

Lemma prefix_spaced sep s :
  contains "010" sep = false → contains " " sep = false →
  String.prefix sep (spaced s) = String.prefix sep s.
Proof.
  revert s. induction sep as [|a sep IH]; intros s; [by destruct s|].
  cbn [contains]. intros [Ha Hn]%orb_false_iff [Ha' Hs]%orb_false_iff.
  apply bool_decide_eq_false in Ha, Ha'.
  destruct s as [|b s]; [done|]. cbn [spaced]. rewrite !prefix_cons, IH by done.
  destruct (decide (b = "010"%char)) as [->|Hb].
  - rewrite (bool_decide_eq_true_2 ("010"%char = "010"%char)) by done.
    repeat destruct (ascii_dec _ _); congruence.
  - by rewrite (bool_decide_eq_false_2 (b = "010"%char)).
Qed.

Lemma occurs_in_spaced sep s :
  contains "010" sep = false → contains " " sep = false →
  occurs_in sep (spaced s) = occurs_in sep s.
Proof.
  intros Hn Hs. induction s as [|b s IH].
  { cbn [spaced occurs_in]. done. }
  cbn [occurs_in]. rewrite <-IH, <-(prefix_spaced sep (String b s)) by done. done.
Qed.

(** ** The characters of the pieces *)

Lemma contains_app c a b : contains c (a +:+ b) = contains c a || contains c b.
Proof.
  induction a as [|x a IH]; [done|].
  rewrite str_app_cons. cbn [contains]. by rewrite IH, orb_assoc.
Qed.

Lemma contains_split_str_from c sep skip s piece :
  piece ∈ split_str_from sep skip s →
  contains c piece = true → contains c s = true.
Proof.
  revert skip piece. induction s as [|b s IH]; intros skip piece.
  { simpl. by intros ->%list_elem_of_singleton. }
  cbn [split_str_from contains]. destruct skip as [|skip].
  - case_match.
    + intros [->|Hin]%elem_of_cons; [done|]. intros Hc.
      rewrite (IH _ _ Hin Hc). apply orb_true_r.
    + pose proof (split_str_from_nonempty sep 0 s) as Hne.
      destruct (split_str_from sep 0 s) as [|p ps] eqn:Hsplit; [done|].
      cbn [prepend]. intros [->|Hin]%elem_of_cons.
      * cbn [contains]. intros [Hb|Hc]%orb_true_iff; [by rewrite Hb|].
        rewrite (IH 0%nat p); [apply orb_true_r| |done]. rewrite Hsplit. by left.
      * intros Hc. rewrite (IH 0%nat piece); [apply orb_true_r| |done].
        rewrite Hsplit. by right.
  - intros Hin Hc. rewrite (IH _ _ Hin Hc). apply orb_true_r.
Qed.

Lemma contains_join_empty c pieces :
  contains c (join "" pieces) = true → ∃ piece, piece ∈ pieces ∧ contains c piece = true.
Proof.
  induction pieces as [|p ps IH]; [done|].
  destruct ps as [|p' ps].
  - intros Hc. exists p. split; [by left|done].
  - change (join "" (p :: p' :: ps)) with (p +:+ "" +:+ join "" (p' :: ps)).
    rewrite str_app_nil_l, contains_app. intros [Hc|Hc]%orb_true_iff.
    + exists p. split; [by left|done].
    + destruct (IH Hc) as (piece & Hin & Hpiece). exists piece. split; [by right|done].
Qed.

Lemma contains_replace_empty c b old s :
  contains c (replace (String b old) "" s) = true → contains c s = true.
Proof.
  rewrite replace_join. intros (piece & Hin & Hc)%contains_join_empty.
  by eapply contains_split_str_from.
Qed.

(** ** [TrecTextIterator] *)

Lemma join_blocks sep piece blocks :
  join sep (piece :: blocks) =
    piece +:+ foldr (λ block text, sep +:+ block +:+ text) EmptyString blocks.
Proof.
  revert piece. induction blocks as [|block blocks IH]; intros piece.
  { simpl. by rewrite str_app_nil_r. }
  rewrite join_cons by done. by rewrite IH.
Qed.

Lemma prefix_app_l sep a b :
  String.prefix sep a = true → String.prefix sep (a +:+ b) = true.
Proof.
  intros [t ->]%prefix_inv. rewrite str_app_assoc. apply prefix_app.
Qed.

Lemma occurs_in_empty c sep : occurs_in (String c sep) "" = false.
Proof. reflexivity. Qed.

(** No piece of a split holds the separator. *)
Lemma split_str_pieces_free c sep s :
  Forall (λ piece, occurs_in (String c sep) piece = false)
         (split_str (String c sep) s).
Proof.
  induction s as [s IH] using string_length_ind.
  destruct s as [|c' s]; [by repeat constructor|].
  destruct (String.prefix (String c sep) (String c' s)) eqn:Hprefix.
  - apply prefix_inv in Hprefix as [t Ht]. rewrite Ht, split_str_hit.
    constructor; [done|]. apply IH. rewrite Ht, str_length_app. simpl. lia.
  - rewrite split_str_miss by done.
    pose proof (join_split_str c sep s) as Hjoin.
    pose proof (split_str_nonempty (String c sep) s) as Hne.
    assert (Forall (λ piece, occurs_in (String c sep) piece = false)
                   (split_str (String c sep) s)) as Hfree
      by (apply IH; simpl; lia).
    destruct (split_str (String c sep) s) as [|piece pieces]; [done|].
    cbn [prepend]. apply Forall_cons in Hfree as [Hpiece Hpieces].
    constructor; [|done]. cbn [occurs_in]. rewrite Hpiece, orb_false_r.
    destruct (String.prefix (String c sep) (String c' piece)) eqn:Hp; [|done].
    rewrite <-Hjoin, join_blocks, <-str_app_cons in Hprefix.
    by rewrite (prefix_app_l _ _ _ Hp) in Hprefix.
Qed.

(** A separator whose first character does not come back in it cannot
    start in a stretch of text and end in the separator after it. *)
Lemma prefix_straddle c u a w :
  contains c u = false →
  String.prefix u (a +:+ String c w) = true → String.prefix u a = true.
Proof.
  revert a. induction u as [|x u IH]; intros a; [by destruct a|].
  cbn [contains]. intros [Hx Hu]%orb_false_iff.
  apply bool_decide_eq_false in Hx.
  destruct a as [|y a].
  - rewrite str_app_nil_l, prefix_cons. by destruct (ascii_dec x c).
  - rewrite str_app_cons, !prefix_cons.
    destruct (ascii_dec x y); [by apply IH|done].
Qed.

Lemma split_str_free c sep a t :
  contains c sep = false →
  occurs_in (String c sep) a = false →
  split_str (String c sep) (a +:+ String c sep +:+ t)
    = a :: split_str (String c sep) t.
Proof.
  intros Hc. induction a as [|b a IH]; intros Ha.
  { rewrite str_app_nil_l. apply split_str_hit. }
  cbn [occurs_in] in Ha. apply orb_false_iff in Ha as [Hprefix Ha].
  rewrite str_app_cons, split_str_miss; [by rewrite IH|].
  destruct (String.prefix (String c sep) (String b (a +:+ String c sep +:+ t)))
    eqn:Hp; [|done].
  rewrite prefix_cons in Hp, Hprefix.
  destruct (ascii_dec c b); [|done].
  rewrite str_app_cons in Hp. apply prefix_straddle in Hp; [|done]. congruence.
Qed.

(** Splitting what was joined gives the pieces back. *)
Lemma split_str_join c sep piece pieces :
  contains c sep = false →
  Forall (λ piece, occurs_in (String c sep) piece = false) (piece :: pieces) →
  split_str (String c sep)
    (piece +:+ foldr (λ block text, String c sep +:+ block +:+ text)
                 EmptyString pieces)
    = piece :: pieces.
Proof.
  intros Hc. revert piece.
  induction pieces as [|piece' pieces IH]; intros piece Hfree.
  { cbn [foldr]. rewrite str_app_nil_r. apply split_str_absent.
    by apply Forall_cons in Hfree as [? _]. }
  apply Forall_cons in Hfree as [Hpiece Hfree].
  cbn [foldr]. by rewrite split_str_free, IH.
Qed.

(** X14. The blocks of a [TrecTextIterator] are the parts of the text
    between the markers <DOCNO>: the text is what stands in front of the
    first marker, which the iterator drops, followed by the marker and the
    block for every block in turn, and neither that front part nor any
    block holds the marker. There is one such way to cut a text, so that
    the blocks of a text put together from marker-free parts are those
    parts. A text without the marker has no block. *)
Theorem TrecTextIterator_blocks (text : string) :
  (∃ preamble,
     occurs_in "<DOCNO>" preamble = false ∧
     text =
       preamble +:+
       foldr (λ block rest, "<DOCNO>" +:+ block +:+ rest) EmptyString
             (doc_blocks (TrecTextIterator_init text))) ∧
  Forall (λ block, occurs_in "<DOCNO>" block = false)
         (doc_blocks (TrecTextIterator_init text)) ∧
  (∀ preamble blocks,
     occurs_in "<DOCNO>" preamble = false →
     Forall (λ block, occurs_in "<DOCNO>" block = false) blocks →
     text =
       preamble +:+
       foldr (λ block rest, "<DOCNO>" +:+ block +:+ rest) EmptyString blocks →
     doc_blocks (TrecTextIterator_init text) = blocks) ∧
  (occurs_in "<DOCNO>" text = false →
   doc_blocks (TrecTextIterator_init text) = []).
Proof.
  unfold TrecTextIterator_init. cbn [doc_blocks].
  pose proof (join_split_str "<" "DOCNO>" text) as Hjoin.
  pose proof (split_str_pieces_free "<" "DOCNO>" text) as Hfree.
  pose proof (split_str_nonempty "<DOCNO>" text) as Hne.
  split_and!.
  - destruct (split_str "<DOCNO>" text) as [|preamble blocks]; [done|].
    apply Forall_cons in Hfree as [Hpreamble _].
    exists preamble. split; [done|]. by rewrite <-Hjoin, join_blocks.
  - destruct (split_str "<DOCNO>" text) as [|preamble blocks]; [done|].
    by apply Forall_cons in Hfree as [_ ?].
  - intros preamble blocks Hpreamble Hblocks ->.
    by rewrite (split_str_join "<" "DOCNO>") by (done || by constructor).
  - intros Habsent. by rewrite split_str_absent.
Qed.

Lemma TrecTextIterator_blocks_witness :
  occurs_in "<DOCNO>" "<DOC> " = false ∧
  Forall (λ block, occurs_in "<DOCNO>" block = false)
         [" D1 </DOCNO> cat </DOC><DOC> "; " D2 </DOCNO> dog </DOC>"]%string ∧
  doc_blocks
    (TrecTextIterator_init
       "<DOC> <DOCNO> D1 </DOCNO> cat </DOC><DOC> <DOCNO> D2 </DOCNO> dog </DOC>")
    = [" D1 </DOCNO> cat </DOC><DOC> "; " D2 </DOCNO> dog </DOC>"]%string.
Proof.
  assert (occurs_in "<DOCNO>" "<DOC> " = false) as Hpreamble by reflexivity.
  assert (Forall (λ block, occurs_in "<DOCNO>" block = false)
            [" D1 </DOCNO> cat </DOC><DOC> "; " D2 </DOCNO> dog </DOC>"]%string)
    as Hblocks by (by repeat constructor).
  split_and!; [exact Hpreamble|exact Hblocks|].
  exact (proj1 (proj2 (proj2
    (TrecTextIterator_blocks
       "<DOC> <DOCNO> D1 </DOCNO> cat </DOC><DOC> <DOCNO> D2 </DOCNO> dog </DOC>")))
    "<DOC> "%string _ Hpreamble Hblocks eq_refl).
Defined.

Lemma iterate_blocks fuel it :
  (length (doc_blocks it) ≤ fuel)%nat →
  (iterate fuel it).1 = doc_blocks it ∧
  doc_blocks (iterate fuel it).2 = [] ∧
  current_doc (iterate fuel it).2 =
    (if doc_blocks it is [] then current_doc it else last (doc_blocks it)).
Proof.
  revert it. induction fuel as [|fuel IH]; intros [text start blocks current];
    cbn [doc_blocks current_doc]; intros Hfuel.
  { destruct blocks; [done|simpl in Hfuel; lia]. }
  destruct blocks as [|doc blocks]; [done|].
  cbn [iterate]. unfold TrecTextIterator_next. cbn [doc_blocks length].
  rewrite bool_decide_eq_true_2 by lia. cbn [drop trectext doc_start].
  specialize (IH {| trectext := text; doc_start := start;
                    doc_blocks := blocks; current_doc := Some doc |}).
  cbn [doc_blocks current_doc] in IH. simpl in Hfuel.
  destruct IH as (Hdocs & Hend & Hcur); [lia|].
  destruct (iterate fuel _) as [docs it']. cbn [fst snd] in *.
  split_and!; [by rewrite Hdocs|done|].
  rewrite Hcur. by destruct blocks.
Qed.

(** X15. Iterating a [TrecTextIterator] yields its blocks, each once and
    in the order of the text, within as many rounds as there are blocks;
    the iterator is then empty, [__next__] raises [StopIteration] on it,
    and [current_doc] is the last block yielded. *)
Theorem TrecTextIterator_iterate (it : TrecTextIterator) :
  (iterate (length (doc_blocks it)) it).1 = doc_blocks it ∧
  doc_blocks (iterate (length (doc_blocks it)) it).2 = [] ∧
  TrecTextIterator_next (iterate (length (doc_blocks it)) it).2 = None ∧
  current_doc (iterate (length (doc_blocks it)) it).2 =
    (if doc_blocks it is [] then current_doc it else last (doc_blocks it)).
Proof.
  destruct (iterate_blocks (length (doc_blocks it)) it) as (Hdocs & Hend & Hcur);
    [done|].
  split_and!; [done..| |done].
  unfold TrecTextIterator_next. by rewrite Hend.
Qed.

(** ** [extract_text_and_id] *)

Lemma extract_text_and_id_unfold doc :
  extract_text_and_id doc =
    match split_str "</DOCNO>" (spaced doc) with
    | [internal_id; contents] =>
        Unpacked
          (replace "</TEXT>" ""
             (replace "<TEXT>" ""
                (replace "</DOC>" "" (replace "<DOC>" "" contents))),
           internal_id)
    | _ => ValueError
    end.
Proof. unfold extract_text_and_id. by rewrite join_split_newline. Qed.

(** X16. [extract_text_and_id] raises a [ValueError] on a block without
    the closing tag </DOCNO>. When it returns, the block with a space for
    every newline is the identifier, the closing tag and a rest, the
    contents are that rest with the four tags <DOC>, </DOC>, <TEXT>,
    </TEXT> taken out in this order, and neither the identifier nor the
    contents hold a newline. *)
Theorem extract_text_and_id_spec (doc : string) :
  (occurs_in "</DOCNO>" doc = false → extract_text_and_id doc = ValueError) ∧
  (∀ contents internal_id,
     extract_text_and_id doc = Unpacked (contents, internal_id) →
     (∃ rest,
        spaced doc = internal_id +:+ "</DOCNO>" +:+ rest ∧
        contents =
          replace "</TEXT>" ""
            (replace "<TEXT>" ""
               (replace "</DOC>" "" (replace "<DOC>" "" rest)))) ∧
     contains "010" contents = false ∧
     contains "010" internal_id = false).
Proof.
  rewrite extract_text_and_id_unfold. split.
  - intros Habsent. rewrite split_str_absent; [done|].
    by rewrite occurs_in_spaced.
  - intros contents internal_id.
    pose proof (join_split_str "<" "/DOCNO>" (spaced doc)) as Hjoin.
    pose proof (λ piece, contains_split_str_from "010" "</DOCNO>" 0
                           (spaced doc) piece) as Hchars.
    fold (split_str "</DOCNO>" (spaced doc)) in Hchars.
    destruct (split_str "</DOCNO>" (spaced doc)) as [|id [|rest [|? ?]]];
      try done.
    intros [= <- <-]. split_and!.
    + exists rest. split; [|done]. by rewrite <-Hjoin.
    + apply not_true_is_false. intros Hc.
      do 4 apply contains_replace_empty in Hc.
      pose proof (spaced_no_newline doc) as Hnone.
      rewrite (Hchars rest) in Hnone; [done| |done]. set_solver.
    + apply not_true_is_false. intros Hc.
      pose proof (spaced_no_newline doc) as Hnone.
      rewrite (Hchars id) in Hnone; [done| |done]. set_solver.
Qed.

Lemma extract_text_and_id_spec_witness :
  occurs_in "</DOCNO>" " D1 <TEXT>cat</TEXT>" = false ∧
  extract_text_and_id " D1 <TEXT>cat</TEXT>" = ValueError.
Proof.
  assert (occurs_in "</DOCNO>" " D1 <TEXT>cat</TEXT>" = false) as Habsent
    by reflexivity.
  split; [exact Habsent|].
  exact (proj1 (extract_text_and_id_spec " D1 <TEXT>cat</TEXT>") Habsent).
Defined.

(** ** [__init__] from the texts of the files *)

Lemma foldl_ValueError {A St} (f : unpacking St → A → unpacking St) l :
  (∀ x, f ValueError x = ValueError) → foldl f ValueError l = ValueError.
Proof. intros Hf. induction l as [|x l IH]; simpl; [done|]. by rewrite Hf. Qed.

Lemma index_text_unpack st text :
  index_text st text =
    match unpack_all extract_text_and_id (doc_blocks (TrecTextIterator_init text)) with
    | Unpacked ds => Unpacked (foldl index_document st ds)
    | ValueError => ValueError
    end.
Proof.
  unfold index_text.
  destruct (iterate_blocks (length (doc_blocks (TrecTextIterator_init text)))
              (TrecTextIterator_init text)) as [-> _]; [done|].
  generalize (doc_blocks (TrecTextIterator_init text)). intros blocks.
  revert st. induction blocks as [|block blocks IH]; intros st; [done|].
  cbn [foldl unpack_all].
  destruct (extract_text_and_id block) as [d|]; simpl.
  - rewrite IH. by destruct (unpack_all extract_text_and_id blocks).
  - by apply foldl_ValueError.
Qed.

Lemma index_texts_unpack st Texts :
  foldl (λ acc text, st ← acc; index_text st text) (Unpacked st) Texts =
    match unpack_all
            (λ text, unpack_all extract_text_and_id
                       (doc_blocks (TrecTextIterator_init text))) Texts with
    | Unpacked parsed => Unpacked (foldl index_document st (concat parsed))
    | ValueError => ValueError
    end.
Proof.
  revert st. induction Texts as [|text Texts IH]; intros st; [done|].
  cbn [foldl unpack_all]. simpl. rewrite index_text_unpack.
  destruct (unpack_all extract_text_and_id _) as [ds|]; simpl.
  - rewrite IH. destruct (unpack_all _ Texts) as [parsed|]; simpl; [|done].
    by rewrite foldl_app.
  - by apply foldl_ValueError.
Qed.

Lemma InvertedIndex_from_texts_unpack list_of_set Texts :
  InvertedIndex_from_texts list_of_set Texts =
    match unpack_all
            (λ text, unpack_all extract_text_and_id
                       (doc_blocks (TrecTextIterator_init text))) Texts with
    | Unpacked parsed => Unpacked (InvertedIndex_init list_of_set (concat parsed))
    | ValueError => ValueError
    end.
Proof.
  unfold InvertedIndex_from_texts, InvertedIndex_init.
  rewrite index_texts_unpack.
  destruct (unpack_all _ Texts) as [parsed|]; simpl; [|done].
  by destruct (foldl index_document _ (concat parsed)).
Qed.

(** X17. [__init__] over the texts of the files is the extraction of
    every block of every file, in the order of the files and of the blocks
    in each, followed by the construction over the one sequence of all the
    documents: the IDs run on from one file to the next. It raises a
    [ValueError] exactly when the extraction of some block does, and for
    an order of the sets it raises nothing else. *)
Theorem InvertedIndex_from_texts_spec
    (list_of_set : gset Z → list Z) (Texts : list string) :
  InvertedIndex_from_texts list_of_set Texts =
    match unpack_all
            (λ text, unpack_all extract_text_and_id
                       (doc_blocks (TrecTextIterator_init text))) Texts with
    | Unpacked parsed => Unpacked (InvertedIndex_init list_of_set (concat parsed))
    | ValueError => ValueError
    end ∧
  (set_order list_of_set →
   InvertedIndex_from_texts list_of_set Texts = ValueError ∨
   ∃ idx, InvertedIndex_from_texts list_of_set Texts = Unpacked (Return idx)).
Proof.
  split; [apply InvertedIndex_from_texts_unpack|].
  intros Horder. rewrite InvertedIndex_from_texts_unpack.
  destruct (unpack_all _ Texts) as [parsed|]; [right|by left].
  destruct (InvertedIndex_init_spec _ Horder (concat parsed)) as (idx & -> & _).
  by exists idx.
Qed.

Lemma InvertedIndex_from_texts_spec_witness :
  set_order elements ∧
  InvertedIndex_from_texts elements
    ["x<DOCNO>A</DOCNO>cat dog<DOCNO>B</DOCNO>dog bird"; "<DOCNO>C</DOCNO>cat bird"]
    = Unpacked (InvertedIndex_init elements
                  [("cat dog", "A"); ("dog bird", "B"); ("cat bird", "C")]%string).
Proof.
  split; [exact elements_set_order|].
  etrans;
    [exact (proj1 (InvertedIndex_from_texts_spec elements
                     ["x<DOCNO>A</DOCNO>cat dog<DOCNO>B</DOCNO>dog bird";
                      "<DOCNO>C</DOCNO>cat bird"]))|].
  vm_compute. reflexivity.
Defined.

(** ** Files of documents in the format of the collection *)

Lemma prepend_str_app a b pieces :
  pieces ≠ [] →
  prepend_str a (prepend_str b pieces) = prepend_str (a +:+ b) pieces.
Proof. destruct pieces; [done|]. intros _. simpl. by rewrite str_app_assoc. Qed.

Lemma spaced_id s : contains "010" s = false → spaced s = s.
Proof.
  induction s as [|c s IH]; [done|]. cbn [contains spaced].
  intros [Hc Hs]%orb_false_iff. by rewrite Hc, IH.
Qed.

Lemma spaced_newline : spaced newline = " "%string.
Proof. reflexivity. Qed.

Lemma contains_lt_spaced s : contains "<" s = false → contains "<" (spaced s) = false.
Proof. intros Hs. by rewrite contains_spaced. Qed.

(** Proves that no occurrence of a tag starts in a stretch of text made of
    tag free strings and of the constants of the format. *)
Ltac clear_tac :=
  repeat first
    [ reflexivity
    | apply clear_of_app
    | apply clear_of_free; first [assumption | by apply contains_lt_spaced] ].

Ltac walk_split :=
  repeat first
    [ rewrite split_str_hit
    | rewrite split_str_clear by clear_tac ].

Lemma replace_clear_all c old new a :
  clear_of (String c old) a = true → replace (String c old) new a = a.
Proof.
  intros Ha. rewrite <-(str_app_nil_r a) at 1.
  by rewrite replace_clear, replace_empty, str_app_nil_r.
Qed.

Ltac walk_replace :=
  repeat first
    [ rewrite replace_hit
    | rewrite replace_clear by clear_tac
    | rewrite replace_clear_all by clear_tac
    | rewrite replace_empty
    | rewrite str_app_nil_l ].

Lemma trec_body_app d rest : trec_body d rest = trec_body d "" +:+ rest.
Proof. unfold trec_body. by rewrite !str_app_assoc. Qed.

Lemma split_trec_text docs :
  Forall tag_free docs →
  split_str "<DOCNO>" (trec_text docs) = trec_preamble docs :: trec_blocks docs.
Proof.
  induction 1 as [|d docs [Hc Hid] _ IH]; [done|].
  cbn [trec_text foldr trec_blocks]. fold (trec_text docs).
  unfold trec_document. walk_split.
  rewrite trec_body_app, split_str_clear, IH by (unfold trec_body; clear_tac).
  cbn [prepend_str]. by rewrite <-trec_body_app.
Qed.

(** ** The tokens of contents with more white space *)

Lemma split_app_space s w t :
  isspace w = true → split (s +:+ String w t) = split s ++ split t.
Proof.
  intros Hw. unfold split. by rewrite split_at_app_sep, filter_app.
Qed.

Lemma split_cons_space w t : isspace w = true → split (String w t) = split t.
Proof.
  intros Hw. change (String w t) with ("" +:+ String w t).
  by rewrite split_app_space.
Qed.

Lemma split_at_spaced s : split_at isspace (spaced s) = split_at isspace s.
Proof.
  induction s as [|c s IH]; [done|]. cbn [spaced split_at]. rewrite IH.
  destruct (decide (c = "010"%char)) as [->|Hc].
  - by rewrite (bool_decide_eq_true_2 ("010"%char = "010"%char)).
  - by rewrite (bool_decide_eq_false_2 (c = "010"%char)).
Qed.

Lemma split_spaced s : split (spaced s) = split s.
Proof. unfold split. by rewrite split_at_spaced. Qed.

(** ** The extraction of a block of such a file *)

Lemma spaced_trec_body d rest :
  spaced (trec_body d rest) =
    spaced d.2 +:+ "</DOCNO>" +:+ " " +:+ "<TEXT>" +:+ " " +:+
    spaced d.1 +:+ " " +:+ "</TEXT>" +:+ " " +:+ "</DOC>" +:+ " " +:+ spaced rest.
Proof.
  unfold trec_body. rewrite !spaced_app, !spaced_newline.
  by rewrite !(spaced_id "</DOCNO>"), !(spaced_id "<TEXT>"),
    !(spaced_id "</TEXT>"), !(spaced_id "</DOC>").
Qed.

Ltac split_spaces :=
  rewrite !str_app_cons, !str_app_nil_l;
  rewrite !split_cons_space by done;
  rewrite split_app_space by done; rewrite split_spaced;
  match goal with
  | |- _ ++ ?blank = _ => change blank with (@nil string); apply app_nil_r
  end.

Lemma extract_trec_block d docs :
  tag_free d →
  ∃ contents,
    extract_text_and_id (trec_body d (trec_preamble docs))
      = Unpacked (contents, spaced d.2) ∧
    split contents = split d.1.
Proof.
  intros [Hc Hid]. rewrite extract_text_and_id_unfold, spaced_trec_body.
  destruct docs as [|d' docs]; cbn [trec_preamble].
  - change (spaced "") with ""%string. walk_split.
    change (split_str "</DOCNO>" "") with [""%string]. cbn [prepend_str].
    rewrite !str_app_nil_r. eexists. split; [reflexivity|].
    walk_replace. split_spaces.
  - rewrite !spaced_app, spaced_newline, (spaced_id "<DOC>") by done.
    change (spaced "") with ""%string. walk_split.
    change (split_str "</DOCNO>" "") with [""%string]. cbn [prepend_str].
    rewrite !str_app_nil_r. eexists. split; [reflexivity|].
    walk_replace. split_spaces.
Qed.

Lemma unpack_all_cons {A B} (f : A → unpacking B) x l y ys :
  f x = Unpacked y → unpack_all f l = Unpacked ys →
  unpack_all f (x :: l) = Unpacked (y :: ys).
Proof. cbn [unpack_all]. by intros -> ->. Qed.

Lemma extract_trec_blocks docs :
  Forall tag_free docs →
  ∃ parsed,
    unpack_all extract_text_and_id (trec_blocks docs) = Unpacked parsed ∧
    Forall2 (λ d' d : string * string, d'.2 = spaced d.2 ∧ split d'.1 = split d.1)
            parsed docs.
Proof.
  induction 1 as [|d docs Hd _ (parsed & Hparsed & Hrel)].
  { by exists []. }
  destruct (extract_trec_block d docs Hd) as (contents & Hextract & Htokens).
  exists ((contents, spaced d.2) :: parsed).
  split; [by apply unpack_all_cons|]. by constructor.
Qed.

Lemma doc_blocks_init text :
  doc_blocks (TrecTextIterator_init text) = drop 1 (split_str "<DOCNO>" text).
Proof. reflexivity. Qed.

Lemma extract_trec_texts (files : list (list (string * string))) :
  Forall (Forall tag_free) files →
  ∃ parsed,
    unpack_all
      (λ text, unpack_all extract_text_and_id
                 (doc_blocks (TrecTextIterator_init text)))
      (trec_text <$> files) = Unpacked parsed ∧
    Forall2 (λ d' d : string * string, d'.2 = spaced d.2 ∧ split d'.1 = split d.1)
            (concat parsed) (concat files).
Proof.
  induction 1 as [|docs files Hdocs _ (parsed & Hparsed & Hrel)].
  { by exists []. }
  destruct (extract_trec_blocks docs Hdocs) as (parsed1 & Hparsed1 & Hrel1).
  exists (parsed1 :: parsed).
  split; [|by apply Forall2_app].
  rewrite fmap_cons. apply unpack_all_cons; [|done].
  by rewrite doc_blocks_init, split_trec_text.
Qed.

(** X18. Files in the format of the collection are read back as the
    documents they were written from. For files of documents that are free
    of the character <, [__init__] raises nothing; the document at
    position [i] of the files taken together is stored under the ID [i],
    with its identifier stripped (and a space for every newline in it)
    and with contents that have the tokens of the document; and the
    posting list of a term holds the positions of the documents with that
    token. *)
Theorem InvertedIndex_from_trec_files
    (list_of_set : gset Z → list Z) (files : list (list (string * string))) :
  set_order list_of_set →
  Forall (Forall tag_free) files →
  ∃ idx,
    InvertedIndex_from_texts list_of_set (trec_text <$> files)
      = Unpacked (Return idx) ∧
    size (documents idx) = length (concat files) ∧
    (∀ (i : nat) d,
       concat files !! i = Some d →
       ∃ doc, documents idx !! Z.of_nat i = Some doc ∧
              internal_id doc = strip (spaced d.2) ∧
              split (contents doc) = split d.1) ∧
    (∀ term, get_posting_list idx term = containing (concat files) term).
Proof.
  intros Horder Hfiles.
  destruct (extract_trec_texts files Hfiles) as (parsed & Hparsed & Hrel).
  rewrite InvertedIndex_from_texts_unpack, Hparsed.
  destruct (InvertedIndex_init_spec _ Horder (concat parsed))
    as (idx & Hinit & Hsize & Hdoc & _).
  exists idx. split_and!.
  - by rewrite Hinit.
  - rewrite Hsize. by eapply Forall2_length.
  - intros i d Hi.
    destruct (Forall2_lookup_r _ _ _ _ _ Hrel Hi) as (d' & Hi' & Hid & Htokens).
    exists (document_of d'). rewrite Hdoc, Hi'. split_and!; [done| |done].
    unfold document_of. cbn [internal_id]. by rewrite Hid.
  - intros term. unfold get_posting_list.
    rewrite (built_posting_list_lookup _ _ _ term Horder Hinit).
    rewrite (containing_same_tokens (concat parsed) (concat files)).
    + by case_decide as Hnil; [rewrite Hnil|].
    + eapply Forall2_impl; [done|]. by intros ? ? [_ ?].
Qed.

Lemma InvertedIndex_from_trec_files_witness :
  set_order elements ∧
  Forall (Forall tag_free)
    [[("cat dog", " D1 "); ("dog
bird", "D2")]; [("cat bird", "D3")]]%string ∧
  ∃ idx,
    InvertedIndex_from_texts elements
      (trec_text <$> [[("cat dog", " D1 "); ("dog
bird", "D2")]; [("cat bird", "D3")]]%string) = Unpacked (Return idx) ∧
    get_posting_list idx "bird" = [1; 2].
Proof.
  assert (Forall (Forall tag_free)
    [[("cat dog", " D1 "); ("dog
bird", "D2")]; [("cat bird", "D3")]]%string) as Hfiles
    by (repeat constructor).
  split_and!; [exact elements_set_order|exact Hfiles|].
  destruct (InvertedIndex_from_trec_files elements _ elements_set_order Hfiles)
    as (idx & Hinit & _ & _ & Hpl).
  exists idx. split; [exact Hinit|].
  etrans; [exact (Hpl "bird"%string)|]. vm_compute. reflexivity.
Defined.
